(** * chat-parser: the upload pipeline of [src/app/api/messages/route.ts]

    A shallow embedding of the upload handler [POST] (the variant with model
    fallback and manual parsing), of the manual line parser
    [parseChatManually] and of [insertChatMessages] from [src/lib/db.ts],
    together with the part of the JavaScript runtime they rely on: strings
    as sequences of UTF-16 code units, [trim], [split], the regular
    expression fragment the source uses, and JSON values. *)

From Stdlib Require Import String Ascii DecimalString.
From Stdlib Require Import List NArith ZArith Bool Lia Permutation.
Import ListNotations.

Set Implicit Arguments.
Set Warnings "-register-all".

(* ================================================================== *)
(** * JavaScript strings *)
(* ================================================================== *)

Module JS.

(** A string is a sequence of UTF-16 code units. *)
Definition char := N.
Definition jstring := list char.

(** String literals of the source, written in ASCII. *)
Definition lit (s : string) : jstring :=
  map N_of_ascii (list_ascii_of_string s).

(** The double quote, code unit 34. *)
Definition dq : char := 34%N.

Definition quoted (s : jstring) : jstring := dq :: s ++ [dq].

Fixpoint eqs (a b : jstring) : bool :=
  match a, b with
  | [], [] => true
  | x :: a', y :: b' => N.eqb x y && eqs a' b'
  | _, _ => false
  end.

(** [WhiteSpace] and [LineTerminator] of ECMAScript: what [trim] strips and
    what [\s] matches. *)
Definition is_space (c : char) : bool :=
  ((9 <=? c) && (c <=? 13) || (c =? 32) || (c =? 160) || (c =? 5760)
   || (8192 <=? c) && (c <=? 8202) || (c =? 8232) || (c =? 8233)
   || (c =? 8239) || (c =? 8287) || (c =? 12288) || (c =? 65279))%N.

(** [LineTerminator]: what [.] does not match. *)
Definition is_line_terminator (c : char) : bool :=
  ((c =? 10) || (c =? 13) || (c =? 8232) || (c =? 8233))%N.

Definition is_empty (s : jstring) : bool :=
  match s with [] => true | _ :: _ => false end.

Fixpoint trimStart_by (ws : char -> bool) (s : jstring) : jstring :=
  match s with
  | c :: s' => if ws c then trimStart_by ws s' else s
  | [] => []
  end.

Definition trimStart (s : jstring) : jstring := trimStart_by is_space s.

Definition trimEnd (s : jstring) : jstring := rev (trimStart (rev s)).

(** [String.prototype.trim] *)
Definition trim (s : jstring) : jstring := trimEnd (trimStart s).

(** [String.prototype.startsWith] *)
Fixpoint startsWith (s p : jstring) {struct p} : bool :=
  match p, s with
  | [], _ => true
  | x :: p', y :: s' => N.eqb x y && startsWith s' p'
  | _ :: _, [] => false
  end.

(** [String.prototype.endsWith] *)
Definition endsWith (s p : jstring) : bool := startsWith (rev s) (rev p).

(** [String.prototype.includes] *)
Fixpoint includes (s p : jstring) : bool :=
  startsWith s p ||
  match s with
  | [] => false
  | _ :: s' => includes s' p
  end.

(** [String.prototype.split] with a one-unit separator: the pieces between
    the separators, in order; never an empty array. *)
Fixpoint split_on (sep : char) (cur : jstring) (s : jstring) : list jstring :=
  match s with
  | [] => [rev cur]
  | c :: s' => if N.eqb c sep then rev cur :: split_on sep [] s'
               else split_on sep (c :: cur) s'
  end.

Definition split (s : jstring) (sep : char) : list jstring := split_on sep [] s.

(** [s.substring(0, n)] *)
Definition substring0 (s : jstring) (n : nat) : jstring := firstn n s.

(** Decimal rendering of an array index or length inside a template. *)
Definition toString (n : nat) : jstring :=
  lit (NilZero.string_of_uint (Nat.to_uint n)).

(** ** Regular expressions

    The fragment of ECMAScript patterns the source uses: assertions [^] and
    [$] (no [m] flag), and character classes, possibly quantified by a
    greedy [*] or [+], possibly captured by a group.  A literal character is
    the class of that one character.  Matching backtracks the way the
    ECMAScript matcher does: a greedy quantifier first takes as many
    characters as it can and gives them back one at a time until the rest of
    the pattern matches. *)

Inductive quant := Once | Star | Plus.

Inductive node :=
| Bol                                   (* ^ *)
| Eol                                   (* $ *)
| Cls (cap : bool) (q : quant) (p : char -> bool).

Definition regex := list node.

(** What a successful match yields from some position on: the matched text
    and the captured groups, left to right. *)
Definition found := (jstring * list jstring)%type.

(** Greedy repetition of class [p], continuing with [k] on what is left.
    [bol] tells whether the current position is the start of the input. *)
Fixpoint greedy (A : Type) (p : char -> bool) (k : bool -> jstring -> option A)
    (bol : bool) (s : jstring) : option (jstring * A) :=
  match s with
  | c :: s' =>
      if p c then
        match greedy p k false s' with
        | Some (t, a) => Some (c :: t, a)
        | None => option_map (pair []) (k bol s)
        end
      else option_map (pair []) (k bol s)
  | [] => option_map (pair []) (k bol [])
  end.

Definition emit (cap : bool) (r : option (jstring * found)) : option found :=
  match r with
  | Some (t, (m, gs)) => Some (t ++ m, if cap then t :: gs else gs)
  | None => None
  end.

Definition cons_taken (c : char) (r : option (jstring * found))
  : option (jstring * found) :=
  match r with
  | Some (t, a) => Some (c :: t, a)
  | None => None
  end.

Fixpoint run (r : regex) (bol : bool) (s : jstring) {struct r} : option found :=
  match r with
  | [] => Some ([], [])
  | Bol :: r' => if bol then run r' bol s else None
  | Eol :: r' => match s with [] => run r' bol s | _ :: _ => None end
  | Cls cap Once p :: r' =>
      match s with
      | c :: s' => if p c then emit cap (option_map (pair [c]) (run r' false s')) else None
      | [] => None
      end
  | Cls cap Star p :: r' => emit cap (greedy p (run r') bol s)
  | Cls cap Plus p :: r' =>
      match s with
      | c :: s' => if p c then emit cap (cons_taken c (greedy p (run r') false s'))
                   else None
      | [] => None
      end
  end.

(** The result of [RegExp.prototype.exec]: where the match starts, the
    matched text ([m[0]]) and the groups ([m[1]], [m[2]], ...). *)
Record Match := { index : nat; matched : jstring; groups : list jstring }.

(** The leftmost start position from which the pattern matches. *)
Fixpoint search (r : regex) (bol : bool) (i : nat) (s : jstring) : option Match :=
  match run r bol s with
  | Some (m, gs) => Some {| index := i; matched := m; groups := gs |}
  | None =>
      match s with
      | [] => None
      | _ :: s' => search r false (S i) s'
      end
  end.

(** [s.match(r)] for a pattern without the [g] flag. *)
Definition exec (r : regex) (s : jstring) : option Match := search r true 0 s.

(** [m[i]] for [i >= 1]; every group of the patterns below takes part in
    every match, so none is ever [undefined]. *)
Definition group (m : Match) (i : nat) : jstring := nth (pred i) (groups m) [].

(** [s.replace(r, rep)] for a pattern without the [g] flag and a replacement
    without [$]: the first match is replaced. *)
Definition replace (s : jstring) (r : regex) (rep : jstring) : jstring :=
  match exec r s with
  | Some m => firstn (index m) s ++ rep ++ skipn (index m + length (matched m)) s
  | None => s
  end.

(** Pattern syntax. *)
Definition chr (c : char) : node := Cls false Once (N.eqb c).
Definition str (s : string) : regex := map chr (lit s).
Definition any (_ : char) : bool := true.                       (* [\s\S] *)
Definition dot (c : char) : bool := negb (is_line_terminator c). (* . *)
Definition none_of (s : string) (c : char) : bool :=            (* [^...] *)
  negb (existsb (N.eqb c) (lit s)).
Definition not_space (c : char) : bool := negb (is_space c).    (* [^\s] *)
Definition not_dq (c : char) : bool := negb (N.eqb c dq).       (* not a double quote *)

End JS.

Import JS.

(* ================================================================== *)
(** * JavaScript values *)
(* ================================================================== *)

(** What [JSON.parse] can return, and [undefined].  A number [VNum m e] is
    the double nearest to [m * 10^e]. *)
Inductive value :=
| VUndefined
| VNull
| VBool (b : bool)
| VNum (m e : Z)
| VStr (s : jstring)
| VArr (elems : list value)
| VObj (props : list (jstring * value)).

(** A decimal [m * 10^e] rounds to zero exactly when it is at most half the
    least positive double, [2^-1075]. *)
Definition rounds_to_zero (m e : Z) : bool :=
  (m =? 0)%Z || ((e <? 0)%Z && (Z.abs m * 2 ^ 1075 <=? 10 ^ (- e))%Z).

(** [ToBoolean] *)
Definition truthy (v : value) : bool :=
  match v with
  | VUndefined | VNull => false
  | VBool b => b
  | VNum m e => negb (rounds_to_zero m e)
  | VStr s => match s with [] => false | _ :: _ => true end
  | VArr _ | VObj _ => true
  end.

(** [typeof v === 'object'] *)
Definition typeof_object (v : value) : bool :=
  match v with
  | VNull | VArr _ | VObj _ => true
  | _ => false
  end.

(** [Array.isArray] *)
Definition isArray (v : value) : bool :=
  match v with VArr _ => true | _ => false end.

Fixpoint lookup (k : jstring) (props : list (jstring * value)) : value :=
  match props with
  | [] => VUndefined
  | (k', v) :: rest => if eqs k k' then v else lookup k rest
  end.

(** [v.k] on an object or an array (never read on anything else): own
    properties only, since the prototypes define none of the keys the
    source reads.  An array owns its indices and [length]. *)
Definition get_prop (v : value) (k : jstring) : value :=
  match v with
  | VObj props => lookup k props
  | VArr elems =>
      if eqs k (lit "length") then VNum (Z.of_nat (length elems)) 0
      else match find (fun i => eqs k (toString i)) (seq 0 (length elems)) with
           | Some i => nth i elems VUndefined
           | None => VUndefined
           end
  | _ => VUndefined
  end.

(** [a || b] *)
Definition or_else (a b : value) : value := if truthy a then a else b.

(** ** A model of [JSON.parse]

    The JSON grammar of ECMAScript: white space is space, tab, line feed and
    carriage return; a string holds no raw control character; a number has
    no leading zero.  Of two equal keys of an object the later one wins.
    The fuel bounds the depth of the descent; twice the length of the text
    is always enough, since every second call consumes a character. *)
Module JSON.

Definition is_ws (c : char) : bool :=
  ((c =? 32) || (c =? 9) || (c =? 10) || (c =? 13))%N.

Definition skip_ws (s : jstring) : jstring := trimStart_by is_ws s.

Definition digit (c : char) : option Z :=
  if ((48 <=? c) && (c <=? 57))%N then Some (Z.of_N c - 48)%Z else None.

Definition hex (c : char) : option N :=
  if ((48 <=? c) && (c <=? 57))%N then Some (c - 48)%N
  else if ((97 <=? c) && (c <=? 102))%N then Some (c - 87)%N
  else if ((65 <=? c) && (c <=? 70))%N then Some (c - 55)%N
  else None.

(** The digits at the head of [s]: their value after [acc], how many there
    are, and the rest. *)
Fixpoint digits (acc : Z) (n : nat) (s : jstring) : Z * nat * jstring :=
  match s with
  | c :: s' =>
      match digit c with
      | Some d => digits (10 * acc + d)%Z (S n) s'
      | None => (acc, n, s)
      end
  | [] => (acc, n, s)
  end.

(** A number, after its optional minus sign. *)
Definition number (neg : bool) (s : jstring) : option (value * jstring) :=
  let int_part :=
    match s with
    | 48%N :: s' => Some (0%Z, s')
    | c :: _ =>
        match digit c with
        | Some _ => let '(v, _, s') := digits 0 0 s in Some (v, s')
        | None => None
        end
    | [] => None
    end in
  match int_part with
  | None => None
  | Some (i, s1) =>
      let frac_part :=
        match s1 with
        | 46%N :: s2 =>
            let '(v, n, s3) := digits i 0 s2 in
            match n with O => None | S _ => Some (v, Z.of_nat n, s3) end
        | _ => Some (i, 0%Z, s1)
        end in
      match frac_part with
      | None => None
      | Some (m, scale, s3) =>
          let signed := if neg then (- m)%Z else m in
          let exponent (eneg : bool) (s5 : jstring) :=
            let '(v, n, s6) := digits 0 0 s5 in
            match n with
            | O => None
            | S _ => Some (VNum signed ((if eneg then - v else v) - scale), s6)
            end in
          match s3 with
          | (101%N | 69%N) :: 43%N :: s5 => exponent false s5
          | (101%N | 69%N) :: 45%N :: s5 => exponent true s5
          | (101%N | 69%N) :: s5 => exponent false s5
          | _ => Some (VNum signed (- scale), s3)
          end
      end
  end.

(** The characters of a string, after its opening quote. *)
Fixpoint chars (s : jstring) (acc : jstring) (fuel : nat) : option (jstring * jstring) :=
  match fuel with
  | O => None
  | S fuel =>
      match s with
      | 34%N :: s' => Some (rev acc, s')
      | 92%N :: 117%N :: a :: b :: c :: d :: s' =>
          match hex a, hex b, hex c, hex d with
          | Some a, Some b, Some c, Some d =>
              chars s' ((4096 * a + 256 * b + 16 * c + d)%N :: acc) fuel
          | _, _, _, _ => None
          end
      | 92%N :: e :: s' =>
          let unescaped :=
            match e with
            | 34%N => Some 34%N | 92%N => Some 92%N | 47%N => Some 47%N
            | 98%N => Some 8%N | 102%N => Some 12%N | 110%N => Some 10%N
            | 114%N => Some 13%N | 116%N => Some 9%N
            | _ => None
            end in
          match unescaped with
          | Some c => chars s' (c :: acc) fuel
          | None => None
          end
      | c :: s' => if (c <? 32)%N then None else chars s' (c :: acc) fuel
      | [] => None
      end
  end.

Definition string_at (s : jstring) : option (jstring * jstring) :=
  match s with
  | 34%N :: s' => chars s' [] (S (length s'))
  | _ => None
  end.

Fixpoint set_prop (k : jstring) (v : value) (props : list (jstring * value))
  : list (jstring * value) :=
  match props with
  | [] => [(k, v)]
  | (k', v') :: rest => if eqs k k' then (k, v) :: rest else (k', v') :: set_prop k v rest
  end.

Inductive state :=
| AValue                                          (* a value is expected *)
| AElems (done : list value)                      (* inside an array, after an element *)
| AProps (done : list (jstring * value)).         (* inside an object, after a member *)

Fixpoint descend (fuel : nat) (st : state) (s : jstring) : option (value * jstring) :=
  match fuel with
  | O => None
  | S fuel =>
      match st with
      | AValue =>
          match s with
          | 110%N :: 117%N :: 108%N :: 108%N :: s' => Some (VNull, s')
          | 116%N :: 114%N :: 117%N :: 101%N :: s' => Some (VBool true, s')
          | 102%N :: 97%N :: 108%N :: 115%N :: 101%N :: s' => Some (VBool false, s')
          | 34%N :: _ =>
              match string_at s with
              | Some (str, s') => Some (VStr str, s')
              | None => None
              end
          | 45%N :: s' => number true s'
          | 91%N :: s' =>
              match skip_ws s' with
              | 93%N :: s'' => Some (VArr [], s'')
              | s'' =>
                  match descend fuel AValue s'' with
                  | Some (v, rest) => descend fuel (AElems [v]) (skip_ws rest)
                  | None => None
                  end
              end
          | 123%N :: s' =>
              match skip_ws s' with
              | 125%N :: s'' => Some (VObj [], s'')
              | s'' => member fuel [] s''
              end
          | _ => number false s
          end
      | AElems done =>
          match s with
          | 93%N :: s' => Some (VArr (rev done), s')
          | 44%N :: s' =>
              match descend fuel AValue (skip_ws s') with
              | Some (v, rest) => descend fuel (AElems (v :: done)) (skip_ws rest)
              | None => None
              end
          | _ => None
          end
      | AProps done =>
          match s with
          | 125%N :: s' => Some (VObj done, s')
          | 44%N :: s' => member fuel done (skip_ws s')
          | _ => None
          end
      end
  end
with member (fuel : nat) (done : list (jstring * value)) (s : jstring)
  : option (value * jstring) :=
  match fuel with
  | O => None
  | S fuel =>
      match string_at s with
      | Some (k, s1) =>
          match skip_ws s1 with
          | 58%N :: s2 =>
              match descend fuel AValue (skip_ws s2) with
              | Some (v, rest) => descend fuel (AProps (set_prop k v done)) (skip_ws rest)
              | None => None
              end
          | _ => None
          end
      | None => None
      end
  end.

(** [JSON.parse(text)], [None] when it throws a [SyntaxError]. *)
Definition parse (text : jstring) : option value :=
  match descend (2 * length text + 2) AValue (skip_ws text) with
  | Some (v, rest) => if is_empty (skip_ws rest) then Some v else None
  | None => None
  end.

End JSON.

(* ================================================================== *)
(** * The manual line parser *)
(* ================================================================== *)

(** The record both parsers and the validation produce. *)
Record Msg (A : Type) := { sender : A; timestamp : A; message : A }.

Definition msg_map (A B : Type) (f : A -> B) (m : Msg A) : Msg B :=
  {| sender := f (sender m); timestamp := f (timestamp m); message := f (message m) |}.

(** Format 1, [timestamp] sender: message:
    a bracket, group 1 of one or more non-] characters, the closing bracket,
    spaces, group 2 of one or more non-colons, a colon, spaces, group 3 of
    one or more characters of a line, end of input. *)
Definition re_format1 : regex :=
  [Bol] ++ str "[" ++ [Cls true Plus (none_of "]")] ++ str "]"
  ++ [Cls false Star is_space; Cls true Plus (none_of ":")] ++ str ":"
  ++ [Cls false Star is_space; Cls true Plus dot; Eol].

(** Format 2, timestamp sender: message:
    group 1 of one or more non-spaces, one or more spaces, then as format 1. *)
Definition re_format2 : regex :=
  [Bol; Cls true Plus not_space; Cls false Plus is_space;
   Cls true Plus (none_of ":")] ++ str ":"
  ++ [Cls false Star is_space; Cls true Plus dot; Eol].

(** Format 3, sender: message. *)
Definition re_format3 : regex :=
  [Bol; Cls true Plus (none_of ":")] ++ str ":"
  ++ [Cls false Star is_space; Cls true Plus dot; Eol].

Definition newline : char := 10%N.

(** [parseChatManually]: the loop over the lines, pushing onto [messages]. *)
Definition parseChatManually (content : jstring) : list (Msg jstring) :=
  let lines := split content newline in
  fold_left
    (fun messages line =>
       let trimmedLine := trim line in
       if is_empty trimmedLine then messages
       else
         match exec re_format1 trimmedLine with
         | Some m =>
             messages ++ [{| sender := trim (group m 2);
                             timestamp := trim (group m 1);
                             message := trim (group m 3) |}]
         | None =>
             match exec re_format2 trimmedLine with
             | Some m =>
                 messages ++ [{| sender := trim (group m 2);
                                 timestamp := trim (group m 1);
                                 message := trim (group m 3) |}]
             | None =>
                 match exec re_format3 trimmedLine with
                 | Some m =>
                     messages ++ [{| sender := trim (group m 1);
                                     timestamp := lit "Unknown";
                                     message := trim (group m 2) |}]
                 | None => messages
                 end
             end
         end)
    lines [].

(* ================================================================== *)
(** * The world around a request *)
(* ================================================================== *)

(** What a [catch] clause can receive: an [Error] instance with its [name]
    and [message], or some other thrown value. *)
Inductive Thrown :=
| JsError (name message : jstring)
| NonError.

(** [new Error(msg)] *)
Definition Error (msg : jstring) : Thrown := JsError (lit "Error") msg.

(** How one call of [openai.chat.completions.create] ends: it resolves, and
    [completion.choices[0]?.message?.content] is a string or is missing, or
    the [try] block throws. *)
Inductive Outcome :=
| Completed (content : option jstring)
| Rejected (e : Thrown).

(** The uploaded [File]: its name, its size in bytes and its decoded text. *)
Record File := { name : jstring; size : N; text : jstring }.

(** The environment variables, the completion service (asked with a model
    name about a file content; the prompt is a fixed template around the
    content), the runtime's [JSON.parse] ([None] when it throws), the faults
    of the store's driver and the successive readings of the clock by
    [new Date()].

    [insertMany_fault] is the error with which a call of the store in
    [insertChatMessages] rejects, if one does: getting the collection,
    [insertMany], or the read-back [find(...).toArray()].
    [documents_written] is how many documents of the batch are in the
    collection by then: none when the collection cannot be had or the
    first write fails, the first ones when the ordered bulk write stops
    part-way, all of them when the read-back rejects. *)
Record World := {
  OPENAI_API_KEY : option jstring;
  MONGODB_URI : option jstring;
  NODE_ENV : option jstring;
  completions_create : jstring -> jstring -> Outcome;
  JSON_parse : jstring -> option value;
  createIndex_fault : option Thrown;
  insertMany_fault : list (Msg value) -> option Thrown;
  documents_written : list (Msg value) -> nat;
  Date_now : nat -> Z
}.

(** [!process.env.X] *)
Definition unset (v : option jstring) : bool :=
  match v with
  | None => true
  | Some s => is_empty s
  end.

(* ================================================================== *)
(** * The message store, [src/lib/db.ts] *)
(* ================================================================== *)

(** A stored document.  Object ids are modelled by numbers. *)
Record Doc := { _id : nat; fields : Msg value; created_at : Z }.

(** The collection [chat_messages].  Its natural order, in which [find]
    returns the documents, is taken to be the order of insertion. *)
Definition Store := list Doc.

(** An id no document of the collection has. *)
Definition fresh_id (db : Store) : nat := S (list_max (map _id db)).

(** [messages.map(msg => ({...msg, created_at: new Date()}))]: the [i]-th
    record gets the [i]-th reading of the clock. *)
Fixpoint stamp (now : nat -> Z) (i : nat) (messages : list (Msg value))
  : list (Msg value * Z) :=
  match messages with
  | [] => []
  | msg :: rest => (msg, now i) :: stamp now (S i) rest
  end.

(** [collection.insertMany]: the documents are appended in order, each with
    a fresh id; the ids are returned. *)
Fixpoint insertMany (next : nat) (batch : list (Msg value * Z)) : list Doc :=
  match batch with
  | [] => []
  | (msg, t) :: rest =>
      {| _id := next; fields := msg; created_at := t |} :: insertMany (S next) rest
  end.

(** [collection.find({ _id: { $in: ids } }).toArray()] *)
Definition find_in (db : Store) (ids : list nat) : list Doc :=
  filter (fun d => existsb (Nat.eqb (_id d)) ids) db.

(** [insertChatMessages]: the records are stamped, written in order and
    read back.  When a call of the store rejects, the error is thrown
    again and the documents written until then stay in the collection. *)
Definition insertChatMessages (w : World) (db : Store) (messages : list (Msg value))
  : (Thrown + list Doc) * Store :=
  let messagesWithTimestamps := stamp (Date_now w) 0 messages in
  let inserted := insertMany (fresh_id db) messagesWithTimestamps in
  match insertMany_fault w messages with
  | Some e => (inl e, db ++ firstn (documents_written w messages) inserted)
  | None =>
      let db' := db ++ inserted in
      let insertedIds := map _id inserted in
      (inr (find_in db' insertedIds), db')
  end.

(* ================================================================== *)
(** * The upload handler, [POST] of [src/app/api/messages/route.ts] *)
(* ================================================================== *)

(** The JSON body of a response: [{error, details}] or
    [{success: true, message, data, fallback}]. *)
Inductive Body :=
| BError (error : jstring) (details : option Thrown)
| BSuccess (message : jstring) (data : list Doc) (fallback : bool).

Record Response := { status : nat; body : Body }.

(** What a request does besides answering, in order: the calls it awaits
    and the stages it announces on the console.  [EAttempt] stands for the
    call announced by [Attempting to use model], [EFallbackParsing] for
    [All AI models failed, attempting fallback parsing...], which precedes
    the manual parser, [ERawResponse] for [Raw OpenAI response:], which
    precedes the clean-up and [JSON.parse], and [EFallbackJSON] for
    [Attempting fallback JSON construction...], which precedes the
    key/value recovery. *)
Inductive Event :=
| EFormData                                (* request.formData() *)
| EText                                    (* file.text() *)
| ECreateCollection                        (* createChatMessagesCollection() *)
| EAttempt (model : jstring)               (* completions.create with this model *)
| EFallbackParsing
| ERawResponse
| EFallbackJSON
| EInsert (messages : list (Msg value)).   (* insertChatMessages(messages) *)

Definition maxSize : N := 4 * 1024 * 1024.

Definition models : list jstring :=
  [lit "gpt-3.5-turbo"; lit "gpt-4o-mini"; lit "gpt-4"].

(** The truthiness of [responseText]. *)
Definition has_text (responseText : option jstring) : bool :=
  match responseText with
  | Some (_ :: _) => true
  | _ => false
  end.

(** The loop over the candidate models, with its two variables. *)
Fixpoint attempt_loop (w : World) (fileContent : jstring) (candidates : list jstring)
    (responseText : option jstring) (lastError : option Thrown)
  : option jstring * option Thrown * list Event :=
  match candidates with
  | [] => (responseText, lastError, [])
  | model :: rest =>
      match completions_create w model fileContent with
      | Completed content =>
          if has_text content then (content, lastError, [EAttempt model])
          else
            let '(r, e, tr) := attempt_loop w fileContent rest content lastError in
            (r, e, EAttempt model :: tr)
      | Rejected error =>
          let '(r, e, tr) := attempt_loop w fileContent rest responseText (Some error) in
          (r, e, EAttempt model :: tr)
      end
  end.

(** The patterns of the clean-up. *)
Definition re_fence_json : regex := [Bol] ++ str "```json" ++ [Cls false Star is_space].
Definition re_fence_open : regex := [Bol] ++ str "```" ++ [Cls false Star is_space].
Definition re_fence_close : regex := [Cls false Star is_space] ++ str "```" ++ [Eol].
Definition re_array : regex := str "[" ++ [Cls false Star any] ++ str "]".
Definition re_before_json : regex := [Bol; Cls false Star (none_of "{[")].
Definition re_after_json : regex := [Cls false Star (none_of "}]"); Eol].

(** The clean-up of the model's text before [JSON.parse]. *)
Definition sanitize (responseText : jstring) : jstring :=
  let cleanedResponse := trim responseText in
  let cleanedResponse :=
    if startsWith cleanedResponse (lit "```json") then
      replace (replace cleanedResponse re_fence_json []) re_fence_close []
    else if startsWith cleanedResponse (lit "```") then
      replace (replace cleanedResponse re_fence_open []) re_fence_close []
    else cleanedResponse in
  let cleanedResponse := trim cleanedResponse in
  let jsonMatch := exec re_array cleanedResponse in
  let cleanedResponse :=
    match jsonMatch with
    | Some m => matched m
    | None => cleanedResponse
    end in
  trim (replace (replace cleanedResponse re_before_json []) re_after_json []).

(** The message of the parse failure. *)
Definition errorMessage (responseText : jstring) : jstring :=
  lit "Invalid JSON response from OpenAI."
  ++ (if includes responseText (lit "```") then
        lit " The response appears to contain markdown formatting that could not be parsed."
      else if negb (includes responseText (lit "[")) || negb (includes responseText (lit "]")) then
        lit " The response does not appear to contain a JSON array."
      else lit " The JSON structure is malformed.")
  ++ lit " Raw response preview: " ++ substring0 responseText 300 ++ lit "...".

(** The patterns of the key/value recovery: a quoted key, a colon, spaces
    and a quoted value without quotes inside, which is group 1. *)
Definition re_key (key : string) : regex :=
  [chr dq] ++ str key ++ [chr dq] ++ str ":"
  ++ [Cls false Star is_space; chr dq; Cls true Star not_dq; chr dq].

(** The key/value recovery: the loop over the lines of the raw response. *)
Definition fallbackConstruct (responseText : jstring) : list (Msg jstring) :=
  let lines := split responseText newline in
  fold_left
    (fun fallbackMessages line =>
       let trimmedLine := trim line in
       if negb (is_empty trimmedLine)
          && (includes trimmedLine (lit "sender") || includes trimmedLine (lit "timestamp")
              || includes trimmedLine (lit "message"))
       then
         let senderMatch := exec (re_key "sender") trimmedLine in
         let timestampMatch := exec (re_key "timestamp") trimmedLine in
         let messageMatch := exec (re_key "message") trimmedLine in
         match senderMatch, timestampMatch, messageMatch with
         | None, None, None => fallbackMessages
         | _, _, _ =>
             fallbackMessages ++
             [{| sender := match senderMatch with Some m => group m 1 | None => lit "Unknown" end;
                 timestamp := match timestampMatch with Some m => group m 1 | None => lit "Unknown" end;
                 message := match messageMatch with Some m => group m 1 | None => [] end |}]
         end
       else fallbackMessages)
    lines [].

(** The object literal [{sender, timestamp, message}] of a parser. *)
Definition object_of (m : Msg jstring) : value :=
  VObj [(lit "sender", VStr (sender m)); (lit "timestamp", VStr (timestamp m));
        (lit "message", VStr (message m))].

(** The object the validation returns for an element: the three fields,
    each with its default. *)
Definition normalize (msg : value) : Msg value :=
  {| sender := or_else (get_prop msg (lit "sender")) (VStr (lit "Unknown"));
     timestamp := or_else (get_prop msg (lit "timestamp")) (VStr (lit "Unknown"));
     message := or_else (get_prop msg (lit "message")) (VStr []) |}.

(** [parsedMessages.map((msg, index) => ...)] of the validation: the first
    element that is falsy or not an object throws. *)
Fixpoint validate_from (index : nat) (elems : list value) : Thrown + list (Msg value) :=
  match elems with
  | [] => inr []
  | msg :: rest =>
      if negb (truthy msg) || negb (typeof_object msg) then
        inl (Error (lit "Invalid message at index " ++ toString index))
      else
        match validate_from (S index) rest with
        | inl e => inl e
        | inr validated => inr (normalize msg :: validated)
        end
  end.

(** The validation of [parsedMessages]. *)
Definition validate (parsedMessages : value) : Thrown + list (Msg value) :=
  match parsedMessages with
  | VArr elems => validate_from 0 elems
  | _ => inl (Error (lit "Expected an array of messages"))
  end.

(** [NextResponse.json(body, { status })] *)
Definition json (status : nat) (error : jstring) : Response :=
  {| status := status; body := BError error None |}.

(** The outer [catch]. *)
Definition caught (w : World) (error : Thrown) : Response :=
  {| status := 500;
     body := BError
               (match error with
                | JsError _ msg => msg
                | NonError => lit "Internal server error"
                end)
               (match NODE_ENV w with
                | Some env => if eqs env (lit "development") then Some error else None
                | None => None
                end) |}.

(** What is thrown when no model gave a text and the manual parser did not
    answer the request. *)
Definition all_failed (lastError : option Thrown) : Thrown :=
  match lastError with
  | Some (JsError name msg) =>
      if eqs name (lit "AbortError") then
        Error (lit "Request timeout - file processing took too long. Please try with a smaller file.")
      else Error (lit "All models failed. Last error: " ++ msg)
  | _ => Error (lit "All models failed. Last error: " ++ lit "Unknown error")
  end.

(** The end of both paths: validated records are inserted and returned. *)
Definition insert_and_reply (w : World) (db : Store) (validatedMessages : list (Msg value))
  : Response * list Event * Store :=
  match insertChatMessages w db validatedMessages with
  | (inl e, db') => (caught w e, [EInsert validatedMessages], db')
  | (inr insertedMessages, db') =>
      ({| status := 200;
          body := BSuccess (lit "Successfully processed "
                            ++ toString (length insertedMessages) ++ lit " messages")
                           insertedMessages false |},
       [EInsert validatedMessages], db')
  end.

(** No model gave a text: the manual parser on the file content. *)
Definition without_text (w : World) (fileContent : jstring) (lastError : option Thrown)
    (db : Store) : Response * list Event * Store :=
  let fallbackMessages := map (msg_map VStr) (parseChatManually fileContent) in
  let failed := caught w (all_failed lastError) in
  if 0 <? length fallbackMessages then
    match insertChatMessages w db fallbackMessages with
    | (inr insertedMessages, db') =>
        ({| status := 200;
            body := BSuccess
                      (lit "Successfully processed "
                       ++ toString (length insertedMessages)
                       ++ lit " messages using fallback parsing")
                      insertedMessages true |},
         [EFallbackParsing; EInsert fallbackMessages], db')
    | (inl _, db') => (failed, [EFallbackParsing; EInsert fallbackMessages], db')
    end
  else (failed, [EFallbackParsing], db).

(** A model gave a text: clean-up, [JSON.parse], key/value recovery,
    validation. *)
Definition with_text (w : World) (responseText : jstring) (db : Store)
  : Response * list Event * Store :=
  match JSON_parse w (sanitize responseText) with
  | Some parsedMessages =>
      match validate parsedMessages with
      | inl e => (caught w e, [ERawResponse], db)
      | inr validatedMessages =>
          let '(r, tr, db') := insert_and_reply w db validatedMessages in
          (r, [ERawResponse] ++ tr, db')
      end
  | None =>
      let fallbackMessages := fallbackConstruct responseText in
      if 0 <? length fallbackMessages then
        match validate (VArr (map object_of fallbackMessages)) with
        | inl e => (caught w e, [ERawResponse; EFallbackJSON], db)
        | inr validatedMessages =>
            let '(r, tr, db') := insert_and_reply w db validatedMessages in
            (r, [ERawResponse; EFallbackJSON] ++ tr, db')
        end
      else (caught w (Error (errorMessage responseText)), [ERawResponse; EFallbackJSON], db)
  end.

(** The body of [POST] from the model loop on. *)
Definition extract (w : World) (fileContent : jstring) (db : Store)
  : Response * list Event * Store :=
  let '(responseText, lastError, attempts) :=
    attempt_loop w fileContent models None None in
  let '(r, tr, db') :=
    match responseText with
    | Some ((_ :: _) as responseText) => with_text w responseText db
    | _ => without_text w fileContent lastError db
    end in
  (r, attempts ++ tr, db').

(** [POST], from the form entry [file] of the request and the collection
    to the response, the events and the collection afterwards. *)
Definition POST (w : World) (file : option File) (db : Store)
  : Response * list Event * Store :=
  if unset (OPENAI_API_KEY w) then
    (json 500 (lit "OpenAI API key not configured"), [], db)
  else if unset (MONGODB_URI w) then
    (json 500 (lit "Database connection not configured"), [], db)
  else
    match file with
    | None => (json 400 (lit "No file uploaded"), [EFormData], db)
    | Some file =>
        if (maxSize <? size file)%N then
          (json 400 (lit "File size too large. Maximum size is 4MB."), [EFormData], db)
        else if negb (endsWith (name file) (lit ".txt")) then
          (json 400 (lit "Only .txt files are allowed"), [EFormData], db)
        else
          let fileContent := text file in
          if is_empty (trim fileContent) then
            (json 400 (lit "File is empty"), [EFormData; EText], db)
          else if (50000 <? N.of_nat (length fileContent))%N then
            (json 400 (lit "File content too large. Please use a smaller file (max 50KB)."),
             [EFormData; EText], db)
          else
            match createIndex_fault w with
            | Some e => (caught w e, [EFormData; EText; ECreateCollection], db)
            | None =>
                let '(r, tr, db') := extract w fileContent db in
                (r, [EFormData; EText; ECreateCollection] ++ tr, db')
            end
    end.

(* ================================================================== *)
(** * Notions used by the statements *)
(* ================================================================== *)

(** What one line adds to [messages] in [parseChatManually]. *)
Definition parse_line (line : jstring) : option (Msg jstring) :=
  let trimmedLine := trim line in
  if is_empty trimmedLine then None
  else
    match exec re_format1 trimmedLine with
    | Some m => Some {| sender := trim (group m 2); timestamp := trim (group m 1);
                        message := trim (group m 3) |}
    | None =>
        match exec re_format2 trimmedLine with
        | Some m => Some {| sender := trim (group m 2); timestamp := trim (group m 1);
                            message := trim (group m 3) |}
        | None =>
            match exec re_format3 trimmedLine with
            | Some m => Some {| sender := trim (group m 1); timestamp := lit "Unknown";
                                message := trim (group m 2) |}
            | None => None
            end
        end
    end.

(** The value of a key on a line of the key/value recovery, if the line has
    the quoted key with a quoted value. *)
Definition key_value (key : string) (line : jstring) : option jstring :=
  option_map (fun m => group m 1) (exec (re_key key) (trim line)).

Definition default (d : jstring) (o : option jstring) : jstring :=
  match o with Some s => s | None => d end.

(** The record of a line of the key/value recovery: one as soon as one of
    the three keys is there, with defaults for the others. *)
Definition recover_line (line : jstring) : option (Msg jstring) :=
  match key_value "sender" line, key_value "timestamp" line, key_value "message" line with
  | None, None, None => None
  | s, t, m => Some {| sender := default (lit "Unknown") s;
                       timestamp := default (lit "Unknown") t;
                       message := default [] m |}
  end.

Definition to_list (A : Type) (o : option A) : list A :=
  match o with Some a => [a] | None => [] end.

(** The request passes the configuration checks. *)
Definition configured (w : World) : bool :=
  negb (unset (OPENAI_API_KEY w)) && negb (unset (MONGODB_URI w)).

(** The five validations of the upload. *)
Inductive Check :=
| FilePresent | ExtensionTxt | SizeWithinCeiling | ContentNonEmpty | ContentWithinCeiling.

Definition passes (c : Check) (file : option File) : bool :=
  match file with
  | None => match c with FilePresent => false | _ => true end
  | Some f =>
      match c with
      | FilePresent => true
      | ExtensionTxt => endsWith (name f) (lit ".txt")
      | SizeWithinCeiling => (size f <=? maxSize)%N
      | ContentNonEmpty => negb (is_empty (trim (text f)))
      | ContentWithinCeiling => (N.of_nat (length (text f)) <=? 50000)%N
      end
  end.

Definition error_of (c : Check) : jstring :=
  match c with
  | FilePresent => lit "No file uploaded"
  | ExtensionTxt => lit "Only .txt files are allowed"
  | SizeWithinCeiling => lit "File size too large. Maximum size is 4MB."
  | ContentNonEmpty => lit "File is empty"
  | ContentWithinCeiling => lit "File content too large. Please use a smaller file (max 50KB)."
  end.

(** The first validation of [order] the request fails. *)
Definition first_failure (order : list Check) (file : option File) : option Check :=
  find (fun c => negb (passes c file)) order.

(** The order the specification gives, and the order of the handler. *)
Definition order_of_spec : list Check :=
  [FilePresent; ExtensionTxt; SizeWithinCeiling; ContentNonEmpty; ContentWithinCeiling].

Definition order_of_code : list Check :=
  [FilePresent; SizeWithinCeiling; ExtensionTxt; ContentNonEmpty; ContentWithinCeiling].

(** The request reaches the model loop: configuration and validations pass
    and the collection is there. *)
Definition accepted (w : World) (file : File) : bool :=
  configured w && forallb (fun c => passes c (Some file)) order_of_code
  && match createIndex_fault w with None => true | Some _ => false end.

(** A call to the completion service gave a non-empty text. *)
Definition gives_text (o : Outcome) : bool :=
  match o with
  | Completed content => has_text content
  | Rejected _ => false
  end.

(** No candidate of the list gives a text for this content. *)
Definition no_text (w : World) (fileContent : jstring) (candidates : list jstring) : bool :=
  forallb (fun model => negb (gives_text (completions_create w model fileContent))) candidates.

(** The error of the last candidate that threw, [init] if none did. *)
Definition last_error (w : World) (fileContent : jstring) (candidates : list jstring)
    (init : option Thrown) : option Thrown :=
  fold_left
    (fun acc model =>
       match completions_create w model fileContent with
       | Rejected e => Some e
       | Completed _ => acc
       end)
    candidates init.

(** A JavaScript value other than [undefined]. *)
Definition defined (v : value) : bool :=
  match v with VUndefined => false | _ => true end.

(** A record with its three fields defined. *)
Definition msg_defined (m : Msg value) : bool :=
  defined (sender m) && defined (timestamp m) && defined (message m).

(** Each time is at most the next one. *)
Fixpoint non_decreasing (l : list Z) : bool :=
  match l with
  | a :: rest =>
      match rest with
      | b :: _ => (a <=? b)%Z && non_decreasing rest
      | [] => true
      end
  | [] => true
  end.

(** A document with its three fields defined. *)
Definition populated (d : Doc) : bool := msg_defined (fields d).

(** What one request may add: documents at the end of the collection, each
    with its fields defined and with the clock reading of its rank. *)
Definition appended (w : World) (db db' : Store) : Prop :=
  exists inserted,
    db' = db ++ inserted
    /\ forallb populated inserted = true
    /\ map created_at inserted = map (Date_now w) (seq 0 (length inserted)).

(** A text in bracket form: an opening bracket, a middle, a closing
    bracket. *)
Definition open_bracket : char := 91%N.
Definition close_bracket : char := 93%N.
Definition bracketed (mid : jstring) : jstring := open_bracket :: mid ++ [close_bracket].

(** A truthy value of type object: what the validation lets through. *)
Definition object_like (v : value) : bool := truthy v && typeof_object v.

(** The fully defaulted record. *)
Definition defaulted : Msg value :=
  {| sender := VStr (lit "Unknown"); timestamp := VStr (lit "Unknown"); message := VStr [] |}.

(** ** Inputs of the examples *)

(** A configured world with a working store, whose clock advances by one
    at each reading. *)
Definition world_with (oracle : jstring -> jstring -> Outcome) : World :=
  {| OPENAI_API_KEY := Some (lit "sk-test");
     MONGODB_URI := Some (lit "mongodb://localhost:27017");
     NODE_ENV := Some (lit "production");
     completions_create := oracle;
     JSON_parse := JSON.parse;
     createIndex_fault := None;
     insertMany_fault := fun _ => None;
     documents_written := fun _ => 0;
     Date_now := fun i => (1700000000000 + Z.of_nat i)%Z |}.

Definition AbortError : Thrown := JsError (lit "AbortError") (lit "Request was aborted.").
Definition RateLimit : Thrown := JsError (lit "Error") (lit "429 rate limit reached").

(** Every model times out. *)
Definition all_time_out : World := world_with (fun _ _ => Rejected AbortError).

(** Every model is rate limited. *)
Definition all_rate_limited : World := world_with (fun _ _ => Rejected RateLimit).

(** The same world without the model key. *)
Definition no_model_key : World :=
  {| OPENAI_API_KEY := None;
     MONGODB_URI := MONGODB_URI all_time_out;
     NODE_ENV := NODE_ENV all_time_out;
     completions_create := completions_create all_time_out;
     JSON_parse := JSON.parse;
     createIndex_fault := None;
     insertMany_fault := fun _ => None;
     documents_written := fun _ => 0;
     Date_now := Date_now all_time_out |}.

(** A text file with the given content, all ASCII: as many bytes as units. *)
Definition txt (content : string) : File :=
  {| name := lit "chat.txt"; size := N.of_nat (length (lit content)); text := lit content |}.

Definition alice_file : File := txt "Alice: Hello there".

Definition no_pattern_file : File := txt "nothing to parse here".

(** The first model answers with an array that holds one empty array. *)
Definition nested_array_world : World :=
  world_with (fun _ _ => Completed (Some (lit "[[]]"))).

(** The answer of the second model in the scenario of the key/value
    recovery: two lines, the second being a quoted sender and nothing else. *)
Definition garbage : jstring :=
  lit "Sure, here is what I found:" ++ [newline]
  ++ quoted (lit "sender") ++ lit ": " ++ quoted (lit "Bob").

(** The first model times out, the second answers [garbage], the third
    does whatever [third] says. *)
Definition scenario_world (third : Outcome) : World :=
  world_with (fun model _ =>
                if eqs model (lit "gpt-3.5-turbo") then Rejected AbortError
                else if eqs model (lit "gpt-4o-mini") then Completed (Some garbage)
                else third).

Definition bob : Msg value :=
  {| sender := VStr (lit "Bob"); timestamp := VStr (lit "Unknown"); message := VStr [] |}.

(** Every model is rate limited and the clock steps back by five
    milliseconds after its first reading. *)
Definition clock_steps_back : World :=
  {| OPENAI_API_KEY := OPENAI_API_KEY all_rate_limited;
     MONGODB_URI := MONGODB_URI all_rate_limited;
     NODE_ENV := NODE_ENV all_rate_limited;
     completions_create := completions_create all_rate_limited;
     JSON_parse := JSON.parse;
     createIndex_fault := None;
     insertMany_fault := fun _ => None;
     documents_written := fun _ => 0;
     Date_now := fun i => match i with
                          | O => 1700000000005%Z
                          | S _ => 1700000000000%Z
                          end |}.

(** A file of two lines of format 3. *)
Definition two_lines_file : File :=
  {| name := lit "chat.txt";
     size := 19;
     text := lit "Alice: one" ++ [newline] ++ lit "Bob: two" |}.

(** A PDF of five megabytes, all ASCII. *)
Definition big_pdf : File :=
  {| name := lit "chat.pdf";
     size := 5 * 1024 * 1024;
     text := repeat 97%N (N.to_nat (5 * 1024 * 1024)) |}.

(* ================================================================== *)
(** * Further notions *)
(* ================================================================== *)

(** The characters a node can consume. *)
Definition class_of (n : node) (c : char) : bool :=
  match n with
  | Cls _ _ p => p c
  | Bol | Eol => false
  end.

(** A character some node of the pattern can consume. *)
Definition may_match (r : regex) (c : char) : bool := existsb (fun n => class_of n c) r.

(** The number of groups of a pattern. *)
Fixpoint caps (r : regex) : nat :=
  match r with
  | [] => 0
  | Cls true _ _ :: r' => S (caps r')
  | _ :: r' => caps r'
  end.

Definition colon : char := 58%N.
Definition open_brace : char := 123%N.

(** A text that holds the bracket span around [mid]: no opening bracket
    before the span, no closing bracket after it. *)
Definition spans (mid t : jstring) : Prop :=
  exists pre post,
    t = pre ++ bracketed mid ++ post
    /\ ~ In open_bracket pre /\ ~ In close_bracket post.

(** ** The loop of the earlier variant of [POST]

    The variant of the handler without manual parsing (the second [POST] of
    the file) goes through the same candidates, but an error that is not an
    access error leaves the loop. *)

(** [error instanceof Error && error.message.includes('does not exist or
    you do not have access')] *)
Definition access_denied (e : Thrown) : bool :=
  match e with
  | JsError _ msg => includes msg (lit "does not exist or you do not have access")
  | NonError => false
  end.

Fixpoint attempt_loop_earlier (w : World) (fileContent : jstring) (candidates : list jstring)
    (responseText : option jstring) (lastError : option Thrown)
  : option jstring * option Thrown * list Event :=
  match candidates with
  | [] => (responseText, lastError, [])
  | model :: rest =>
      match completions_create w model fileContent with
      | Completed content =>
          if has_text content then (content, lastError, [EAttempt model])
          else
            let '(r, e, tr) := attempt_loop_earlier w fileContent rest content lastError in
            (r, e, EAttempt model :: tr)
      | Rejected error =>
          if access_denied error then
            let '(r, e, tr) :=
              attempt_loop_earlier w fileContent rest responseText (Some error) in
            (r, e, EAttempt model :: tr)
          else (responseText, Some error, [EAttempt model])
      end
  end.

(** A candidate that lets the earlier loop go on: an access error or a
    completion without text. *)
Definition passes_on (w : World) (fileContent : jstring) (model : jstring) : bool :=
  match completions_create w model fileContent with
  | Completed content => negb (has_text content)
  | Rejected e => access_denied e
  end.

(** What a failed insertion of a batch leaves in the collection: the
    documents the store had written when it rejected. *)
Definition left_behind (w : World) (db : Store) (messages : list (Msg value)) : list Doc :=
  firstn (documents_written w messages)
         (insertMany (fresh_id db) (stamp (Date_now w) 0 messages)).

(** An answer that fits what was done to the collection: a success carries
    status 200 and exactly the documents appended; an error carries status
    400 or 500 and the collection is as it was, unless the store rejected
    during the insertion of a batch: then the status is 500 and the
    collection holds what that insertion left behind. *)
Definition consistent (w : World) (db : Store) (outcome : Response * list Event * Store)
  : Prop :=
  let '(r, events, db') := outcome in
  match body r with
  | BSuccess _ data _ => status r = 200 /\ db' = db ++ data
  | BError _ _ =>
      (status r = 400 \/ status r = 500)
      /\ (db' = db
          \/ exists messages e,
               In (EInsert messages) events
               /\ insertMany_fault w messages = Some e
               /\ status r = 500
               /\ db' = db ++ left_behind w db messages)
  end.

(** The first model is refused access, the second is rate limited, the
    third would answer. *)
Definition access_then_rate_limit : World :=
  world_with (fun model _ =>
                if eqs model (lit "gpt-3.5-turbo") then
                  Rejected (JsError (lit "Error")
                              (lit "The model does not exist or you do not have access to it."))
                else if eqs model (lit "gpt-4o-mini") then Rejected RateLimit
                else Completed (Some (lit "[]"))).

(** The store refuses every insertion, before anything is written. *)
Definition StoreDown : Thrown := JsError (lit "MongoServerError") (lit "connection closed").

Definition store_refuses (oracle : jstring -> jstring -> Outcome) : World :=
  {| OPENAI_API_KEY := Some (lit "sk-test");
     MONGODB_URI := Some (lit "mongodb://localhost:27017");
     NODE_ENV := Some (lit "production");
     completions_create := oracle;
     JSON_parse := JSON.parse;
     createIndex_fault := None;
     insertMany_fault := fun _ => Some StoreDown;
     documents_written := fun _ => 0;
     Date_now := fun i => (1700000000000 + Z.of_nat i)%Z |}.

(** The store writes every batch and then fails to read it back. *)
Definition read_back_fails (oracle : jstring -> jstring -> Outcome) : World :=
  {| OPENAI_API_KEY := Some (lit "sk-test");
     MONGODB_URI := Some (lit "mongodb://localhost:27017");
     NODE_ENV := Some (lit "production");
     completions_create := oracle;
     JSON_parse := JSON.parse;
     createIndex_fault := None;
     insertMany_fault := fun _ => Some StoreDown;
     documents_written := fun messages => length messages;
     Date_now := fun i => (1700000000000 + Z.of_nat i)%Z |}.

(** ** The read side: [getAllChatMessages], [getChatMessagesBySender] of
    [src/lib/db.ts] and [GET] of [src/app/api/messages/route.ts] *)

(** Each time is at least the next one. *)
Fixpoint non_increasing (l : list Z) : bool :=
  match l with
  | a :: rest =>
      match rest with
      | b :: _ => (b <=? a)%Z && non_increasing rest
      | [] => true
      end
  | [] => true
  end.

(** What [.sort({ created_at: -1 })] of the store does to the documents
    found: it gives them all back, newest first.  The order of documents
    with the same time is the store's choice, so the sort is a parameter
    of the reads. *)
Definition orders (sort : list Doc -> list Doc) : Prop :=
  forall l, Permutation (sort l) l /\ non_increasing (map created_at (sort l)) = true.

(** The filter [{ sender }] of the store: the field is that string, or an
    array with that string among its elements. *)
Definition is_string (s : jstring) (v : value) : bool :=
  match v with
  | VStr s' => eqs s s'
  | _ => false
  end.

Definition sender_is (s : jstring) (d : Doc) : bool :=
  match sender (fields d) with
  | VArr elems => existsb (is_string s) elems
  | v => is_string s v
  end.

(** [getAllChatMessages]; [fault] is what the driver throws, if it does. *)
Definition getAllChatMessages (sort : list Doc -> list Doc) (fault : option Thrown)
    (db : Store) : Thrown + list Doc :=
  match fault with
  | Some e => inl e
  | None => inr (sort db)
  end.

(** [getChatMessagesBySender] *)
Definition getChatMessagesBySender (sort : list Doc -> list Doc) (fault : option Thrown)
    (db : Store) (s : jstring) : Thrown + list Doc :=
  match fault with
  | Some e => inl e
  | None => inr (sort (filter (sender_is s) db))
  end.

(** The JSON body of the answer of [GET]: [{error, details}] or
    [{success: true, data, count}]. *)
Inductive ReadBody :=
| RError (error : jstring) (details : option Thrown)
| RSuccess (data : list Doc) (count : nat).

Record ReadResponse := { read_status : nat; read_body : ReadBody }.

(** [GET], the variant that checks the connection string and the sender
    parameter (the second [GET] of the file), from the query parameter
    [sender] ([searchParams.get('sender')]) and the collection. *)
Definition GET (w : World) (sort : list Doc -> list Doc) (fault : option Thrown)
    (sender : option jstring) (db : Store) : ReadResponse :=
  let reply (messages : Thrown + list Doc) :=
    match messages with
    | inr messages =>
        {| read_status := 200; read_body := RSuccess messages (length messages) |}
    | inl error =>
        {| read_status := 500;
           read_body := RError
                          (match error with
                           | JsError _ msg => msg
                           | NonError => lit "Internal server error"
                           end)
                          (match NODE_ENV w with
                           | Some env => if eqs env (lit "development") then Some error else None
                           | None => None
                           end) |}
    end in
  if unset (MONGODB_URI w) then
    {| read_status := 500;
       read_body := RError (lit "Database connection not configured") None |}
  else
    match sender with
    | Some ((_ :: _) as sender) =>
        if 100 <? length sender then
          {| read_status := 400; read_body := RError (lit "Invalid sender parameter") None |}
        else reply (getChatMessagesBySender sort fault db sender)
    | _ => reply (getAllChatMessages sort fault db)
    end.

(** A sort for the examples: insertion, newest first, a document going
    before the ones that are not newer. *)
Fixpoint insert_newest (d : Doc) (l : list Doc) : list Doc :=
  match l with
  | [] => [d]
  | x :: rest =>
      if (created_at x <=? created_at d)%Z then d :: l else x :: insert_newest d rest
  end.

Definition sort_newest (l : list Doc) : list Doc := fold_right insert_newest [] l.

(** ** The connection, [connectToDatabase] and [closeDatabaseConnection]
    of [src/lib/db.ts] *)

(** A [MongoClient]: the connection string it was made with, and whether
    [close] was called on it. *)
Record MongoClient := { client_uri : jstring; closed : bool }.

(** The two variables of the module, [client] and [db] (the name of the
    database of the handle), undefined at first. *)
Record Connection := { client : option MongoClient; db_name : option jstring }.

Definition not_connected : Connection := {| client := None; db_name := None |}.

(** How making and connecting a client goes: it works, or
    [new MongoClient(uri)] throws, or [client.connect()] throws. *)
Inductive Connecting :=
| Connects
| ConstructorThrows (e : Thrown)
| ConnectThrows (e : Thrown).

(** [connectToDatabase], from the two environment variables, how the
    connection goes, and the variables of the module, to the handles or
    the error, the variables afterwards and the number of calls of
    [client.connect()]. *)
Definition connectToDatabase (uri database : option jstring) (outcome : Connecting)
    (vars : Connection) : (Thrown + MongoClient * jstring) * Connection * nat :=
  match client vars, db_name vars with
  | Some c, Some d => (inr (c, d), vars, 0)
  | _, _ =>
      match uri with
      | Some ((_ :: _) as uri) =>
          let c := {| client_uri := uri; closed := false |} in
          match outcome with
          | ConstructorThrows e => (inl e, vars, 0)
          | ConnectThrows e => (inl e, {| client := Some c; db_name := db_name vars |}, 1)
          | Connects =>
              let d := match database with
                       | Some ((_ :: _) as name) => name
                       | _ => lit "chat_parser"
                       end in
              (inr (c, d), {| client := Some c; db_name := Some d |}, 1)
          end
      | _ => (inl (Error (lit "MONGODB_URI environment variable is not set")), vars, 0)
      end
  end.

(** [closeDatabaseConnection]: the client is closed; the variables keep
    pointing to it. *)
Definition closeDatabaseConnection (vars : Connection) : Connection :=
  match client vars with
  | Some c => {| client := Some {| client_uri := client_uri c; closed := true |};
                 db_name := db_name vars |}
  | None => vars
  end.

(** ** The sender filter of the message list, [ChatMessages] *)

(** [Array.from(new Set(values))]: the values in the order of their first
    occurrence. *)
Fixpoint set_values (seen : list jstring) (values : list jstring) : list jstring :=
  match values with
  | [] => rev seen
  | v :: rest =>
      if existsb (eqs v) seen then set_values seen rest else set_values (v :: seen) rest
  end.

(** [uniqueSenders] *)
Definition uniqueSenders (messages : list (Msg jstring)) : list jstring :=
  filter (fun sender => negb (eqs sender (lit "Unknown")))
         (set_values [] (map (@sender jstring) messages)).

(** The messages shown, [filteredMessages] after the effect: the search
    filter, the sender filter, the sort.  [lower] is [toLowerCase]; the
    sort gets the key chosen ([newest], [oldest] or [sender]) and is a
    parameter, its comparators reading dates and the locale. *)
Definition filteredMessages (lower : jstring -> jstring)
    (sort : jstring -> list (Msg jstring) -> list (Msg jstring))
    (messages : list (Msg jstring)) (searchTerm selectedSender sortBy : jstring)
  : list (Msg jstring) :=
  let filtered := messages in
  let filtered :=
    if negb (is_empty searchTerm) then
      filter (fun msg => includes (lower (message msg)) (lower searchTerm)
                         || includes (lower (sender msg)) (lower searchTerm))
             filtered
    else filtered in
  let filtered :=
    if negb (is_empty selectedSender) then
      filter (fun msg => eqs (sender msg) selectedSender) filtered
    else filtered in
  sort sortBy filtered.

(** Three messages for the examples, one of an unknown sender. *)
Definition three_messages : list (Msg jstring) :=
  [{| sender := lit "Alice"; timestamp := lit "10:00"; message := lit "hi" |};
   {| sender := lit "Unknown"; timestamp := lit "Unknown"; message := lit "who is this" |};
   {| sender := lit "Alice"; timestamp := lit "10:02"; message := lit "bye" |}].

Definition close_brace : char := 125%N.

(** A text that holds [mid] between the delimiters [o] and [c], after
    characters of [pre] and before characters of [post]. *)
Definition within (o c : char) (mid pre post t : jstring) : Prop :=
  exists pre' post',
    t = pre' ++ o :: mid ++ c :: post' /\ incl pre' pre /\ incl post' post.


(* ================================================================== *)
(** * The model loop *)
(* ================================================================== *)

Section Loop.

Variable w : World.
Variable fileContent : jstring.

Lemma last_error_cons model rest init :
  last_error w fileContent (model :: rest) init =
  last_error w fileContent rest
    (match completions_create w model fileContent with
     | Rejected e => Some e
     | Completed _ => init
     end).
Proof. reflexivity. Qed.

(** When no candidate gives a text, every candidate is attempted, the loop
    ends without a text and with the error of the last one that threw. *)
Lemma attempt_loop_no_text candidates :
  forall responseText lastError,
    no_text w fileContent candidates = true ->
    has_text responseText = false ->
    exists responseText',
      attempt_loop w fileContent candidates responseText lastError =
      (responseText', last_error w fileContent candidates lastError,
       map EAttempt candidates)
      /\ has_text responseText' = false.
Proof.
  induction candidates as [|model rest IH]; intros rt le Hno Hrt.
  - exists rt. split; [reflexivity | assumption].
  - simpl in Hno. apply andb_true_iff in Hno as [Hm Hrest].
    rewrite last_error_cons. simpl.
    destruct (completions_create w model fileContent) as [content|e]; simpl in Hm.
    + apply negb_true_iff in Hm. rewrite Hm.
      destruct (IH content le Hrest Hm) as (rt' & Heq & H).
      rewrite Heq. exists rt'. split; [reflexivity | assumption].
    + destruct (IH rt (Some e) Hrest Hrt) as (rt' & Heq & H).
      rewrite Heq. exists rt'. split; [reflexivity | assumption].
Qed.

(** The loop stops at the first candidate that gives a text: the candidates
    after it are not attempted. *)
Lemma attempt_loop_first_text before :
  forall model after t responseText lastError,
    no_text w fileContent before = true ->
    completions_create w model fileContent = Completed (Some t) ->
    t <> [] ->
    attempt_loop w fileContent (before ++ model :: after) responseText lastError =
    (Some t, last_error w fileContent before lastError, map EAttempt (before ++ [model])).
Proof.
  induction before as [|b rest IH]; intros model after t rt le Hno Hm Ht.
  - simpl. rewrite Hm. destruct t as [|c t']; [congruence | reflexivity].
  - simpl in Hno. apply andb_true_iff in Hno as [Hb Hrest].
    rewrite last_error_cons. simpl.
    destruct (completions_create w b fileContent) as [content|e]; simpl in Hb.
    + apply negb_true_iff in Hb. rewrite Hb.
      rewrite (IH model after t content le Hrest Hm Ht). reflexivity.
    + rewrite (IH model after t rt (Some e) Hrest Hm Ht). reflexivity.
Qed.

End Loop.

(* ================================================================== *)
(** * The store *)
(* ================================================================== *)

Lemma filter_none (A : Type) (f : A -> bool) (l : list A) :
  (forall x, In x l -> f x = false) -> filter f l = [].
Proof.
  induction l as [|a l IH]; intros H; simpl; [reflexivity|].
  rewrite (H a (or_introl eq_refl)). apply IH. intros x Hx. apply H. now right.
Qed.

Lemma filter_all (A : Type) (f : A -> bool) (l : list A) :
  (forall x, In x l -> f x = true) -> filter f l = l.
Proof.
  induction l as [|a l IH]; intros H; simpl; [reflexivity|].
  rewrite (H a (or_introl eq_refl)). f_equal. apply IH. intros x Hx. apply H. now right.
Qed.

Lemma insertMany_ids batch : forall next,
  map _id (insertMany next batch) = seq next (length batch).
Proof.
  induction batch as [|[msg t] rest IH]; intros next; simpl; [reflexivity|].
  now rewrite IH.
Qed.

Lemma insertMany_fields now messages : forall next i,
  map fields (insertMany next (stamp now i messages)) = messages.
Proof.
  induction messages as [|msg rest IH]; intros next i; simpl; [reflexivity|].
  now rewrite IH.
Qed.

Lemma insertMany_created_at now messages : forall next i,
  map created_at (insertMany next (stamp now i messages)) = map now (seq i (length messages)).
Proof.
  induction messages as [|msg rest IH]; intros next i; simpl; [reflexivity|].
  now rewrite IH.
Qed.

Lemma stamp_length now messages : forall i, length (stamp now i messages) = length messages.
Proof.
  induction messages as [|msg rest IH]; intros i; simpl; [reflexivity|].
  now rewrite IH.
Qed.

Lemma insertMany_length batch : forall next, length (insertMany next batch) = length batch.
Proof.
  induction batch as [|[msg t] rest IH]; intros next; simpl; [reflexivity|].
  now rewrite IH.
Qed.

Lemma fresh_id_above db d : In d db -> _id d < fresh_id db.
Proof.
  intros H. unfold fresh_id.
  assert (Hle : _id d <= list_max (map _id db)).
  { pose proof (proj1 (list_max_le (map _id db) (list_max (map _id db))) (le_n _)) as Hall.
    rewrite Forall_forall in Hall. apply Hall. now apply in_map. }
  lia.
Qed.

(** Reading back the ids just inserted gives the inserted documents, in
    the order of the batch. *)
Lemma find_in_inserted db batch :
  let inserted := insertMany (fresh_id db) batch in
  find_in (db ++ inserted) (map _id inserted) = inserted.
Proof.
  intros inserted. unfold find_in. rewrite filter_app.
  rewrite filter_none, filter_all; [reflexivity| |].
  - intros d Hd. apply existsb_exists. exists (_id d). split.
    + now apply in_map.
    + apply Nat.eqb_refl.
  - intros d Hd. destruct (existsb _ _) eqn:E; [|reflexivity].
    apply existsb_exists in E as (i & Hi & Heq). apply Nat.eqb_eq in Heq. subst i.
    unfold inserted in Hi. rewrite insertMany_ids in Hi. apply in_seq in Hi.
    pose proof (fresh_id_above db d Hd). lia.
Qed.

(** An insertion the driver accepts appends the stamped batch and returns
    it. *)
Lemma insertChatMessages_ok w db messages :
  insertMany_fault w messages = None ->
  insertChatMessages w db messages =
  (inr (insertMany (fresh_id db) (stamp (Date_now w) 0 messages)),
   db ++ insertMany (fresh_id db) (stamp (Date_now w) 0 messages)).
Proof.
  intros H. unfold insertChatMessages. rewrite H.
  now rewrite find_in_inserted.
Qed.

Lemma insertChatMessages_fault w db messages e :
  insertMany_fault w messages = Some e ->
  insertChatMessages w db messages =
  (inl e, db ++ firstn (documents_written w messages)
                  (insertMany (fresh_id db) (stamp (Date_now w) 0 messages))).
Proof. intros H. unfold insertChatMessages. now rewrite H. Qed.

(* ================================================================== *)
(** * The handler, stage by stage *)
(* ================================================================== *)

(** An accepted request runs the extraction on the text of the file. *)
Lemma POST_accepted w file db :
  accepted w file = true ->
  POST w (Some file) db =
  (let '(r, tr, db') := extract w (text file) db in
   (r, [EFormData; EText; ECreateCollection] ++ tr, db')).
Proof.
  unfold accepted, configured. cbn [forallb order_of_code passes].
  intros H.
  apply andb_true_iff in H as [H Hcreate].
  apply andb_true_iff in H as [Hconf H].
  apply andb_true_iff in Hconf as [Hkey Huri].
  apply andb_true_iff in H as [_ H].
  apply andb_true_iff in H as [Hsize H].
  apply andb_true_iff in H as [Hext H].
  apply andb_true_iff in H as [Hne H].
  apply andb_true_iff in H as [Hlen _].
  apply negb_true_iff in Hkey, Huri, Hne.
  apply N.leb_le, N.ltb_ge in Hsize. apply N.leb_le, N.ltb_ge in Hlen.
  unfold POST. rewrite Hkey, Huri, Hsize, Hext, Hne, Hlen. cbn [negb].
  destruct (createIndex_fault w); [discriminate | reflexivity].
Qed.

(** Without a text from any model, all models are attempted and the manual
    parser path is taken. *)
Lemma extract_no_text w fileContent db :
  no_text w fileContent models = true ->
  extract w fileContent db =
  (let '(r, tr, db') :=
     without_text w fileContent (last_error w fileContent models None) db in
   (r, map EAttempt models ++ tr, db')).
Proof.
  intros Hno. unfold extract.
  destruct (attempt_loop_no_text w fileContent models None None Hno eq_refl)
    as (rt & Heq & Hrt).
  rewrite Heq.
  destruct rt as [[|c t]|]; [reflexivity | discriminate | reflexivity].
Qed.

(** With a text from the first model that has one, the models after it are
    not attempted and the parse path is taken on that text. *)
Lemma extract_text w fileContent db before model after t :
  models = before ++ model :: after ->
  no_text w fileContent before = true ->
  completions_create w model fileContent = Completed (Some t) ->
  t <> [] ->
  extract w fileContent db =
  (let '(r, tr, db') := with_text w t db in
   (r, map EAttempt (before ++ [model]) ++ tr, db')).
Proof.
  intros Hm Hno Hc Ht. unfold extract. rewrite Hm.
  rewrite (attempt_loop_first_text w fileContent before model after None None Hno Hc Ht).
  destruct t as [|c t']; [congruence | reflexivity].
Qed.

(** C1, as the code has it: when no model candidate returns a text and
    the manual line parser finds at least one record in the raw file text,
    the request goes from the model attempts to the manual parser and
    hands exactly the parser's records, in the parser's order, to the
    store, without running the sanitization, [JSON.parse] or key/value
    recovery stages.  If the store accepts them, the endpoint answers 200
    with [fallback: true] and those records as stored.  If the store
    rejects, its error is swallowed and the request fails as when all
    models failed. *)
Theorem C1_manual_fallback_returned w file db :
  accepted w file = true ->
  no_text w (text file) models = true ->
  parseChatManually (text file) <> [] ->
  let records := map (msg_map VStr) (parseChatManually (text file)) in
  let events := snd (fst (POST w (Some file) db)) in
  events = [EFormData; EText; ECreateCollection] ++ map EAttempt models
           ++ [EFallbackParsing; EInsert records]
  /\ ~ In ERawResponse events
  /\ ~ In EFallbackJSON events
  /\ (insertMany_fault w records = None ->
      exists data,
        POST w (Some file) db =
        ({| status := 200;
            body := BSuccess (lit "Successfully processed " ++ toString (length records)
                              ++ lit " messages using fallback parsing")
                             data true |},
         events, db ++ data)
        /\ map fields data = records)
  /\ (forall e,
        insertMany_fault w records = Some e ->
        fst (fst (POST w (Some file) db)) =
        caught w (all_failed (last_error w (text file) models None))).
Proof.
  intros Hacc Hno Hsome records events.
  assert (Hlen : (0 <? length records) = true).
  { apply Nat.ltb_lt. unfold records. rewrite length_map.
    destruct (parseChatManually (text file)); [congruence | simpl; lia]. }
  assert (Hpost : POST w (Some file) db =
    (let '(r, tr, db') :=
       match insertChatMessages w db records with
       | (inr insertedMessages, db') =>
           ({| status := 200;
               body := BSuccess (lit "Successfully processed "
                                 ++ toString (length insertedMessages)
                                 ++ lit " messages using fallback parsing")
                                insertedMessages true |},
            [EFallbackParsing; EInsert records], db')
       | (inl _, db') =>
           (caught w (all_failed (last_error w (text file) models None)),
            [EFallbackParsing; EInsert records], db')
       end in
     (r, [EFormData; EText; ECreateCollection] ++ map EAttempt models ++ tr, db'))).
  { rewrite (POST_accepted w file db Hacc), (extract_no_text w (text file) db Hno).
    unfold without_text. fold records. rewrite Hlen.
    destruct (insertChatMessages w db records) as [[e|docs] db']; reflexivity. }
  assert (Hevents : events = [EFormData; EText; ECreateCollection] ++ map EAttempt models
                             ++ [EFallbackParsing; EInsert records]).
  { unfold events. rewrite Hpost.
    destruct (insertChatMessages w db records) as [[e|docs] db']; reflexivity. }
  split; [exact Hevents|].
  split; [|split; [|split]].
  - rewrite Hevents. intros Hin. simpl in Hin.
    repeat (destruct Hin as [Hin|Hin]; [discriminate|]). exact Hin.
  - rewrite Hevents. intros Hin. simpl in Hin.
    repeat (destruct Hin as [Hin|Hin]; [discriminate|]). exact Hin.
  - intros Hins.
    exists (insertMany (fresh_id db) (stamp (Date_now w) 0 records)).
    split; [|apply insertMany_fields].
    rewrite Hevents, Hpost, (insertChatMessages_ok w db records Hins).
    now rewrite insertMany_length, stamp_length.
  - intros e Hins.
    rewrite Hpost, (insertChatMessages_fault w db records Hins). reflexivity.
Qed.

Lemma C1_witness :
  accepted all_time_out alice_file = true
  /\ no_text all_time_out (text alice_file) models = true
  /\ parseChatManually (text alice_file) <> []
  /\ exists data,
       POST all_time_out (Some alice_file) [] =
       ({| status := 200;
           body := BSuccess (lit "Successfully processed 1 messages using fallback parsing")
                            data true |},
        [EFormData; EText; ECreateCollection] ++ map EAttempt models
        ++ [EFallbackParsing;
            EInsert [{| sender := VStr (lit "Alice"); timestamp := VStr (lit "Unknown");
                        message := VStr (lit "Hello there") |}]],
        data)
       /\ map fields data =
          [{| sender := VStr (lit "Alice"); timestamp := VStr (lit "Unknown");
              message := VStr (lit "Hello there") |}].
Proof.
  assert (Hne : parseChatManually (text alice_file) <> []) by (vm_compute; discriminate).
  split; [reflexivity|]. split; [reflexivity|]. split; [exact Hne|].
  destruct (C1_manual_fallback_returned all_time_out alice_file [] eq_refl eq_refl Hne)
    as (Hevents & _ & _ & Hok & _).
  destruct (Hok eq_refl) as (data & Hpost & Hfields).
  exists data. split.
  - rewrite Hpost, Hevents. reflexivity.
  - exact Hfields.
Defined.

(** C1, as stated without a condition on the store, fails: every model is
    rate limited, the manual parser finds a record in the file, the store
    rejects the insertion, and the answer is not a success with
    [fallback: true] but the error 500 that all models failed. *)
Lemma C1_counterexample :
  accepted (store_refuses (fun _ _ => Rejected RateLimit)) alice_file = true
  /\ no_text (store_refuses (fun _ _ => Rejected RateLimit)) (text alice_file) models = true
  /\ parseChatManually (text alice_file) =
     [{| sender := lit "Alice"; timestamp := lit "Unknown"; message := lit "Hello there" |}]
  /\ fst (fst (POST (store_refuses (fun _ _ => Rejected RateLimit)) (Some alice_file) [])) =
     {| status := 500;
        body := BError (lit "All models failed. Last error: 429 rate limit reached") None |}
  /\ snd (POST (store_refuses (fun _ _ => Rejected RateLimit)) (Some alice_file) []) = [].
Proof. repeat split; vm_compute; reflexivity. Qed.

Lemma eqs_eq a : forall b, eqs a b = true <-> a = b.
Proof.
  induction a as [|x a IH]; intros [|y b]; simpl; split; intros H;
    try reflexivity; try discriminate.
  - apply andb_true_iff in H as [Hxy Hab]. apply N.eqb_eq in Hxy. apply IH in Hab.
    now subst.
  - injection H as -> ->. rewrite N.eqb_refl. simpl. now apply IH.
Qed.

(** C2: when no model candidate returns a text and the manual line parser
    finds no record, the request fails with status 500; the error is the
    timeout message when the last error of the model attempts is an
    [AbortError], and otherwise the message that all models failed,
    followed by the message of that last error (by [Unknown error] when no
    attempt threw an [Error]).  Nothing is inserted. *)
Theorem C2_all_models_failed w file db :
  accepted w file = true ->
  no_text w (text file) models = true ->
  parseChatManually (text file) = [] ->
  let lastError := last_error w (text file) models None in
  exists msg details,
    POST w (Some file) db =
    ({| status := 500; body := BError msg details |},
     [EFormData; EText; ECreateCollection] ++ map EAttempt models ++ [EFallbackParsing],
     db)
    /\ (forall m, lastError = Some (JsError (lit "AbortError") m) ->
        msg = lit "Request timeout - file processing took too long. Please try with a smaller file.")
    /\ (forall name m, lastError = Some (JsError name m) -> name <> lit "AbortError" ->
        msg = lit "All models failed. Last error: " ++ m)
    /\ (lastError = None \/ lastError = Some NonError ->
        msg = lit "All models failed. Last error: Unknown error").
Proof.
  intros Hacc Hno Hnone lastError.
  assert (Hpost : POST w (Some file) db =
    (caught w (all_failed lastError),
     [EFormData; EText; ECreateCollection] ++ map EAttempt models ++ [EFallbackParsing],
     db)).
  { rewrite (POST_accepted w file db Hacc), (extract_no_text w (text file) db Hno).
    unfold without_text. rewrite Hnone. reflexivity. }
  assert (Hshape : forall e, exists msg,
             all_failed e = Error msg
             /\ (forall m, e = Some (JsError (lit "AbortError") m) ->
                 msg = lit "Request timeout - file processing took too long. Please try with a smaller file.")
             /\ (forall name m, e = Some (JsError name m) -> name <> lit "AbortError" ->
                 msg = lit "All models failed. Last error: " ++ m)
             /\ (e = None \/ e = Some NonError ->
                 msg = lit "All models failed. Last error: Unknown error")).
  { intros [[name m|]|]; simpl.
    - destruct (eqs name (lit "AbortError")) eqn:E.
      + eexists. split; [reflexivity|]. apply eqs_eq in E.
        repeat split; intros; try congruence.
        destruct H; discriminate.
      + eexists. split; [reflexivity|].
        repeat split; intros.
        * injection H as -> ->. rewrite (proj2 (eqs_eq _ _) eq_refl) in E. discriminate.
        * now injection H as -> ->.
        * destruct H; discriminate.
    - eexists. split; [reflexivity|]. repeat split; intros; try discriminate; reflexivity.
    - eexists. split; [reflexivity|]. repeat split; intros; try discriminate; reflexivity. }
  destruct (Hshape lastError) as (msg & Hall & Habort & Hother & Hunknown).
  exists msg. eexists. split; [|repeat split; assumption].
  rewrite Hpost. unfold caught. rewrite Hall. reflexivity.
Qed.

Lemma C2_witness :
  accepted all_rate_limited no_pattern_file = true
  /\ no_text all_rate_limited (text no_pattern_file) models = true
  /\ parseChatManually (text no_pattern_file) = []
  /\ exists details,
       POST all_rate_limited (Some no_pattern_file) [] =
       ({| status := 500;
           body := BError (lit "All models failed. Last error: 429 rate limit reached") details |},
        [EFormData; EText; ECreateCollection] ++ map EAttempt models ++ [EFallbackParsing],
        []).
Proof.
  split; [reflexivity|]. split; [reflexivity|]. split; [reflexivity|].
  destruct (C2_all_models_failed all_rate_limited no_pattern_file [] eq_refl eq_refl eq_refl)
    as (msg & details & Hpost & _ & Hother & _).
  exists details. rewrite Hpost.
  rewrite (Hother (lit "Error") (lit "429 rate limit reached") eq_refl); [reflexivity|].
  discriminate.
Defined.

(** C8: a request made while the model key or the store connection string
    is not configured is answered 500 with an error body before anything
    else happens: the form is not read, nothing is parsed, no model is
    called and the store is untouched.  Uploading the line
    [Alice: Hello there] without a model key gets the configuration error,
    although the manual parser would find a record in it. *)
Theorem C8_configuration_first w file db :
  (unset (OPENAI_API_KEY w) = true ->
   POST w file db =
   ({| status := 500; body := BError (lit "OpenAI API key not configured") None |}, [], db))
  /\ (unset (OPENAI_API_KEY w) = false -> unset (MONGODB_URI w) = true ->
      POST w file db =
      ({| status := 500; body := BError (lit "Database connection not configured") None |},
       [], db))
  /\ POST no_model_key (Some alice_file) [] =
     ({| status := 500; body := BError (lit "OpenAI API key not configured") None |}, [], [])
  /\ parseChatManually (text alice_file) =
     [{| sender := lit "Alice"; timestamp := lit "Unknown"; message := lit "Hello there" |}].
Proof.
  split; [|split; [|split]].
  - intros H. unfold POST. now rewrite H.
  - intros Hk Hu. unfold POST. now rewrite Hk, Hu.
  - reflexivity.
  - vm_compute. reflexivity.
Qed.

Lemma C8_witness :
  unset (OPENAI_API_KEY no_model_key) = true
  /\ POST no_model_key (Some alice_file) [] =
     ({| status := 500; body := BError (lit "OpenAI API key not configured") None |}, [], []).
Proof.
  split; [reflexivity|].
  exact (proj1 (C8_configuration_first no_model_key (Some alice_file) []) eq_refl).
Defined.

(** C7, as the handler has it: the validations run in the order file
    present, size within the byte ceiling, extension [.txt], content not
    empty after trimming, content within the character ceiling; the first
    one that fails answers 400 with its error body, and the store is
    untouched. *)
Theorem C7_validation_order w file db c :
  configured w = true ->
  first_failure order_of_code file = Some c ->
  exists events,
    POST w file db = ({| status := 400; body := BError (error_of c) None |}, events, db)
    /\ incl events [EFormData; EText].
Proof.
  unfold configured. intros Hconf Hfirst.
  apply andb_true_iff in Hconf as [Hkey Huri]. apply negb_true_iff in Hkey, Huri.
  unfold POST. rewrite Hkey, Huri.
  unfold first_failure, order_of_code in Hfirst.
  destruct file as [f|]; cbn [find passes negb] in Hfirst.
  - destruct (size f <=? maxSize)%N eqn:Hsize; cbn [negb] in Hfirst.
    + apply N.leb_le, N.ltb_ge in Hsize. rewrite Hsize.
      destruct (endsWith (name f) (lit ".txt")) eqn:Hext; cbn [negb] in Hfirst.
      * destruct (is_empty (trim (text f))) eqn:Hne; cbn [negb] in Hfirst.
        -- injection Hfirst as <-. eexists. split; [reflexivity|].
           intros e He. exact He.
        -- destruct (N.of_nat (length (text f)) <=? 50000)%N eqn:Hlen; cbn [negb] in Hfirst;
             [discriminate|].
           injection Hfirst as <-.
           apply N.leb_gt, N.ltb_lt in Hlen. cbn [negb]. rewrite Hlen.
           eexists. split; [reflexivity|]. intros e He. exact He.
      * injection Hfirst as <-. cbn [negb].
        eexists. split; [reflexivity|]. intros e [<-|[]]. now left.
    + injection Hfirst as <-. apply N.leb_gt, N.ltb_lt in Hsize. rewrite Hsize.
      eexists. split; [reflexivity|]. intros e [<-|[]]. now left.
  - injection Hfirst as <-.
    eexists. split; [reflexivity|]. intros e [<-|[]]. now left.
Qed.

Lemma C7_witness :
  configured all_time_out = true
  /\ first_failure order_of_code (Some big_pdf) = Some SizeWithinCeiling
  /\ fst (fst (POST all_time_out (Some big_pdf) [])) =
     {| status := 400; body := BError (lit "File size too large. Maximum size is 4MB.") None |}.
Proof.
  split; [reflexivity|]. split; [reflexivity|].
  destruct (C7_validation_order all_time_out (Some big_pdf) [] (c := SizeWithinCeiling)
              eq_refl eq_refl) as (events & Hpost & _).
  rewrite Hpost. reflexivity.
Defined.

(** C7, as the specification orders the validations (extension before
    size), fails: a PDF of five megabytes fails the extension check, the
    first one it fails in that order, yet the answer is not the error of
    the extension check but the error of the size check. *)
Lemma C7_counterexample :
  configured all_time_out = true
  /\ first_failure order_of_spec (Some big_pdf) = Some ExtensionTxt
  /\ fst (fst (POST all_time_out (Some big_pdf) [])) <>
     {| status := 400; body := BError (error_of ExtensionTxt) None |}
  /\ fst (fst (POST all_time_out (Some big_pdf) [])) =
     {| status := 400; body := BError (error_of SizeWithinCeiling) None |}.
Proof.
  split; [reflexivity|]. split; [reflexivity|].
  assert (H : fst (fst (POST all_time_out (Some big_pdf) [])) =
              {| status := 400; body := BError (error_of SizeWithinCeiling) None |})
    by reflexivity.
  split; [|exact H].
  rewrite H. intros Heq. injection Heq as Heq. discriminate Heq.
Qed.

(* ================================================================== *)
(** * Validation and normalization *)
(* ================================================================== *)

(** The guard of the validation rejects exactly [null] and what is not of
    type object. *)
Lemma object_like_false msg :
  object_like msg = false <-> msg = VNull \/ typeof_object msg = false.
Proof.
  unfold object_like. split.
  - destruct msg; simpl; intros H; auto; discriminate.
  - intros [->|H]; [reflexivity|]. rewrite H. apply andb_false_r.
Qed.

Lemma guard_object_like msg :
  negb (truthy msg) || negb (typeof_object msg) = negb (object_like msg).
Proof. unfold object_like. now rewrite negb_andb. Qed.

Lemma validate_from_ok elems : forall index,
  forallb object_like elems = true ->
  validate_from index elems = inr (map normalize elems).
Proof.
  induction elems as [|msg rest IH]; intros index H; simpl; [reflexivity|].
  simpl in H. apply andb_true_iff in H as [Hmsg Hrest].
  rewrite guard_object_like, Hmsg. simpl. now rewrite IH.
Qed.

Lemma validate_from_bad before : forall index msg after,
  forallb object_like before = true ->
  object_like msg = false ->
  validate_from index (before ++ msg :: after) =
  inl (Error (lit "Invalid message at index " ++ toString (index + length before))).
Proof.
  induction before as [|b rest IH]; intros index msg after Hb Hmsg; simpl.
  - rewrite guard_object_like, Hmsg. simpl. now rewrite Nat.add_0_r.
  - simpl in Hb. apply andb_true_iff in Hb as [Hb Hrest].
    rewrite guard_object_like, Hb. simpl.
    rewrite (IH (S index) msg after Hrest Hmsg).
    now rewrite Nat.add_succ_comm.
Qed.

(** The decimal rendering of a number starts with a digit. *)
Lemma toString_head i :
  exists d rest, toString i = d :: rest /\ (48 <= d <= 57)%N.
Proof.
  unfold toString, NilZero.string_of_uint.
  destruct (Nat.to_uint i); simpl; eexists; eexists;
    (split; [reflexivity | split; apply N.leb_le; reflexivity]).
Qed.

(** An array has no property named by a word that starts with a letter,
    [length] apart. *)
Lemma get_prop_array elems (k : jstring) :
  match k with c :: _ => (57 <? c)%N | [] => false end = true ->
  eqs k (lit "length") = false ->
  get_prop (VArr elems) k = VUndefined.
Proof.
  destruct k as [|c rest]; [discriminate|].
  intros Hc Hlen. apply N.ltb_lt in Hc. unfold get_prop. rewrite Hlen.
  assert (Hnone : forall l, find (fun i => eqs (c :: rest) (toString i)) l = None).
  { induction l as [|i l IH]; simpl; [reflexivity|].
    destruct (toString_head i) as (d & r & -> & Hd). simpl.
    assert (Hneq : (c =? d)%N = false) by (apply N.eqb_neq; lia).
    now rewrite Hneq. }
  now rewrite Hnone.
Qed.

Lemma normalize_array elems : normalize (VArr elems) = defaulted.
Proof.
  unfold normalize, defaulted.
  rewrite !get_prop_array by reflexivity. reflexivity.
Qed.

(** C5: a parsed result that is not an array fails with
    [Expected an array of messages]; an array whose first element that is
    [null] or not of type object sits at some index fails with
    [Invalid message at index] followed by that index; otherwise every
    element is normalized, a falsy [sender] or [timestamp] becoming
    [Unknown], a falsy [message] becoming the empty string and a truthy
    field being kept.  The object with an empty sender, a null timestamp
    and message [hi] becomes Unknown, Unknown, [hi]. *)
Theorem C5_validation :
  (forall v, isArray v = false ->
     validate v = inl (Error (lit "Expected an array of messages")))
  /\ (forall before msg after,
        forallb object_like before = true ->
        msg = VNull \/ typeof_object msg = false ->
        validate (VArr (before ++ msg :: after)) =
        inl (Error (lit "Invalid message at index " ++ toString (length before))))
  /\ (forall elems,
        forallb object_like elems = true ->
        validate (VArr elems) = inr (map normalize elems))
  /\ (forall msg,
        let field := get_prop msg in
        sender (normalize msg) =
          (if truthy (field (lit "sender")) then field (lit "sender") else VStr (lit "Unknown"))
        /\ timestamp (normalize msg) =
          (if truthy (field (lit "timestamp")) then field (lit "timestamp")
           else VStr (lit "Unknown"))
        /\ message (normalize msg) =
          (if truthy (field (lit "message")) then field (lit "message") else VStr []))
  /\ validate (VArr [VObj [(lit "sender", VStr []); (lit "timestamp", VNull);
                           (lit "message", VStr (lit "hi"))]]) =
     inr [{| sender := VStr (lit "Unknown"); timestamp := VStr (lit "Unknown");
             message := VStr (lit "hi") |}].
Proof.
  split; [|split; [|split; [|split]]].
  - intros v H. destruct v; try reflexivity. discriminate.
  - intros before msg after Hb Hmsg. apply object_like_false in Hmsg.
    exact (validate_from_bad before 0 msg after Hb Hmsg).
  - intros elems H. exact (validate_from_ok elems 0 H).
  - intros msg field. repeat split.
  - reflexivity.
Qed.

Lemma C5_witness :
  isArray (VObj []) = false
  /\ validate (VObj []) = inl (Error (lit "Expected an array of messages"))
  /\ forallb object_like [VObj []; VArr []] = true
  /\ validate (VArr [VObj []; VArr []; VNull; VObj []]) =
     inl (Error (lit "Invalid message at index 2"))
  /\ validate (VArr [VObj []; VArr []]) = inr [defaulted; defaulted].
Proof.
  destruct C5_validation as (Harray & Hbad & Hok & _).
  split; [reflexivity|]. split; [exact (Harray (VObj []) eq_refl)|].
  split; [reflexivity|]. split.
  - exact (Hbad [VObj []; VArr []] VNull [VObj []] eq_refl (or_introl eq_refl)).
  - exact (Hok [VObj []; VArr []] eq_refl).
Defined.

(** A text that parses and validates is answered with the validated
    records, as inserted. *)
Lemma with_text_parsed w t db v validated :
  JSON_parse w (sanitize t) = Some v ->
  validate v = inr validated ->
  insertMany_fault w validated = None ->
  let data := insertMany (fresh_id db) (stamp (Date_now w) 0 validated) in
  with_text w t db =
  ({| status := 200;
      body := BSuccess (lit "Successfully processed " ++ toString (length validated)
                        ++ lit " messages") data false |},
   [ERawResponse; EInsert validated], db ++ data).
Proof.
  intros Hparse Hval Hins data. unfold with_text, insert_and_reply.
  rewrite Hparse, Hval, (insertChatMessages_ok w db validated Hins).
  fold data. unfold data at 1. now rewrite insertMany_length, stamp_length.
Qed.

(** A text that does not parse but has key/value lines is answered with
    the records recovered from them, validated and inserted. *)
Lemma with_text_recovered w t db validated :
  JSON_parse w (sanitize t) = None ->
  fallbackConstruct t <> [] ->
  validate (VArr (map object_of (fallbackConstruct t))) = inr validated ->
  insertMany_fault w validated = None ->
  let data := insertMany (fresh_id db) (stamp (Date_now w) 0 validated) in
  with_text w t db =
  ({| status := 200;
      body := BSuccess (lit "Successfully processed " ++ toString (length validated)
                        ++ lit " messages") data false |},
   [ERawResponse; EFallbackJSON; EInsert validated], db ++ data).
Proof.
  intros Hparse Hsome Hval Hins data. unfold with_text, insert_and_reply.
  rewrite Hparse.
  assert (Hlen : (0 <? length (fallbackConstruct t)) = true).
  { apply Nat.ltb_lt. destruct (fallbackConstruct t); [congruence | simpl; lia]. }
  rewrite Hlen, Hval, (insertChatMessages_ok w db validated Hins).
  fold data. unfold data at 1. now rewrite insertMany_length, stamp_length.
Qed.

(** C10: the validation lets an array through as an element, since an
    array is a truthy value of type object; it has none of the three
    properties, so all three fields default.  A response that parses to an
    array holding one empty array is therefore answered with exactly one
    record, Unknown, Unknown and the empty message. *)
Theorem C10_array_element_accepted :
  (forall elems, object_like (VArr elems) = true /\ normalize (VArr elems) = defaulted)
  /\ (forall elems, validate (VArr [VArr elems]) = inr [defaulted])
  /\ (forall w t db,
        JSON_parse w (sanitize t) = Some (VArr [VArr []]) ->
        insertMany_fault w [defaulted] = None ->
        exists doc,
          with_text w t db =
          ({| status := 200;
              body := BSuccess (lit "Successfully processed 1 messages") [doc] false |},
           [ERawResponse; EInsert [defaulted]], db ++ [doc])
          /\ fields doc = defaulted)
  /\ (let doc := {| _id := 1; fields := defaulted; created_at := 1700000000000 |} in
      POST nested_array_world (Some alice_file) [] =
      ({| status := 200;
          body := BSuccess (lit "Successfully processed 1 messages") [doc] false |},
       [EFormData; EText; ECreateCollection; EAttempt (lit "gpt-3.5-turbo");
        ERawResponse; EInsert [defaulted]],
       [doc])).
Proof.
  split; [|split; [|split]]; [| | |vm_compute; reflexivity].
  - intros elems. split; [reflexivity | apply normalize_array].
  - intros elems. unfold validate.
    rewrite (validate_from_ok [VArr elems] 0 eq_refl). simpl.
    now rewrite normalize_array.
  - intros w t db Hparse Hins.
    eexists. split.
    + rewrite (with_text_parsed w t db Hparse (validated := [defaulted]) eq_refl Hins).
      reflexivity.
    + reflexivity.
Qed.

Lemma C10_witness :
  JSON_parse nested_array_world (sanitize (lit "[[]]")) = Some (VArr [VArr []])
  /\ exists doc,
       with_text nested_array_world (lit "[[]]") [] =
       ({| status := 200;
           body := BSuccess (lit "Successfully processed 1 messages") [doc] false |},
        [ERawResponse; EInsert [defaulted]], [doc])
       /\ fields doc = defaulted.
Proof.
  split; [reflexivity|].
  exact (proj1 (proj2 (proj2 C10_array_element_accepted)) nested_array_world (lit "[[]]") []
           eq_refl eq_refl).
Defined.

(* ================================================================== *)
(** * The key/value recovery *)
(* ================================================================== *)

Lemma includes_unfold s p :
  includes s p = startsWith s p || match s with [] => false | _ :: s' => includes s' p end.
Proof. destruct s; reflexivity. Qed.

(** A pattern that begins with a literal word only matches where the word
    stands. *)
Lemma run_str word : forall rest bol s f,
  run (map chr word ++ rest) bol s = Some f -> startsWith s word = true.
Proof.
  induction word as [|x word IH]; intros rest bol s f H; [reflexivity|].
  simpl in H. destruct s as [|c s']; [discriminate|].
  simpl. destruct (N.eqb x c); [|discriminate]. simpl.
  destruct (run (map chr word ++ rest) false s') as [f'|] eqn:R; [|discriminate].
  exact (IH rest false s' f' R).
Qed.

Lemma run_chr x r bol s :
  run (chr x :: r) bol s =
  match s with
  | c :: s' => if N.eqb x c then emit false (option_map (pair [c]) (run r false s')) else None
  | [] => None
  end.
Proof. reflexivity. Qed.

(** A line on which the pattern of a key matches includes the key. *)
Lemma search_re_key_includes key : forall s bol i m,
  search (re_key key) bol i s = Some m -> includes s (lit key) = true.
Proof.
  induction s as [|c s IH]; intros bol i m H.
  - discriminate.
  - rewrite includes_unfold.
    change (search (re_key key) bol i (c :: s))
      with (match run (re_key key) bol (c :: s) with
            | Some (t, gs) => Some {| index := i; matched := t; groups := gs |}
            | None => search (re_key key) false (S i) s
            end) in H.
    destruct (run (re_key key) bol (c :: s)) as [f|] eqn:R.
    + unfold re_key in R. cbn [app] in R. rewrite run_chr in R.
      destruct (N.eqb dq c); [|discriminate].
      destruct (run _ false s) as [f'|] eqn:R'; [|discriminate].
      apply run_str in R'. rewrite includes_unfold, R'.
      apply orb_true_r.
    + rewrite (IH false (S i) m H). apply orb_true_r.
Qed.

Lemma key_value_includes key line v :
  key_value key line = Some v -> includes (trim line) (lit key) = true.
Proof.
  unfold key_value, exec. intros H.
  destruct (search (re_key key) true 0 (trim line)) as [m|] eqn:S; [|discriminate].
  exact (search_re_key_includes key _ _ _ S).
Qed.

Lemma includes_nonempty s word : word <> [] -> includes s word = true -> is_empty s = false.
Proof.
  intros Hw H. destruct s; [|reflexivity].
  destruct word; [congruence | discriminate].
Qed.

Lemma fold_left_push (A B : Type) (g : B -> list A) (l : list B) : forall init,
  fold_left (fun acc x => acc ++ g x) l init = init ++ flat_map g l.
Proof.
  induction l as [|x l IH]; intros init; simpl.
  - now rewrite app_nil_r.
  - now rewrite IH, app_assoc.
Qed.

Lemma fold_left_ext (A B : Type) (f g : A -> B -> A) (l : list B) :
  (forall a x, f a x = g a x) -> forall init, fold_left f l init = fold_left g l init.
Proof.
  intros H. induction l as [|x l IH]; intros init; simpl; [reflexivity|].
  now rewrite H, IH.
Qed.

(** The recovery yields, line by line and in order, the record of each
    line that has at least one of the three quoted keys with a quoted
    value. *)
Lemma fallbackConstruct_lines responseText :
  fallbackConstruct responseText =
  flat_map (fun line => to_list (recover_line line)) (split responseText newline).
Proof.
  unfold fallbackConstruct.
  rewrite <- (app_nil_l (flat_map _ _)), <- fold_left_push.
  apply fold_left_ext. intros acc line.
  unfold recover_line.
  destruct (key_value "sender" line) as [s|] eqn:Hs;
    destruct (key_value "timestamp" line) as [t|] eqn:Ht;
    destruct (key_value "message" line) as [m|] eqn:Hm.
  all: try (apply key_value_includes in Hs as Hs').
  all: try (apply key_value_includes in Ht as Ht').
  all: try (apply key_value_includes in Hm as Hm').
  all: unfold key_value in Hs, Ht, Hm.
  all: destruct (exec (re_key "sender") (trim line)) as [ms|]; try discriminate.
  all: destruct (exec (re_key "timestamp") (trim line)) as [mt|]; try discriminate.
  all: destruct (exec (re_key "message") (trim line)) as [mm|]; try discriminate.
  all: simpl in Hs, Ht, Hm.
  all: try (injection Hs as <-); try (injection Ht as <-); try (injection Hm as <-).
  all: try rewrite (includes_nonempty (trim line) (word := lit "sender")) by
      (assumption || discriminate).
  all: try rewrite (includes_nonempty (trim line) (word := lit "timestamp")) by
      (assumption || discriminate).
  all: try rewrite (includes_nonempty (trim line) (word := lit "message")) by
      (assumption || discriminate).
  all: try rewrite Hs'; try rewrite Ht'; try rewrite Hm'.
  all: rewrite ?orb_true_r; simpl; rewrite ?app_nil_r.
  all: try reflexivity.
  all: destruct (_ && _); reflexivity.
Qed.

Lemma object_of_object_like l : forallb object_like (map object_of l) = true.
Proof. induction l as [|m l IH]; simpl; [reflexivity | exact IH]. Qed.

(** C3: the loop over the candidates stops at the first one that returns a
    non-empty text, and the candidates after it are not attempted.  When
    that text does not parse after the clean-up, its lines are scanned in
    order and each line with a quoted sender, timestamp or message key and
    a quoted value gives one record, the keys that are missing getting
    their defaults; the records are then validated, inserted and returned.
    A line that holds only a quoted sender Bob gives the record Bob,
    Unknown, empty message; in the scenario where the first model times
    out and the second answers with such a line, the third model is not
    attempted and that record is the result. *)
Theorem C3_first_text_and_recovery :
  (forall w fileContent before model after t responseText lastError,
      no_text w fileContent before = true ->
      completions_create w model fileContent = Completed (Some t) ->
      t <> [] ->
      attempt_loop w fileContent (before ++ model :: after) responseText lastError =
      (Some t, last_error w fileContent before lastError, map EAttempt (before ++ [model])))
  /\ (forall w file db before model after t,
        accepted w file = true ->
        models = before ++ model :: after ->
        no_text w (text file) before = true ->
        completions_create w model (text file) = Completed (Some t) ->
        t <> [] ->
        POST w (Some file) db =
        (let '(r, tr, db') := with_text w t db in
         (r, [EFormData; EText; ECreateCollection] ++ map EAttempt (before ++ [model]) ++ tr,
          db')))
  /\ (forall t,
        fallbackConstruct t =
        flat_map (fun line => to_list (recover_line line)) (split t newline))
  /\ (forall w t db,
        JSON_parse w (sanitize t) = None ->
        fallbackConstruct t <> [] ->
        let validated := map normalize (map object_of (fallbackConstruct t)) in
        insertMany_fault w validated = None ->
        exists data,
          with_text w t db =
          ({| status := 200;
              body := BSuccess (lit "Successfully processed " ++ toString (length validated)
                                ++ lit " messages") data false |},
           [ERawResponse; EFallbackJSON; EInsert validated], db ++ data)
          /\ map fields data = validated)
  /\ recover_line (quoted (lit "sender") ++ lit ": " ++ quoted (lit "Bob")) =
     Some {| sender := lit "Bob"; timestamp := lit "Unknown"; message := [] |}
  /\ (forall third,
        let doc := {| _id := 1; fields := bob; created_at := 1700000000000 |} in
        POST (scenario_world third) (Some alice_file) [] =
        ({| status := 200;
            body := BSuccess (lit "Successfully processed 1 messages") [doc] false |},
         [EFormData; EText; ECreateCollection;
          EAttempt (lit "gpt-3.5-turbo"); EAttempt (lit "gpt-4o-mini");
          ERawResponse; EFallbackJSON; EInsert [bob]],
         [doc])).
Proof.
  split; [|split; [|split; [|split; [|split]]]].
  - intros w fileContent before model after t rt le.
    apply attempt_loop_first_text.
  - intros w file db before model after t Hacc Hm Hno Hc Ht.
    rewrite (POST_accepted w file db Hacc).
    rewrite (extract_text w (text file) db before model after Hm Hno Hc Ht).
    destruct (with_text w t db) as [[r tr] db']. reflexivity.
  - exact fallbackConstruct_lines.
  - intros w t db Hparse Hsome validated Hins.
    exists (insertMany (fresh_id db) (stamp (Date_now w) 0 validated)).
    split; [|apply insertMany_fields].
    apply with_text_recovered; try assumption.
    unfold validate. apply validate_from_ok, object_of_object_like.
  - vm_compute. reflexivity.
  - intros third. vm_compute. reflexivity.
Qed.

Lemma C3_witness :
  no_text (scenario_world (Completed None)) (text alice_file) [lit "gpt-3.5-turbo"] = true
  /\ attempt_loop (scenario_world (Completed None)) (text alice_file) models None None =
     (Some garbage, Some AbortError, [EAttempt (lit "gpt-3.5-turbo"); EAttempt (lit "gpt-4o-mini")])
  /\ JSON_parse (scenario_world (Completed None)) (sanitize garbage) = None
  /\ exists data,
       with_text (scenario_world (Completed None)) garbage [] =
       ({| status := 200;
           body := BSuccess (lit "Successfully processed 1 messages") data false |},
        [ERawResponse; EFallbackJSON; EInsert [bob]], data)
       /\ map fields data = [bob].
Proof.
  destruct C3_first_text_and_recovery as (Hloop & _ & _ & Hrec & _).
  assert (Hne : garbage <> []) by discriminate.
  assert (Hsome : fallbackConstruct garbage <> []) by (vm_compute; discriminate).
  split; [reflexivity|]. split; [|split; [reflexivity|]].
  - exact (Hloop (scenario_world (Completed None)) (text alice_file)
             [lit "gpt-3.5-turbo"] (lit "gpt-4o-mini") [lit "gpt-4"] garbage None None
             eq_refl eq_refl Hne).
  - destruct (Hrec (scenario_world (Completed None)) garbage [] eq_refl Hsome eq_refl)
      as (data & Hwith & Hfields).
    exists data. split; [exact Hwith | exact Hfields].
Defined.

(* ================================================================== *)
(** * The manual line parser, line by line *)
(* ================================================================== *)

Lemma parseChatManually_lines content :
  parseChatManually content =
  flat_map (fun line => to_list (parse_line line)) (split content newline).
Proof.
  unfold parseChatManually.
  rewrite <- (app_nil_l (flat_map _ _)), <- fold_left_push.
  apply fold_left_ext. intros acc line. unfold parse_line.
  destruct (is_empty (trim line)); [now rewrite app_nil_r|].
  destruct (exec re_format1 (trim line)); [reflexivity|].
  destruct (exec re_format2 (trim line)); [reflexivity|].
  destruct (exec re_format3 (trim line)); [reflexivity|].
  now rewrite app_nil_r.
Qed.

Lemma split_on_no_sep sep s : forall cur,
  ~ In sep s -> split_on sep cur s = [rev cur ++ s].
Proof.
  induction s as [|c s IH]; intros cur H; simpl.
  - now rewrite app_nil_r.
  - destruct (N.eqb c sep) eqn:E.
    + apply N.eqb_eq in E. exfalso. apply H. now left.
    + rewrite IH by (intros Hin; apply H; now right).
      simpl. now rewrite <- app_assoc.
Qed.

(** On a content of one line the parser yields what the line yields. *)
Lemma parseChatManually_one_line line :
  ~ In newline line -> parseChatManually line = to_list (parse_line line).
Proof.
  intros H. rewrite parseChatManually_lines. unfold split.
  rewrite (@split_on_no_sep newline line [] H). simpl. now rewrite app_nil_r.
Qed.

(** C4: the manual parser goes through the lines in order and tries the
    three patterns on each trimmed, non-blank line in the order format 1,
    format 2, format 3, the first that matches giving the record of the
    line; a line that matches format 1 gets the record of format 1 whatever
    formats 2 and 3 would do.  The line [[10:00] Alice: hi] matches
    formats 1 and 3 and gives timestamp 10:00, sender Alice, message hi.
    A line that matches none of the three gives no record; the parser has
    no other outcome than its list of records. *)
Theorem C4_pattern_priority :
  (forall content,
      parseChatManually content =
      flat_map parseChatManually (split content newline))
  /\ (forall line m,
        ~ In newline line ->
        is_empty (trim line) = false ->
        exec re_format1 (trim line) = Some m ->
        parseChatManually line =
        [{| sender := trim (group m 2); timestamp := trim (group m 1);
            message := trim (group m 3) |}])
  /\ (forall line m,
        ~ In newline line ->
        is_empty (trim line) = false ->
        exec re_format1 (trim line) = None ->
        exec re_format2 (trim line) = Some m ->
        parseChatManually line =
        [{| sender := trim (group m 2); timestamp := trim (group m 1);
            message := trim (group m 3) |}])
  /\ (forall line m,
        ~ In newline line ->
        is_empty (trim line) = false ->
        exec re_format1 (trim line) = None ->
        exec re_format2 (trim line) = None ->
        exec re_format3 (trim line) = Some m ->
        parseChatManually line =
        [{| sender := trim (group m 1); timestamp := lit "Unknown";
            message := trim (group m 2) |}])
  /\ (forall line,
        ~ In newline line ->
        exec re_format1 (trim line) = None ->
        exec re_format2 (trim line) = None ->
        exec re_format3 (trim line) = None ->
        parseChatManually line = [])
  /\ (let line := lit "[10:00] Alice: hi" in
      option_map groups (exec re_format1 (trim line)) =
        Some [lit "10:00"; lit "Alice"; lit "hi"]
      /\ option_map groups (exec re_format3 (trim line)) =
        Some [lit "[10"; lit "00] Alice: hi"]
      /\ parseChatManually line =
        [{| sender := lit "Alice"; timestamp := lit "10:00"; message := lit "hi" |}]).
Proof.
  split; [|split; [|split; [|split; [|split]]]].
  - intros content. rewrite parseChatManually_lines.
    assert (Hin : forall line, In line (split content newline) -> ~ In newline line).
    { assert (Hgen : forall s cur line, ~ In newline cur ->
                       In line (split_on newline cur s) -> ~ In newline line).
      { induction s as [|c s IH]; intros cur line Hcur Hl; simpl in Hl.
        - destruct Hl as [<-|[]]. now rewrite <- in_rev.
        - destruct (N.eqb c newline) eqn:E.
          + destruct Hl as [<-|Hl]; [now rewrite <- in_rev|].
            apply (IH [] line); [intros [] | exact Hl].
          + apply (IH (c :: cur) line); [|exact Hl].
            intros [->|Hc]; [|contradiction].
            now rewrite N.eqb_refl in E. }
      intros line. apply (Hgen content []). intros []. }
    induction (split content newline) as [|line lines IH]; [reflexivity|].
    simpl. rewrite (parseChatManually_one_line line (Hin line (or_introl eq_refl))).
    f_equal. apply IH. intros l Hl. apply Hin. now right.
  - intros line m Hnl Hne H1. rewrite (parseChatManually_one_line line Hnl).
    unfold parse_line. now rewrite Hne, H1.
  - intros line m Hnl Hne H1 H2. rewrite (parseChatManually_one_line line Hnl).
    unfold parse_line. now rewrite Hne, H1, H2.
  - intros line m Hnl Hne H1 H2 H3. rewrite (parseChatManually_one_line line Hnl).
    unfold parse_line. now rewrite Hne, H1, H2, H3.
  - intros line Hnl H1 H2 H3. rewrite (parseChatManually_one_line line Hnl).
    unfold parse_line. rewrite H1, H2, H3.
    now destruct (is_empty (trim line)).
  - vm_compute. repeat split.
Qed.

Lemma C4_witness :
  ~ In newline (lit "  [10:00] Alice: hi  ")
  /\ is_empty (trim (lit "  [10:00] Alice: hi  ")) = false
  /\ parseChatManually (lit "  [10:00] Alice: hi  ") =
     [{| sender := lit "Alice"; timestamp := lit "10:00"; message := lit "hi" |}]
  /\ ~ In newline (lit "no colon on this line")
  /\ exec re_format1 (trim (lit "no colon on this line")) = None
  /\ exec re_format2 (trim (lit "no colon on this line")) = None
  /\ exec re_format3 (trim (lit "no colon on this line")) = None
  /\ parseChatManually (lit "no colon on this line") = [].
Proof.
  destruct C4_pattern_priority as (_ & H1 & _ & _ & Hnone & _).
  assert (Ha : ~ In newline (lit "  [10:00] Alice: hi  ")).
  { intros H. vm_compute in H. repeat (destruct H as [H|H]; [discriminate|]). exact H. }
  assert (Hb : ~ In newline (lit "no colon on this line")).
  { intros H. vm_compute in H. repeat (destruct H as [H|H]; [discriminate|]). exact H. }
  split; [exact Ha|]. split; [reflexivity|]. split.
  - exact (H1 (lit "  [10:00] Alice: hi  ")
             {| index := 0; matched := lit "[10:00] Alice: hi";
                groups := [lit "10:00"; lit "Alice"; lit "hi"] |} Ha eq_refl eq_refl).
  - split; [exact Hb|]. split; [reflexivity|]. split; [reflexivity|]. split; [reflexivity|].
    exact (Hnone (lit "no colon on this line") Hb eq_refl eq_refl eq_refl).
Defined.

(* ================================================================== *)
(** * The clean-up on a text in bracket form *)
(* ================================================================== *)

Lemma search_hit r bol i s m gs :
  run r bol s = Some (m, gs) ->
  search r bol i s = Some {| index := i; matched := m; groups := gs |}.
Proof. intros H. destruct s; simpl; now rewrite H. Qed.

Lemma search_miss r bol i c s :
  run r bol (c :: s) = None ->
  search r bol i (c :: s) = search r false (S i) s.
Proof. intros H. simpl. now rewrite H. Qed.

Section BracketForm.

(** The text between the two brackets. *)
Variable mid : jstring.

Lemma trim_bracket_form : trim (bracketed mid) = bracketed mid.
Proof.
  unfold trim, trimEnd, bracketed.
  change (trimStart (open_bracket :: mid ++ [close_bracket]))
    with (open_bracket :: mid ++ [close_bracket]).
  change (open_bracket :: mid ++ [close_bracket])
    with ((open_bracket :: mid) ++ [close_bracket]).
  rewrite rev_unit.
  change (trimStart (close_bracket :: rev (open_bracket :: mid)))
    with (close_bracket :: rev (open_bracket :: mid)).
  change (close_bracket :: rev (open_bracket :: mid))
    with (rev [close_bracket] ++ rev (open_bracket :: mid)).
  now rewrite <- rev_app_distr, rev_involutive.
Qed.

(** The greedy class of all characters, before a closing bracket, takes
    everything up to the last character. *)
Lemma greedy_any_to_last : forall (t : jstring) bol,
  greedy any (run [chr close_bracket]) bol (t ++ [close_bracket]) =
  Some (t, ([close_bracket], [])).
Proof.
  induction t as [|c t IH]; intros bol.
  - reflexivity.
  - simpl. now rewrite IH.
Qed.

Lemma exec_re_array_bracket_form :
  exec re_array (bracketed mid) =
  Some {| index := 0; matched := bracketed mid; groups := [] |}.
Proof.
  unfold exec, bracketed.
  change re_array with [chr open_bracket; Cls false Star any; chr close_bracket].
  assert (H : run [chr open_bracket; Cls false Star any; chr close_bracket] true
                  (open_bracket :: mid ++ [close_bracket]) =
              Some (open_bracket :: mid ++ [close_bracket], [])).
  { rewrite run_chr. change (N.eqb open_bracket open_bracket) with true. cbv iota.
    change (run [Cls false Star any; chr close_bracket] false (mid ++ [close_bracket]))
      with (emit false (greedy any (run [chr close_bracket]) false (mid ++ [close_bracket]))).
    rewrite greedy_any_to_last. reflexivity. }
  exact (search_hit _ _ 0 _ H).
Qed.

Lemma replace_before_json_bracket_form :
  replace (bracketed mid) re_before_json [] = bracketed mid.
Proof. reflexivity. Qed.

(** The class of what is not a closing brace or bracket, before the end of
    the input, cannot reach the end of a text that ends with a bracket. *)
Lemma greedy_not_closing_none : forall (t : jstring) bol,
  greedy (none_of "}]") (run [Eol]) bol (t ++ [close_bracket]) = None.
Proof.
  induction t as [|c t IH]; intros bol.
  - reflexivity.
  - simpl. rewrite IH. now destruct (none_of "}]" c).
Qed.

Lemma search_after_json_bracket_form : forall (t : jstring) bol i,
  search re_after_json bol i (t ++ [close_bracket]) =
  Some {| index := i + length (t ++ [close_bracket]); matched := []; groups := [] |}.
Proof.
  assert (Hrun : forall (t : jstring) bol, run re_after_json bol (t ++ [close_bracket]) = None).
  { intros t bol.
    change (run re_after_json bol (t ++ [close_bracket]))
      with (emit false (greedy (none_of "}]") (run [Eol]) bol (t ++ [close_bracket]))).
    now rewrite greedy_not_closing_none. }
  induction t as [|c t IH]; intros bol i.
  - simpl. f_equal. f_equal. lia.
  - change ((c :: t) ++ [close_bracket]) with (c :: t ++ [close_bracket]).
    rewrite search_miss by exact (Hrun (c :: t) bol).
    rewrite IH. simpl. f_equal. f_equal. lia.
Qed.

Lemma replace_after_json_bracket_form :
  replace (bracketed mid) re_after_json [] = bracketed mid.
Proof.
  unfold replace, exec, bracketed.
  change (open_bracket :: mid ++ [close_bracket])
    with ((open_bracket :: mid) ++ [close_bracket]).
  rewrite search_after_json_bracket_form. cbn [index matched length Nat.add].
  rewrite Nat.add_0_r, firstn_all, skipn_all. now rewrite !app_nil_r.
Qed.

(** The clean-up leaves a text in bracket form as it is. *)
Lemma sanitize_bracket_form : sanitize (bracketed mid) = bracketed mid.
Proof.
  unfold sanitize. rewrite trim_bracket_form.
  change (startsWith (bracketed mid) (lit "```json")) with false.
  change (startsWith (bracketed mid) (lit "```")) with false.
  cbv iota. rewrite trim_bracket_form, exec_re_array_bracket_form.
  cbn [matched].
  rewrite replace_before_json_bracket_form, replace_after_json_bracket_form.
  apply trim_bracket_form.
Qed.

End BracketForm.

Lemma endsWith_single (s : jstring) (x : char) :
  endsWith s [x] = true -> exists r : jstring, s = r ++ [x].
Proof.
  unfold endsWith. intros H.
  destruct (rev s) as [|d r] eqn:Hrev; [discriminate|].
  change (startsWith (d :: r) (rev [x])) with (N.eqb x d && true) in H.
  rewrite andb_true_r in H. apply N.eqb_eq in H. subst d.
  exists (rev r). rewrite <- (rev_involutive s), Hrev. reflexivity.
Qed.

(** A text that starts with an opening bracket and ends with a closing one
    has a middle between its two brackets. *)
Lemma bracket_form (s : jstring) :
  startsWith s (lit "[") = true -> endsWith s (lit "]") = true ->
  exists mid : jstring, s = bracketed mid.
Proof.
  intros Hs He.
  destruct (endsWith_single s 93%N He) as ([|c mid] & ->).
  - discriminate.
  - change (startsWith ((c :: mid) ++ [93%N]) (lit "[")) with (N.eqb 91 c && true) in Hs.
    rewrite andb_true_r in Hs. apply N.eqb_eq in Hs. subst c.
    now exists mid.
Qed.

(** C6: on a text already in bracket form, one that begins with an opening
    bracket and ends with a closing bracket, the clean-up (trim, fence
    strip, bracket span, strip before and after the JSON) changes nothing,
    so applying it twice gives what applying it once gives. *)
Theorem C6_sanitize_idempotent s :
  startsWith s (lit "[") = true ->
  endsWith s (lit "]") = true ->
  sanitize (sanitize s) = sanitize s /\ sanitize s = s.
Proof.
  intros Hs He. destruct (bracket_form s Hs He) as (mid & ->).
  rewrite !sanitize_bracket_form. split; reflexivity.
Qed.

Lemma C6_witness :
  startsWith (lit "[1, [2], {}]") (lit "[") = true
  /\ endsWith (lit "[1, [2], {}]") (lit "]") = true
  /\ sanitize (sanitize (lit "[1, [2], {}]")) = sanitize (lit "[1, [2], {}]").
Proof.
  split; [reflexivity|]. split; [reflexivity|].
  exact (proj1 (C6_sanitize_idempotent (lit "[1, [2], {}]") eq_refl eq_refl)).
Defined.

(* ================================================================== *)
(** * What a request adds to the store *)
(* ================================================================== *)

Lemma truthy_defined v : truthy v = true -> defined v = true.
Proof. destruct v; simpl; intros H; (reflexivity || discriminate). Qed.

Lemma or_else_defined a b : defined b = true -> defined (or_else a b) = true.
Proof.
  intros Hb. unfold or_else. destruct (truthy a) eqn:E; [|exact Hb].
  now apply truthy_defined.
Qed.

Lemma normalize_defined msg : msg_defined (normalize msg) = true.
Proof.
  unfold msg_defined, normalize. cbn [sender timestamp message].
  now rewrite !or_else_defined.
Qed.

Lemma validate_from_defined elems : forall index validated,
  validate_from index elems = inr validated -> forallb msg_defined validated = true.
Proof.
  induction elems as [|msg rest IH]; intros index validated H; simpl in H.
  - now injection H as <-.
  - destruct (negb (truthy msg) || negb (typeof_object msg)); [discriminate|].
    destruct (validate_from (S index) rest) as [e|v] eqn:E; [discriminate|].
    injection H as <-. simpl. rewrite normalize_defined. exact (IH (S index) v E).
Qed.

Lemma validate_defined v validated :
  validate v = inr validated -> forallb msg_defined validated = true.
Proof.
  destruct v; simpl; try discriminate. apply validate_from_defined.
Qed.

Lemma manual_defined l : forallb msg_defined (map (msg_map VStr) l) = true.
Proof. induction l as [|m l IH]; simpl; [reflexivity | exact IH]. Qed.

Lemma forallb_populated next batch :
  forallb msg_defined (map fst batch) = true ->
  forallb populated (insertMany next batch) = true.
Proof.
  revert next. induction batch as [|[msg t] rest IH]; intros next H; simpl in *;
    [reflexivity|].
  apply andb_true_iff in H as [Hm Hrest].
  unfold populated at 1. cbn [fields]. rewrite Hm. now apply IH.
Qed.

Lemma stamp_fst now messages : forall i, map fst (stamp now i messages) = messages.
Proof.
  induction messages as [|msg rest IH]; intros i; simpl; [reflexivity|].
  now rewrite IH.
Qed.

Lemma appended_nothing w db : appended w db db.
Proof. exists []. now rewrite app_nil_r. Qed.

Lemma forallb_firstn A (p : A -> bool) (l : list A) : forall n,
  forallb p l = true -> forallb p (firstn n l) = true.
Proof.
  induction l as [|a l IH]; intros [|n] H; simpl in *; try reflexivity.
  apply andb_true_iff in H as [Ha Hl]. rewrite Ha. now apply IH.
Qed.

Lemma firstn_of_seq : forall len n i, firstn n (seq i len) = seq i (Nat.min n len).
Proof.
  induction len as [|len IH]; intros [|n] i; simpl; try reflexivity.
  now rewrite IH.
Qed.

Lemma appended_insert w db messages :
  forallb msg_defined messages = true ->
  appended w db (snd (insertChatMessages w db messages)).
Proof.
  intros Hdef. destruct (insertMany_fault w messages) as [e|] eqn:E.
  - rewrite (insertChatMessages_fault w db messages E). cbn [snd]. eexists.
    split; [reflexivity|]. split.
    + apply forallb_firstn, forallb_populated. now rewrite stamp_fst.
    + rewrite <- firstn_map, insertMany_created_at, firstn_map, firstn_of_seq.
      now rewrite length_firstn, insertMany_length, stamp_length.
  - rewrite (insertChatMessages_ok w db messages E). cbn [snd]. eexists.
    split; [reflexivity|]. split.
    + apply forallb_populated. now rewrite stamp_fst.
    + now rewrite insertMany_created_at, insertMany_length, stamp_length.
Qed.

Lemma appended_insert_and_reply w db validated :
  forallb msg_defined validated = true ->
  appended w db (snd (insert_and_reply w db validated)).
Proof.
  intros Hdef. unfold insert_and_reply.
  pose proof (appended_insert w db validated Hdef) as H.
  destruct (insertChatMessages w db validated) as [[e|docs] db']; exact H.
Qed.

Lemma appended_with_text w t db : appended w db (snd (with_text w t db)).
Proof.
  unfold with_text.
  destruct (JSON_parse w (sanitize t)) as [v|].
  - destruct (validate v) as [e|validated] eqn:E; [apply appended_nothing|].
    pose proof (appended_insert_and_reply w db validated (validate_defined v E)) as H.
    destruct (insert_and_reply w db validated) as [[r tr] db']. exact H.
  - destruct (0 <? length (fallbackConstruct t)); [|apply appended_nothing].
    destruct (validate (VArr (map object_of (fallbackConstruct t)))) as [e|validated] eqn:E;
      [apply appended_nothing|].
    pose proof (appended_insert_and_reply w db validated (validate_defined _ E)) as H.
    destruct (insert_and_reply w db validated) as [[r tr] db']. exact H.
Qed.

Lemma appended_without_text w fileContent lastError db :
  appended w db (snd (without_text w fileContent lastError db)).
Proof.
  unfold without_text.
  destruct (0 <? length _); [|apply appended_nothing].
  pose proof (appended_insert w db _ (manual_defined (parseChatManually fileContent))) as H.
  destruct (insertChatMessages w db _) as [[e|docs] db']; exact H.
Qed.

Lemma appended_extract w fileContent db : appended w db (snd (extract w fileContent db)).
Proof.
  unfold extract.
  destruct (attempt_loop w fileContent models None None) as [[rt le] attempts].
  destruct rt as [[|c t]|].
  - pose proof (appended_without_text w fileContent le db) as H.
    destruct (without_text w fileContent le db) as [[r tr] db']. exact H.
  - pose proof (appended_with_text w (c :: t) db) as H.
    destruct (with_text w (c :: t) db) as [[r tr] db']. exact H.
  - pose proof (appended_without_text w fileContent le db) as H.
    destruct (without_text w fileContent le db) as [[r tr] db']. exact H.
Qed.

Lemma appended_POST w file db : appended w db (snd (POST w file db)).
Proof.
  unfold POST.
  destruct (unset (OPENAI_API_KEY w)); [apply appended_nothing|].
  destruct (unset (MONGODB_URI w)); [apply appended_nothing|].
  destruct file as [f|]; [|apply appended_nothing].
  destruct (maxSize <? size f)%N; [apply appended_nothing|].
  destruct (negb (endsWith (name f) (lit ".txt"))); [apply appended_nothing|].
  destruct (is_empty (trim (text f))); [apply appended_nothing|].
  destruct (50000 <? N.of_nat (length (text f)))%N; [apply appended_nothing|].
  destruct (createIndex_fault w); [apply appended_nothing|].
  pose proof (appended_extract w (text f) db) as H.
  destruct (extract w (text f) db) as [[r tr] db']. exact H.
Qed.

Lemma non_decreasing_readings (now : nat -> Z) n : forall i,
  (forall k, (now k <= now (S k))%Z) ->
  non_decreasing (map now (seq i n)) = true.
Proof.
  induction n as [|n IH]; intros i Hclock; [reflexivity|].
  destruct n as [|n']; [reflexivity|].
  change (non_decreasing (map now (seq i (S (S n')))))
    with ((now i <=? now (S i))%Z && non_decreasing (map now (seq (S i) (S n')))).
  rewrite (IH (S i) Hclock), andb_true_r. apply Z.leb_le, Hclock.
Qed.

(** C9, as the code has it: whatever a request adds to the collection is
    appended to it, every added document has its sender, timestamp and
    message defined, and its creation time is not taken from the
    extracted record but read from the clock at the insertion, the
    document of rank [i] in the batch getting the reading of rank [i]; so
    the creation times of a batch are non-decreasing in batch order
    whenever the clock does not step back between two readings. *)
Theorem C9_inserted_documents w file db :
  exists inserted,
    snd (POST w file db) = db ++ inserted
    /\ forallb populated inserted = true
    /\ map created_at inserted = map (Date_now w) (seq 0 (length inserted))
    /\ ((forall k, (Date_now w k <= Date_now w (S k))%Z) ->
        non_decreasing (map created_at inserted) = true).
Proof.
  destruct (appended_POST w file db) as (inserted & Hdb & Hpop & Htime).
  exists inserted. repeat split; try assumption.
  intros Hclock. rewrite Htime. now apply non_decreasing_readings.
Qed.

Lemma C9_witness :
  (forall k, (Date_now all_time_out k <= Date_now all_time_out (S k))%Z)
  /\ exists inserted,
       snd (POST all_time_out (Some two_lines_file) []) = inserted
       /\ length inserted = 2
       /\ forallb populated inserted = true
       /\ non_decreasing (map created_at inserted) = true.
Proof.
  assert (Hclock : forall k, (Date_now all_time_out k <= Date_now all_time_out (S k))%Z).
  { intros k. cbn [Date_now all_time_out world_with]. lia. }
  split; [exact Hclock|].
  destruct (C9_inserted_documents all_time_out (Some two_lines_file) [])
    as (inserted & Hdb & Hpop & Htime & Hmono).
  change ([] ++ inserted) with inserted in Hdb.
  exists inserted. split; [exact Hdb|]. split; [rewrite <- Hdb; reflexivity|].
  split; [exact Hpop | exact (Hmono Hclock)].
Defined.

(** C9, as stated without a condition on the clock, fails: when the clock
    steps back between the two readings of a batch of two records, the
    second document is stored with an earlier creation time than the
    first. *)
Lemma C9_counterexample :
  map created_at (snd (POST clock_steps_back (Some two_lines_file) [])) =
    [1700000000005%Z; 1700000000000%Z]
  /\ non_decreasing (map created_at (snd (POST clock_steps_back (Some two_lines_file) []))) =
     false.
Proof. split; vm_compute; reflexivity. Qed.

Unset Implicit Arguments.

(* ================================================================== *)
(** * What a match of a pattern consists of *)
(* ================================================================== *)

(** What the greedy repetition takes is a run of characters of its class,
    and the continuation succeeds on what is left. *)
Lemma greedy_sound (A : Type) (p : char -> bool) (k : bool -> jstring -> option A) :
  forall s bol t a,
    greedy p k bol s = Some (t, a) ->
    exists rest bol', s = t ++ rest /\ forallb p t = true /\ k bol' rest = Some a.
Proof.
  induction s as [|c s IH]; intros bol t a H; simpl in H.
  - destruct (k bol []) as [a'|] eqn:K; [|discriminate].
    injection H as <- <-. exists [], bol. auto.
  - destruct (p c) eqn:P.
    + destruct (greedy p k false s) as [[t' a']|] eqn:G.
      * injection H as <- <-.
        destruct (IH false t' a' G) as (rest & bol' & -> & Hall & Hk).
        exists rest, bol'. simpl. rewrite P. auto.
      * destruct (k bol (c :: s)) as [a'|] eqn:K; [|discriminate].
        injection H as <- <-. exists (c :: s), bol. auto.
    + destruct (k bol (c :: s)) as [a'|] eqn:K; [|discriminate].
      injection H as <- <-. exists (c :: s), bol. auto.
Qed.

Lemma may_match_cons n r c : may_match r c = true -> may_match (n :: r) c = true.
Proof. intros H. unfold may_match in *. simpl. rewrite H. apply orb_true_r. Qed.

Lemma forallb_may_match_cons n r m :
  forallb (may_match r) m = true -> forallb (may_match (n :: r)) m = true.
Proof.
  intros H. rewrite forallb_forall in *. intros c Hc. apply may_match_cons. now apply H.
Qed.

Lemma forallb_class cap q p r m :
  forallb p m = true -> forallb (may_match (Cls cap q p :: r)) m = true.
Proof.
  intros H. rewrite forallb_forall in *. intros c Hc.
  unfold may_match. simpl. now rewrite (H c Hc).
Qed.

(** A match of a pattern in two parts splits into a text made of
    characters the first part can consume, with the groups of the first
    part, and a match of the second part on what follows. *)
Lemma run_app_inv r1 r2 : forall bol s m gs,
  run (r1 ++ r2) bol s = Some (m, gs) ->
  exists m1 g1 m2 g2 bol' rest,
    s = m1 ++ rest /\ m = m1 ++ m2 /\ gs = g1 ++ g2 /\ length g1 = caps r1
    /\ forallb (may_match r1) m1 = true
    /\ run r2 bol' rest = Some (m2, g2).
Proof.
  induction r1 as [|n r1 IH]; intros bol s m gs H.
  - exists [], [], m, gs, bol, s. repeat split; auto.
  - destruct n as [| |cap q p].
    + simpl in H. destruct bol; [|discriminate].
      destruct (IH true s m gs H) as (m1 & g1 & m2 & g2 & bol' & rest & Hs & Hm & Hg & Hl & Hc & Hr).
      exists m1, g1, m2, g2, bol', rest. repeat split; auto.
    + simpl in H. destruct s as [|c s]; [|discriminate].
      destruct (IH bol [] m gs H) as (m1 & g1 & m2 & g2 & bol' & rest & Hs & Hm & Hg & Hl & Hc & Hr).
      exists m1, g1, m2, g2, bol', rest. repeat split; auto.
    + assert (Hstep : exists t m' gs' bol0 rest0,
                 s = t ++ rest0 /\ forallb p t = true
                 /\ run (r1 ++ r2) bol0 rest0 = Some (m', gs')
                 /\ m = t ++ m' /\ gs = (if cap then t :: gs' else gs')).
      { destruct q; simpl in H.
        - destruct s as [|c s]; [discriminate|].
          destruct (p c) eqn:P; [|discriminate].
          destruct (run (r1 ++ r2) false s) as [[m' gs']|] eqn:R; [|discriminate].
          simpl in H. injection H as <- <-.
          exists [c], m', gs', false, s. simpl. rewrite P. auto.
        - destruct (greedy p (run (r1 ++ r2)) bol s) as [[t [m' gs']]|] eqn:G; [|discriminate].
          simpl in H. injection H as <- <-.
          destruct (greedy_sound _ _ _ _ _ _ _ G) as (rest0 & bol0 & Hs & Hall & Hk).
          exists t, m', gs', bol0, rest0. auto.
        - destruct s as [|c s]; [discriminate|].
          destruct (p c) eqn:P; [|discriminate].
          destruct (greedy p (run (r1 ++ r2)) false s) as [[t [m' gs']]|] eqn:G;
            [|discriminate].
          simpl in H. injection H as <- <-.
          destruct (greedy_sound _ _ _ _ _ _ _ G) as (rest0 & bol0 & Hs & Hall & Hk).
          exists (c :: t), m', gs', bol0, rest0. simpl. rewrite P, Hs. auto. }
      destruct Hstep as (t & m' & gs' & bol0 & rest0 & Hs & Hall & Hrun & Hm & Hg).
      destruct (IH bol0 rest0 m' gs' Hrun)
        as (m1 & g1 & m2 & g2 & bol' & rest & Hs' & Hm' & Hg' & Hl & Hc & Hr).
      exists (t ++ m1), (if cap then t :: g1 else g1), m2, g2, bol', rest.
      subst. rewrite <- !app_assoc. repeat split; auto.
      * now destruct cap.
      * destruct cap; simpl; now rewrite Hl.
      * rewrite forallb_app. rewrite (@forallb_class cap q p r1 t Hall).
        now rewrite (@forallb_may_match_cons (Cls cap q p) r1 m1 Hc).
Qed.

(** The text a pattern matches stands at the head of the input and is made
    of characters the pattern can consume. *)
Lemma run_sound r bol s m gs :
  run r bol s = Some (m, gs) ->
  exists rest, s = m ++ rest /\ forallb (may_match r) m = true /\ length gs = caps r.
Proof.
  intros H. rewrite <- (app_nil_r r) in H.
  destruct (@run_app_inv r [] bol s _ _ H)
    as (m1 & g1 & m2 & g2 & bol' & rest & Hs & Hm & Hg & Hl & Hc & Hr).
  simpl in Hr. injection Hr as <- <-. rewrite !app_nil_r in *. subst.
  exists rest. auto.
Qed.

(** A pattern that ends with the end assertion matches up to the end. *)
Lemma run_eol r bol s m gs :
  run (r ++ [Eol]) bol s = Some (m, gs) ->
  s = m /\ forallb (may_match r) m = true /\ length gs = caps r.
Proof.
  intros H.
  destruct (@run_app_inv r [Eol] bol s _ _ H)
    as (m1 & g1 & m2 & g2 & bol' & rest & Hs & Hm & Hg & Hl & Hc & Hr).
  simpl in Hr. destruct rest; [|discriminate]. injection Hr as <- <-.
  rewrite !app_nil_r in *. subst. auto.
Qed.

(** Where a search finds its match: after some text, with the match at the
    head of what follows. *)
Lemma search_sound r : forall s bol i M,
  search r bol i s = Some M ->
  exists a rest bol',
    s = a ++ rest /\ index M = i + length a
    /\ run r bol' rest = Some (matched M, groups M).
Proof.
  induction s as [|c s IH]; intros bol i M H.
  - simpl in H. destruct (run r bol []) as [[m gs]|] eqn:R; [|discriminate].
    injection H as <-. exists [], [], bol. simpl; rewrite ?Nat.add_0_r; auto.
  - simpl in H. destruct (run r bol (c :: s)) as [[m gs]|] eqn:R.
    + injection H as <-. exists [], (c :: s), bol. simpl; rewrite ?Nat.add_0_r; auto.
    + destruct (IH false (S i) M H) as (a & rest & bol' & -> & Hi & Hr).
      exists (c :: a), rest, bol'. simpl. rewrite Hi. repeat split; auto; lia.
Qed.

(** What [replace] with the empty string removes: the match, when there is
    one. *)
Lemma replace_sound s r :
  match exec r s with
  | Some M =>
      exists a b bol,
        s = a ++ matched M ++ b /\ length a = index M /\ replace s r [] = a ++ b
        /\ run r bol (matched M ++ b) = Some (matched M, groups M)
  | None => replace s r [] = s
  end.
Proof.
  unfold replace. destruct (exec r s) as [M|] eqn:E; [|reflexivity].
  unfold exec in E.
  destruct (@search_sound r s true 0 M E) as (a & rest & bol' & Hs & Hi & Hr).
  destruct (@run_sound r bol' rest _ _ Hr) as (b & Hrest & _).
  exists a, b, bol'. subst s rest. simpl in Hi. rewrite Hi.
  repeat split; auto. simpl.
  rewrite firstn_app, Nat.sub_diag, firstn_all, firstn_O, app_nil_r.
  rewrite skipn_app, skipn_all2 by lia.
  replace (length a + length (matched M) - length a) with (length (matched M)) by lia.
  rewrite skipn_app, skipn_all, Nat.sub_diag. reflexivity.
Qed.

(* ================================================================== *)
(** * Trimming *)
(* ================================================================== *)

Lemma trimStart_app_nonspace (pre : jstring) c (x : jstring) :
  is_space c = false -> trimStart (pre ++ c :: x) = trimStart pre ++ c :: x.
Proof.
  intros Hc. unfold trimStart. induction pre as [|d pre IH]; simpl.
  - now rewrite Hc.
  - destruct (is_space d); [exact IH | reflexivity].
Qed.

Lemma trimStart_head (s : jstring) :
  trimStart s = [] \/ exists c y, trimStart s = c :: y /\ is_space c = false.
Proof.
  unfold trimStart. induction s as [|c s IH]; simpl; [now left|].
  destruct (is_space c) eqn:E; [exact IH|]. right. now exists c, s.
Qed.

Lemma trimStart_fixed c (y : jstring) : is_space c = false -> trimStart (c :: y) = c :: y.
Proof. intros H. unfold trimStart. simpl. now rewrite H. Qed.

Lemma trimStart_idempotent (s : jstring) : trimStart (trimStart s) = trimStart s.
Proof.
  destruct (trimStart_head s) as [->|(c & y & -> & Hc)]; [reflexivity|].
  now apply trimStart_fixed.
Qed.

Lemma trimEnd_app_nonspace (y : jstring) c (post : jstring) :
  is_space c = false -> trimEnd (y ++ c :: post) = y ++ c :: trimEnd post.
Proof.
  intros Hc. unfold trimEnd.
  change (y ++ c :: post) with (y ++ [c] ++ post).
  rewrite !rev_app_distr. simpl. rewrite <- app_assoc. simpl.
  rewrite (trimStart_app_nonspace (rev post) c (rev y) Hc).
  rewrite rev_app_distr. simpl. rewrite rev_involutive, <- app_assoc. reflexivity.
Qed.

(** The last character of a trimmed text is not white space. *)
Lemma trim_last (s y : jstring) c : trim s = y ++ [c] -> is_space c = false.
Proof.
  unfold trim, trimEnd. intros H.
  apply (f_equal (@rev char)) in H. rewrite rev_involutive, rev_unit in H.
  destruct (trimStart_head (rev (trimStart s))) as [E|(d & z & E & Hd)];
    rewrite E in H; [discriminate|].
  now injection H as -> _.
Qed.

(** The first character of a trimmed text is not white space. *)
Lemma trim_head (s : jstring) :
  trim s = [] \/ exists c y, trim s = c :: y /\ is_space c = false.
Proof.
  unfold trim. destruct (trimStart_head s) as [->|(c & y & -> & Hc)]; [now left|].
  right. exists c, (trimEnd y). split; [|exact Hc].
  exact (trimEnd_app_nonspace [] c y Hc).
Qed.

Lemma trimEnd_idempotent (s : jstring) : trimEnd (trimEnd s) = trimEnd s.
Proof. unfold trimEnd. now rewrite rev_involutive, trimStart_idempotent. Qed.

(** Trimming a trimmed text changes nothing. *)
Lemma trim_idempotent (s : jstring) : trim (trim s) = trim s.
Proof.
  assert (H : trimStart (trim s) = trim s).
  { destruct (trim_head s) as [->|(c & y & -> & Hc)]; [reflexivity|].
    now apply trimStart_fixed. }
  unfold trim at 1. rewrite H. unfold trim. apply trimEnd_idempotent.
Qed.

Lemma In_trimStart c (s : jstring) : In c (trimStart s) -> In c s.
Proof.
  unfold trimStart. induction s as [|d s IH]; simpl; [auto|].
  destruct (is_space d); simpl; auto.
Qed.

Lemma In_trim c (s : jstring) : In c (trim s) -> In c s.
Proof.
  unfold trim, trimEnd. intros H.
  apply In_trimStart. apply in_rev in H. apply In_trimStart in H. now apply in_rev in H.
Qed.

(** A non-empty end of a trimmed text does not trim to nothing. *)
Lemma trim_suffix_nonempty (s u g : jstring) :
  trim s = u ++ g -> g <> [] -> trim g <> [].
Proof.
  intros H Hg. destruct (exists_last Hg) as (g' & c & ->).
  rewrite app_assoc in H. apply trim_last in H.
  unfold trim. rewrite (trimStart_app_nonspace g' c [] H).
  rewrite (trimEnd_app_nonspace (trimStart g') c [] H).
  intros E. apply app_eq_nil in E as [_ E]. discriminate.
Qed.

(* ================================================================== *)
(** * The lines of a text *)
(* ================================================================== *)

Lemma split_on_app sep (a b : jstring) : forall cur,
  split_on sep cur (a ++ sep :: b) = split_on sep cur a ++ split_on sep [] b.
Proof.
  induction a as [|c a IH]; intros cur; simpl.
  - now rewrite N.eqb_refl.
  - destruct (N.eqb c sep); [|apply IH]. simpl. now rewrite IH.
Qed.

Lemma split_on_length sep (s : jstring) : forall cur,
  length (split_on sep cur s) = S (count_occ N.eq_dec s sep).
Proof.
  induction s as [|c s IH]; intros cur; simpl; [reflexivity|].
  destruct (N.eqb c sep) eqn:E.
  - apply N.eqb_eq in E. subst. destruct (N.eq_dec sep sep); [|congruence].
    simpl. now rewrite IH.
  - apply N.eqb_neq in E. destruct (N.eq_dec c sep); [congruence|]. apply IH.
Qed.

Lemma In_split_on sep c (s : jstring) : forall cur line,
  In line (split_on sep cur s) -> In c line -> In c cur \/ In c s.
Proof.
  induction s as [|d s IH]; intros cur line Hl Hc; simpl in Hl.
  - destruct Hl as [<-|[]]. left. now apply in_rev.
  - destruct (N.eqb d sep).
    + destruct Hl as [<-|Hl]; [left; now apply in_rev|].
      destruct (IH [] line Hl Hc) as [[]|H]. right. now right.
    + destruct (IH (d :: cur) line Hl Hc) as [[<-|H]|H].
      * right. now left.
      * now left.
      * right. now right.
Qed.

Lemma In_split c (s line : jstring) sep :
  In line (split s sep) -> In c line -> In c s.
Proof.
  intros Hl Hc. destruct (@In_split_on sep c s [] line Hl Hc) as [[]|H]. exact H.
Qed.

(* ================================================================== *)
(** * More on the manual line parser *)
(* ================================================================== *)

(** A pattern with a literal character only matches in a text that has the
    character. *)
Lemma exec_has_literal (pre post : regex) (c : char) (t : jstring) (M : Match) :
  exec (pre ++ chr c :: post) t = Some M -> In c t.
Proof.
  unfold exec. intros H.
  destruct (search_sound _ _ _ _ _ H) as (a & rest & bol' & -> & _ & Hr).
  destruct (run_app_inv _ _ _ _ _ _ Hr)
    as (m1 & g1 & m2 & g2 & bol2 & rest2 & -> & _ & _ & _ & _ & Hr2).
  rewrite run_chr in Hr2. destruct rest2 as [|d rest2]; [discriminate|].
  destruct (N.eqb c d) eqn:E; [|discriminate]. apply N.eqb_eq in E. subst d.
  apply in_or_app. right. apply in_or_app. right. now left.
Qed.

Lemma parse_line_needs_colon (line : jstring) :
  ~ In colon line -> parse_line line = None.
Proof.
  intros H. unfold parse_line.
  assert (Ht : ~ In colon (trim line)) by (intros Hin; apply H; now apply In_trim).
  destruct (is_empty (trim line)); [reflexivity|].
  destruct (exec re_format1 (trim line)) as [M|] eqn:E1.
  { exfalso. apply Ht.
    change re_format1
      with (([Bol] ++ str "[" ++ [Cls true Plus (none_of "]")] ++ str "]"
             ++ [Cls false Star is_space; Cls true Plus (none_of ":")])
            ++ chr colon :: [Cls false Star is_space; Cls true Plus dot; Eol]) in E1.
    exact (exec_has_literal _ _ _ _ _ E1). }
  destruct (exec re_format2 (trim line)) as [M|] eqn:E2.
  { exfalso. apply Ht.
    change re_format2
      with ([Bol; Cls true Plus not_space; Cls false Plus is_space;
             Cls true Plus (none_of ":")]
            ++ chr colon :: [Cls false Star is_space; Cls true Plus dot; Eol]) in E2.
    exact (exec_has_literal _ _ _ _ _ E2). }
  destruct (exec re_format3 (trim line)) as [M|] eqn:E3; [|reflexivity].
  exfalso. apply Ht.
  change re_format3
    with ([Bol; Cls true Plus (none_of ":")]
          ++ chr colon :: [Cls false Star is_space; Cls true Plus dot; Eol]) in E3.
  exact (exec_has_literal _ _ _ _ _ E3).
Qed.

Lemma flat_map_nil (A B : Type) (f : A -> list B) (l : list A) :
  (forall x, In x l -> f x = []) -> flat_map f l = [].
Proof.
  induction l as [|x l IH]; intros H; simpl; [reflexivity|].
  rewrite (H x (or_introl eq_refl)). apply IH. intros y Hy. apply H. now right.
Qed.

(** X1: a content without any colon gives no record, whatever its lines
    are: each of the three patterns needs a colon. *)
Theorem X1_no_colon_no_record (content : jstring) :
  ~ In colon content -> parseChatManually content = [].
Proof.
  intros H. rewrite parseChatManually_lines. apply flat_map_nil.
  intros line Hl. rewrite parse_line_needs_colon; [reflexivity|].
  intros Hc. apply H. exact (In_split _ _ _ _ Hl Hc).
Qed.

Lemma X1_witness :
  ~ In colon (lit "no colon on this line")
  /\ parseChatManually (lit "no colon on this line") = [].
Proof.
  assert (H : ~ In colon (lit "no colon on this line")).
  { intros H. vm_compute in H. repeat (destruct H as [H|H]; [discriminate|]). exact H. }
  split; [exact H | exact (X1_no_colon_no_record _ H)].
Defined.

Lemma run_plus cap p r bol s :
  run (Cls cap Plus p :: r) bol s =
  match s with
  | c :: s' => if p c then emit cap (cons_taken c (greedy p (run r) false s')) else None
  | [] => None
  end.
Proof. reflexivity. Qed.

(** The last group of a pattern that ends with a captured run of one or
    more characters of a line and the end assertion: it is not empty and
    the text ends with it. *)
Lemma exec_last_group (pre : regex) (t : jstring) (M : Match) :
  exec (pre ++ [Cls true Plus dot; Eol]) t = Some M ->
  exists u g, t = u ++ g /\ g <> [] /\ group M (S (caps pre)) = g.
Proof.
  unfold exec. intros H.
  destruct (search_sound _ _ _ _ _ H) as (a & rest & bol' & -> & _ & Hr).
  destruct (run_app_inv _ _ _ _ _ _ Hr)
    as (m1 & g1 & m2 & g2 & bol2 & rest2 & -> & _ & Hg & Hl & _ & Hr2).
  rewrite run_plus in Hr2. destruct rest2 as [|c rest2]; [discriminate|].
  destruct (dot c); [|discriminate].
  destruct (greedy dot (run [Eol]) false rest2) as [[t' [m' gs']]|] eqn:G; [|discriminate].
  cbn [emit cons_taken] in Hr2. injection Hr2 as <- <-.
  destruct (greedy_sound _ _ _ _ _ _ _ G) as (rest3 & bol3 & -> & _ & Hk).
  cbn [run] in Hk. destruct rest3; [|discriminate]. injection Hk as <- <-.
  exists (a ++ m1), (c :: t'). rewrite app_nil_r, <- app_assoc.
  split; [reflexivity|]. split; [discriminate|].
  unfold group. rewrite Hg. simpl pred. rewrite <- Hl. now rewrite nth_middle.
Qed.

(** The message of the record of a line is not empty. *)
Lemma parse_line_message (line : jstring) (m : Msg jstring) :
  parse_line line = Some m -> message m <> [].
Proof.
  unfold parse_line.
  destruct (is_empty (trim line)); [discriminate|].
  destruct (exec re_format1 (trim line)) as [M|] eqn:E1.
  { intros H. injection H as <-. cbn [message].
    change re_format1
      with (([Bol] ++ str "[" ++ [Cls true Plus (none_of "]")] ++ str "]"
             ++ [Cls false Star is_space; Cls true Plus (none_of ":")] ++ str ":"
             ++ [Cls false Star is_space]) ++ [Cls true Plus dot; Eol]) in E1.
    destruct (exec_last_group _ _ _ E1) as (u & g & Ht & Hg & Hgroup).
    change (group M 3 = g) in Hgroup. rewrite Hgroup.
    exact (trim_suffix_nonempty _ _ _ Ht Hg). }
  destruct (exec re_format2 (trim line)) as [M|] eqn:E2.
  { intros H. injection H as <-. cbn [message].
    change re_format2
      with (([Bol; Cls true Plus not_space; Cls false Plus is_space;
              Cls true Plus (none_of ":")] ++ str ":"
             ++ [Cls false Star is_space]) ++ [Cls true Plus dot; Eol]) in E2.
    destruct (exec_last_group _ _ _ E2) as (u & g & Ht & Hg & Hgroup).
    change (group M 3 = g) in Hgroup. rewrite Hgroup.
    exact (trim_suffix_nonempty _ _ _ Ht Hg). }
  destruct (exec re_format3 (trim line)) as [M|] eqn:E3; [|discriminate].
  intros H. injection H as <-. cbn [message].
  change re_format3
    with (([Bol; Cls true Plus (none_of ":")] ++ str ":"
           ++ [Cls false Star is_space]) ++ [Cls true Plus dot; Eol]) in E3.
  destruct (exec_last_group _ _ _ E3) as (u & g & Ht & Hg & Hgroup).
  change (group M 2 = g) in Hgroup. rewrite Hgroup.
  exact (trim_suffix_nonempty _ _ _ Ht Hg).
Qed.

Lemma In_parseChatManually (content : jstring) (m : Msg jstring) :
  In m (parseChatManually content) ->
  exists line, In line (split content newline) /\ parse_line line = Some m.
Proof.
  rewrite parseChatManually_lines. intros H.
  apply in_flat_map in H as (line & Hl & Hm). exists line. split; [exact Hl|].
  destruct (parse_line line) as [m'|]; simpl in Hm; [|contradiction].
  destruct Hm as [->|[]]. reflexivity.
Qed.

(** X2: every record of the manual parser has a non-empty message: the
    message group takes at least one character and runs to the end of the
    trimmed line, whose last character is not white space. *)
Theorem X2_manual_message_not_empty (content : jstring) (m : Msg jstring) :
  In m (parseChatManually content) -> message m <> [].
Proof.
  intros H. destruct (In_parseChatManually _ _ H) as (line & _ & Hline).
  exact (parse_line_message _ _ Hline).
Qed.

Lemma X2_witness :
  In {| sender := lit "Alice"; timestamp := lit "Unknown"; message := lit "Hello there" |}
     (parseChatManually (text alice_file))
  /\ lit "Hello there" <> [].
Proof.
  assert (H : In {| sender := lit "Alice"; timestamp := lit "Unknown";
                    message := lit "Hello there" |}
                 (parseChatManually (text alice_file))) by (vm_compute; now left).
  split; [exact H | exact (X2_manual_message_not_empty _ _ H)].
Defined.

Lemma eqs_refl (a : jstring) : eqs a a = true.
Proof. induction a as [|x a IH]; simpl; [reflexivity|]. now rewrite N.eqb_refl. Qed.

(** X3: the three fields of every record of the manual parser have no
    white space at either end. *)
Theorem X3_manual_fields_trimmed (content : jstring) (m : Msg jstring) :
  In m (parseChatManually content) ->
  trim (sender m) = sender m /\ trim (timestamp m) = timestamp m
  /\ trim (message m) = message m.
Proof.
  intros H. destruct (In_parseChatManually _ _ H) as (line & _ & Hline).
  unfold parse_line in Hline.
  destruct (is_empty (trim line)); [discriminate|].
  destruct (exec re_format1 (trim line)) as [M|].
  { injection Hline as <-. cbn [sender timestamp message].
    now rewrite !trim_idempotent. }
  destruct (exec re_format2 (trim line)) as [M|].
  { injection Hline as <-. cbn [sender timestamp message].
    now rewrite !trim_idempotent. }
  destruct (exec re_format3 (trim line)) as [M|]; [|discriminate].
  injection Hline as <-. cbn [sender timestamp message].
  rewrite !trim_idempotent. repeat split; reflexivity.
Qed.

Lemma X3_witness :
  In {| sender := lit "Alice"; timestamp := lit "10:00"; message := lit "hi" |}
     (parseChatManually (lit "   [ 10:00 ]   Alice  :   hi   "))
  /\ trim (lit "Alice") = lit "Alice".
Proof.
  assert (H : In {| sender := lit "Alice"; timestamp := lit "10:00"; message := lit "hi" |}
                 (parseChatManually (lit "   [ 10:00 ]   Alice  :   hi   ")))
    by (vm_compute; now left).
  split; [exact H | exact (proj1 (X3_manual_fields_trimmed _ _ H))].
Defined.

Lemma flat_map_length_le (A B : Type) (f : A -> list B) (l : list A) :
  (forall x, length (f x) <= 1) -> length (flat_map f l) <= length l.
Proof.
  intros H. induction l as [|x l IH]; simpl; [lia|].
  rewrite length_app. specialize (H x). lia.
Qed.

(** X4: the manual parser gives at most one record per line: no more
    records than one plus the number of line feeds of the content. *)
Theorem X4_manual_at_most_one_per_line (content : jstring) :
  length (parseChatManually content) <= S (count_occ N.eq_dec content newline).
Proof.
  rewrite parseChatManually_lines.
  unfold split. rewrite <- (split_on_length newline content []).
  apply flat_map_length_le. intros line. destruct (parse_line line); simpl; lia.
Qed.

(** X5: the manual parser works line by line: the records of two contents
    joined by a line feed are the records of the first followed by the
    records of the second. *)
Theorem X5_manual_line_by_line (a b : jstring) :
  parseChatManually (a ++ newline :: b) = parseChatManually a ++ parseChatManually b.
Proof.
  rewrite !parseChatManually_lines. unfold split.
  rewrite split_on_app. apply flat_map_app.
Qed.

(* ================================================================== *)
(** * The clean-up on any text with a bracket span *)
(* ================================================================== *)

Lemma In_trimEnd c (s : jstring) : In c (trimEnd s) -> In c s.
Proof.
  unfold trimEnd. intros H. apply in_rev in H. apply In_trimStart in H.
  now apply in_rev in H.
Qed.

Lemma bracketed_app (pre mid post : jstring) :
  pre ++ bracketed mid ++ post = (pre ++ open_bracket :: mid) ++ close_bracket :: post.
Proof.
  unfold bracketed. cbn [app]. rewrite <- !app_assoc. reflexivity.
Qed.

Lemma within_trim (o c : char) (mid pre post t : jstring) :
  is_space o = false -> is_space c = false ->
  within o c mid pre post t -> within o c mid pre post (trim t).
Proof.
  intros Ho Hc (pre' & post' & -> & Hpre & Hpost).
  exists (trimStart pre'), (trimEnd post'). split.
  - unfold trim. rewrite (trimStart_app_nonspace pre' o _ Ho).
    change (trimStart pre' ++ o :: mid ++ c :: post')
      with (trimStart pre' ++ (o :: mid) ++ c :: post').
    rewrite app_assoc, (trimEnd_app_nonspace _ c post' Hc), <- app_assoc. reflexivity.
  - split; intros x Hx; [apply Hpre; now apply In_trimStart | apply Hpost; now apply In_trimEnd].
Qed.

(** The bracket span, in terms of [within]. *)
Lemma spans_within (mid t : jstring) :
  spans mid t <->
  exists pre post, within open_bracket close_bracket mid pre post t
                   /\ ~ In open_bracket pre /\ ~ In close_bracket post.
Proof.
  split.
  - intros (pre & post & -> & Hpre & Hpost). exists pre, post. split; [|auto].
    exists pre, post. split; [|split; apply incl_refl].
    unfold bracketed. cbn [app]. now rewrite <- app_assoc.
  - intros (pre & post & (pre' & post' & -> & Hi1 & Hi2) & Hpre & Hpost).
    exists pre', post'.
    split; [|split; intros H; [apply Hpre, Hi1, H | apply Hpost, Hi2, H]].
    unfold bracketed. cbn [app]. now rewrite <- app_assoc.
Qed.

Lemma spans_trim (mid t : jstring) : spans mid t -> spans mid (trim t).
Proof.
  rewrite !spans_within. intros (pre & post & Hw & H). exists pre, post.
  split; [|exact H]. apply within_trim; [reflexivity | reflexivity | exact Hw].
Qed.

(** A text without a given character, at the head of a text, lies before
    the first occurrence of the character. *)
Lemma prefix_before (c : char) (m : jstring) : forall rest pre x,
  m ++ rest = pre ++ c :: x -> ~ In c m ->
  exists pre2, pre = m ++ pre2 /\ rest = pre2 ++ c :: x.
Proof.
  induction m as [|d m IH]; intros rest pre x H Hm; simpl in H.
  - exists pre. auto.
  - destruct pre as [|e pre]; simpl in H.
    + injection H as -> _. exfalso. apply Hm. now left.
    + injection H as -> H.
      destruct (IH rest pre x H) as (pre2 & -> & ->).
      * intros Hin. apply Hm. now right.
      * exists pre2. auto.
Qed.

(** A text without a given character, at the end of a text, lies after the
    last occurrence of the character. *)
Lemma suffix_after (c : char) (m a y post : jstring) :
  a ++ m = y ++ c :: post -> ~ In c m ->
  exists post2, post = post2 ++ m /\ a = y ++ c :: post2.
Proof.
  intros H Hm.
  apply (f_equal (@rev char)) in H. rewrite !rev_app_distr in H. simpl in H.
  rewrite <- app_assoc in H. simpl in H.
  destruct (prefix_before c (rev m) (rev a) (rev post) (rev y) H) as (p2 & Hp & Ha).
  { intros Hin. apply Hm. now apply in_rev. }
  exists (rev p2). split.
  - apply (f_equal (@rev char)) in Hp. rewrite rev_involutive, rev_app_distr in Hp.
    now rewrite rev_involutive in Hp.
  - apply (f_equal (@rev char)) in Ha. rewrite rev_involutive, rev_app_distr in Ha.
    simpl in Ha. rewrite rev_involutive, <- app_assoc in Ha. exact Ha.
Qed.

Lemma may_match_none (r : regex) (c : char) (m : jstring) :
  may_match r c = false -> forallb (may_match r) m = true -> ~ In c m.
Proof.
  intros Hc Hm Hin. rewrite forallb_forall in Hm. rewrite (Hm c Hin) in Hc. discriminate.
Qed.

Lemma search_bol_false (r : regex) : forall s i, search (Bol :: r) false i s = None.
Proof. induction s as [|c s IH]; intros i; simpl; [reflexivity | apply IH]. Qed.

(** An anchored pattern only matches at the start. *)
Lemma exec_bol (r : regex) (s : jstring) (M : Match) :
  exec (Bol :: r) s = Some M ->
  index M = 0 /\ run r true s = Some (matched M, groups M).
Proof.
  unfold exec. intros H.
  destruct s as [|c s]; simpl in H.
  - destruct (run r true []) as [[m gs]|]; [|discriminate]. now injection H as <-.
  - destruct (run r true (c :: s)) as [[m gs]|].
    + now injection H as <-.
    + now rewrite search_bol_false in H.
Qed.

(** Removing the match of an anchored pattern that cannot consume the
    opening delimiter keeps what the delimiters hold. *)
Lemma within_replace_prefix (r : regex) (o c : char) (mid pre post t : jstring) :
  may_match r o = false ->
  within o c mid pre post t -> within o c mid pre post (replace t (Bol :: r) []).
Proof.
  intros Hr Hw. pose proof (replace_sound t (Bol :: r)) as H.
  destruct (exec (Bol :: r) t) as [M|] eqn:E; [|now rewrite H].
  destruct H as (a & b & bol & Ht & Ha & -> & _).
  destruct (exec_bol _ _ _ E) as (Hi & Hrun).
  rewrite Hi in Ha. destruct a; [|discriminate]. simpl in Ht |- *.
  destruct (run_sound _ _ _ _ _ Hrun) as (_ & _ & Hall & _).
  destruct Hw as (pre' & post' & Hform & Hpre & Hpost).
  rewrite Hform in Ht. symmetry in Ht.
  destruct (prefix_before o (matched M) b pre' _ Ht (may_match_none _ _ _ Hr Hall))
    as (pre2 & -> & ->).
  exists pre2, post'. split; [reflexivity|]. split; [|exact Hpost].
  intros x Hx. apply Hpre. apply in_or_app. now right.
Qed.

(** Removing the match of a pattern that ends at the end of the text and
    cannot consume the closing delimiter keeps what the delimiters hold. *)
Lemma within_replace_suffix (r : regex) (o c : char) (mid pre post t : jstring) :
  may_match r c = false ->
  within o c mid pre post t -> within o c mid pre post (replace t (r ++ [Eol]) []).
Proof.
  intros Hr Hw. pose proof (replace_sound t (r ++ [Eol])) as H.
  destruct (exec (r ++ [Eol]) t) as [M|] eqn:E; [|now rewrite H].
  destruct H as (a & b & bol & Ht & _ & -> & Hrun).
  destruct (run_eol _ _ _ _ _ Hrun) as (Hend & Hall & _).
  assert (Hb : b = []).
  { apply (f_equal (@length char)) in Hend. rewrite length_app in Hend.
    destruct b; [reflexivity | simpl in Hend; lia]. }
  subst b. rewrite app_nil_r in *.
  destruct Hw as (pre' & post' & Hform & Hpre & Hpost).
  rewrite Hform in Ht.
  change (pre' ++ o :: mid ++ c :: post') with (pre' ++ (o :: mid) ++ c :: post') in Ht.
  rewrite app_assoc in Ht. symmetry in Ht.
  destruct (suffix_after c (matched M) a _ post' Ht (may_match_none _ _ _ Hr Hall))
    as (post2 & -> & ->).
  exists pre', post2. split.
  - rewrite <- app_assoc. reflexivity.
  - split; [exact Hpre|]. intros x Hx. apply Hpost. apply in_or_app. now left.
Qed.

Lemma spans_replace_prefix (r : regex) (mid t : jstring) :
  may_match r open_bracket = false ->
  spans mid t -> spans mid (replace t (Bol :: r) []).
Proof.
  intros Hr. rewrite !spans_within. intros (pre & post & Hw & H). exists pre, post.
  split; [|exact H]. now apply within_replace_prefix.
Qed.

Lemma spans_replace_suffix (r : regex) (mid t : jstring) :
  may_match r close_bracket = false ->
  spans mid t -> spans mid (replace t (r ++ [Eol]) []).
Proof.
  intros Hr. rewrite !spans_within. intros (pre & post & Hw & H). exists pre, post.
  split; [|exact H]. now apply within_replace_suffix.
Qed.

Lemma greedy_cons (A : Type) p (k : bool -> jstring -> option A) bol c (s : jstring) :
  greedy p k bol (c :: s) =
  if p c then
    match greedy p k false s with
    | Some (t, a) => Some (c :: t, a)
    | None => option_map (pair []) (k bol (c :: s))
    end
  else option_map (pair []) (k bol (c :: s)).
Proof. reflexivity. Qed.

Lemma greedy_any_none (post : jstring) : forall bol,
  ~ In close_bracket post ->
  greedy any (run [chr close_bracket]) bol post = None.
Proof.
  induction post as [|d post IH]; intros bol H; [reflexivity|].
  rewrite greedy_cons. cbn [any]. rewrite IH by (intros Hin; apply H; now right).
  rewrite run_chr.
  destruct (N.eqb close_bracket d) eqn:E; [|reflexivity].
  apply N.eqb_eq in E. exfalso. apply H. now left.
Qed.

(** The greedy class of all characters, before a closing bracket, takes
    everything up to the last closing bracket. *)
Lemma greedy_any_to_last_bracket (post : jstring) :
  ~ In close_bracket post ->
  forall (t : jstring) bol,
    greedy any (run [chr close_bracket]) bol (t ++ close_bracket :: post) =
    Some (t, ([close_bracket], [])).
Proof.
  intros Hpost. induction t as [|c t IH]; intros bol.
  - cbn [app]. rewrite greedy_cons. cbn [any].
    rewrite (greedy_any_none post false Hpost), run_chr.
    change (N.eqb close_bracket close_bracket) with true. reflexivity.
  - cbn [app]. rewrite greedy_cons. cbn [any]. now rewrite IH.
Qed.

(** The bracket pattern finds the span from the first opening bracket to
    the last closing bracket. *)
Lemma exec_re_array_spans (mid t : jstring) :
  spans mid t -> option_map matched (exec re_array t) = Some (bracketed mid).
Proof.
  intros (pre & post & -> & Hpre & Hpost). unfold exec.
  change re_array with [chr open_bracket; Cls false Star any; chr close_bracket].
  generalize 0 as i. generalize true as bol.
  induction pre as [|d pre IH]; intros bol i.
  - assert (H : run [chr open_bracket; Cls false Star any; chr close_bracket] bol
                    ([] ++ bracketed mid ++ post) = Some (bracketed mid, [])).
    { unfold bracketed. cbn [app]. rewrite run_chr.
      change (N.eqb open_bracket open_bracket) with true. cbv iota.
      change (run [Cls false Star any; chr close_bracket] false
                ((mid ++ [close_bracket]) ++ post))
        with (emit false (greedy any (run [chr close_bracket]) false
                            ((mid ++ [close_bracket]) ++ post))).
      rewrite <- app_assoc. cbn [app].
      rewrite (greedy_any_to_last_bracket post Hpost). reflexivity. }
    now rewrite (search_hit _ _ i _ H).
  - cbn [app]. rewrite search_miss.
    + apply IH. intros Hin. apply Hpre. now right.
    + rewrite run_chr. destruct (N.eqb open_bracket d) eqn:E; [|reflexivity].
      apply N.eqb_eq in E. exfalso. apply Hpre. now left.
Qed.

(** X6: whatever stands around it (prose, a code fence, a wrapping
    object), the clean-up reduces a text to its span from the first
    opening bracket to the last closing bracket, as soon as the text has
    such a span. *)
Theorem X6_sanitize_extracts_bracket_span (pre mid post : jstring) :
  ~ In open_bracket pre ->
  ~ In close_bracket post ->
  sanitize (pre ++ bracketed mid ++ post) = bracketed mid.
Proof.
  intros Hpre Hpost.
  assert (H0 : spans mid (trim (pre ++ bracketed mid ++ post))).
  { apply spans_trim. now exists pre, post. }
  unfold sanitize. cbv zeta.
  set (t0 := trim (pre ++ bracketed mid ++ post)) in *.
  assert (Hclose : forall t, spans mid t -> spans mid (replace t re_fence_close [])).
  { intros t Ht.
    change re_fence_close with (([Cls false Star is_space] ++ str "```") ++ [Eol]).
    now apply spans_replace_suffix. }
  assert (H1 : spans mid
                 (trim (if startsWith t0 (lit "```json")
                        then replace (replace t0 re_fence_json []) re_fence_close []
                        else if startsWith t0 (lit "```")
                             then replace (replace t0 re_fence_open []) re_fence_close []
                             else t0))).
  { apply spans_trim.
    destruct (startsWith t0 (lit "```json")).
    - apply Hclose.
      change re_fence_json with (Bol :: str "```json" ++ [Cls false Star is_space]).
      now apply spans_replace_prefix.
    - destruct (startsWith t0 (lit "```")); [|exact H0].
      apply Hclose.
      change re_fence_open with (Bol :: str "```" ++ [Cls false Star is_space]).
      now apply spans_replace_prefix. }
  pose proof (exec_re_array_spans _ _ H1) as E.
  destruct (exec re_array _) as [M|]; [|discriminate].
  simpl in E. injection E as ->.
  rewrite replace_before_json_bracket_form, replace_after_json_bracket_form.
  apply trim_bracket_form.
Qed.

Lemma X6_witness :
  ~ In open_bracket (lit "```json ")
  /\ ~ In close_bracket (lit " ``` hope it helps")
  /\ sanitize (lit "```json " ++ bracketed (lit "1, [2], 3") ++ lit " ``` hope it helps") =
     lit "[1, [2], 3]".
Proof.
  assert (Ha : ~ In open_bracket (lit "```json ")).
  { intros H. vm_compute in H. repeat (destruct H as [H|H]; [discriminate|]). exact H. }
  assert (Hb : ~ In close_bracket (lit " ``` hope it helps")).
  { intros H. vm_compute in H. repeat (destruct H as [H|H]; [discriminate|]). exact H. }
  split; [exact Ha|]. split; [exact Hb|].
  exact (X6_sanitize_extracts_bracket_span _ (lit "1, [2], 3") _ Ha Hb).
Defined.

Lemma In_replace (c : char) (t : jstring) (r : regex) :
  In c (replace t r []) -> In c t.
Proof.
  pose proof (replace_sound t r) as H.
  destruct (exec r t) as [M|]; [|now rewrite H].
  destruct H as (a & b & bol & -> & _ & -> & _).
  intros Hin. apply in_app_or in Hin as [Hin|Hin]; apply in_or_app; [now left|].
  right. apply in_or_app. now right.
Qed.

(** A greedy class at the end of a pattern takes a whole text of its
    class. *)
Lemma greedy_all (p : char -> bool) (t : jstring) : forall bol,
  forallb p t = true -> greedy p (run []) bol t = Some (t, ([], [])).
Proof.
  induction t as [|c t IH]; intros bol H; [reflexivity|].
  simpl in H. apply andb_true_iff in H as [Hc Ht].
  rewrite greedy_cons, Hc, (IH false Ht). reflexivity.
Qed.

Lemma replace_before_json_all (t : jstring) :
  ~ In open_bracket t -> ~ In open_brace t -> replace t re_before_json [] = [].
Proof.
  intros Hb Hc.
  assert (Hall : forallb (none_of "{[") t = true).
  { apply forallb_forall. intros c Hin. unfold none_of. cbn [lit map list_ascii_of_string existsb].
    destruct (N.eqb c (N_of_ascii "{")) eqn:E1.
    { apply N.eqb_eq in E1. subst. contradiction. }
    destruct (N.eqb c (N_of_ascii "[")) eqn:E2.
    { apply N.eqb_eq in E2. subst. contradiction. }
    reflexivity. }
  assert (Hrun : run re_before_json true t = Some (t ++ [], [])).
  { change (run re_before_json true t)
      with (emit false (greedy (none_of "{[") (run []) true t)).
    now rewrite (greedy_all _ t true Hall). }
  unfold replace, exec. rewrite (search_hit _ _ 0 _ Hrun). cbn [index matched].
  rewrite app_nil_r. simpl. now rewrite skipn_all.
Qed.

Lemma sanitize_without_json (t : jstring) :
  ~ In open_bracket t -> ~ In open_brace t -> sanitize t = [].
Proof.
  intros Hb Hc. unfold sanitize. cbv zeta.
  set (t1 := trim (if startsWith (trim t) (lit "```json")
                   then replace (replace (trim t) re_fence_json []) re_fence_close []
                   else if startsWith (trim t) (lit "```")
                        then replace (replace (trim t) re_fence_open []) re_fence_close []
                        else trim t)).
  assert (Hsub : forall c, In c t1 -> In c t).
  { intros c Hin. unfold t1 in Hin. apply In_trim in Hin.
    destruct (startsWith (trim t) (lit "```json")).
    - apply In_replace, In_replace, In_trim in Hin. exact Hin.
    - destruct (startsWith (trim t) (lit "```")).
      + apply In_replace, In_replace, In_trim in Hin. exact Hin.
      + now apply In_trim in Hin. }
  assert (Hnone : exec re_array t1 = None).
  { destruct (exec re_array t1) as [M|] eqn:E; [|reflexivity].
    exfalso. apply Hb, Hsub.
    change re_array
      with ([] ++ chr open_bracket :: [Cls false Star any; chr close_bracket]) in E.
    exact (exec_has_literal _ _ _ _ _ E). }
  rewrite Hnone.
  rewrite replace_before_json_all.
  - reflexivity.
  - intros Hin. apply Hb. now apply Hsub.
  - intros Hin. apply Hc. now apply Hsub.
Qed.


(** X7: a text with no opening bracket and no opening brace is cleaned up
    to the empty text: without a bracket span, everything before the first
    brace or bracket is stripped, and that is everything. *)
Theorem X7_sanitize_without_json_is_empty (t : jstring) :
  ~ In open_bracket t -> ~ In open_brace t -> sanitize t = [].
Proof. exact (sanitize_without_json t). Qed.

Lemma X7_witness :
  ~ In open_bracket garbage /\ ~ In open_brace garbage /\ sanitize garbage = [].
Proof.
  assert (Ha : ~ In open_bracket garbage).
  { intros H. vm_compute in H. repeat (destruct H as [H|H]; [discriminate|]). exact H. }
  assert (Hb : ~ In open_brace garbage).
  { intros H. vm_compute in H. repeat (destruct H as [H|H]; [discriminate|]). exact H. }
  split; [exact Ha|]. split; [exact Hb|].
  exact (X7_sanitize_without_json_is_empty _ Ha Hb).
Defined.

Lemma trim_enclosed (o c : char) (mid : jstring) :
  is_space o = false -> is_space c = false -> trim (o :: mid ++ [c]) = o :: mid ++ [c].
Proof.
  intros Ho Hc. unfold trim.
  change (o :: mid ++ [c]) with ([] ++ o :: (mid ++ [c])) at 1.
  rewrite (trimStart_app_nonspace [] o (mid ++ [c]) Ho).
  change (trimStart [] ++ o :: mid ++ [c]) with ((o :: mid) ++ c :: []).
  now rewrite (trimEnd_app_nonspace (o :: mid) c [] Hc).
Qed.

(** A greedy class at the end of a pattern stops at the first character
    that is not of its class. *)
Lemma greedy_stops (p : char -> bool) (c : char) (x : jstring) : forall (u : jstring) bol,
  forallb p u = true -> p c = false ->
  greedy p (run []) bol (u ++ c :: x) = Some (u, ([], [])).
Proof.
  induction u as [|d u IH]; intros bol Hu Hc.
  - cbn [app]. rewrite greedy_cons, Hc. reflexivity.
  - simpl in Hu. apply andb_true_iff in Hu as [Hd Hu].
    cbn [app]. rewrite greedy_cons, Hd, (IH false Hu Hc). reflexivity.
Qed.

Lemma replace_before_json_stops (u : jstring) (c : char) (x : jstring) :
  forallb (none_of "{[") u = true -> none_of "{[" c = false ->
  replace (u ++ c :: x) re_before_json [] = c :: x.
Proof.
  intros Hu Hc.
  assert (Hrun : run re_before_json true (u ++ c :: x) = Some (u ++ [], [])).
  { change (run re_before_json true (u ++ c :: x))
      with (emit false (greedy (none_of "{[") (run []) true (u ++ c :: x))).
    now rewrite (greedy_stops _ c x u true Hu Hc). }
  unfold replace, exec. rewrite (search_hit _ _ 0 _ Hrun). cbn [index matched].
  rewrite app_nil_r, Nat.add_0_l. cbn [firstn app].
  now rewrite skipn_app, skipn_all, Nat.sub_diag.
Qed.

(** A greedy class before the end assertion cannot pass a character that
    is not of its class. *)
Lemma greedy_eol_none (p : char -> bool) (c : char) (post : jstring) :
  p c = false -> forall (u : jstring) bol, greedy p (run [Eol]) bol (u ++ c :: post) = None.
Proof.
  intros Hc. induction u as [|d u IH]; intros bol.
  - cbn [app]. rewrite greedy_cons, Hc. reflexivity.
  - cbn [app]. rewrite greedy_cons, IH. now destruct (p d).
Qed.

Lemma greedy_eol_all (p : char -> bool) : forall (t : jstring) bol,
  forallb p t = true -> greedy p (run [Eol]) bol t = Some (t, ([], [])).
Proof.
  induction t as [|c t IH]; intros bol H; [reflexivity|].
  simpl in H. apply andb_true_iff in H as [Hc Ht].
  rewrite greedy_cons, Hc, (IH false Ht). reflexivity.
Qed.

(** The pattern of what follows the last closing brace or bracket finds
    exactly that. *)
Lemma search_after_json_last (c : char) (post : jstring) :
  none_of "}]" c = false -> forallb (none_of "}]") post = true ->
  forall (u : jstring) bol i,
    search re_after_json bol i (u ++ c :: post) =
    Some {| index := i + S (length u); matched := post; groups := [] |}.
Proof.
  intros Hc Hpost.
  assert (Hmiss : forall (u : jstring) bol, run re_after_json bol (u ++ c :: post) = None).
  { intros u bol.
    change (run re_after_json bol (u ++ c :: post))
      with (emit false (greedy (none_of "}]") (run [Eol]) bol (u ++ c :: post))).
    now rewrite (greedy_eol_none _ c post Hc u bol). }
  induction u as [|d u IH]; intros bol i.
  - cbn [app]. rewrite search_miss by (apply (Hmiss [])).
    assert (Hrun : run re_after_json false post = Some (post ++ [], [])).
    { change (run re_after_json false post)
        with (emit false (greedy (none_of "}]") (run [Eol]) false post)).
      now rewrite (greedy_eol_all _ post false Hpost). }
    rewrite (search_hit _ _ (S i) _ Hrun), app_nil_r. cbn [length].
    now rewrite Nat.add_1_r.
  - cbn [app]. rewrite search_miss by (apply (Hmiss (d :: u))).
    rewrite IH. cbn [length]. f_equal. f_equal. lia.
Qed.

Lemma replace_after_json_last (u : jstring) (c : char) (post : jstring) :
  none_of "}]" c = false -> forallb (none_of "}]") post = true ->
  replace (u ++ c :: post) re_after_json [] = u ++ [c].
Proof.
  intros Hc Hpost. unfold replace, exec.
  rewrite (search_after_json_last c post Hc Hpost u true 0). cbn [index matched].
  rewrite Nat.add_0_l.
  assert (Es : u ++ c :: post = (u ++ [c]) ++ post) by (now rewrite <- app_assoc).
  assert (E : S (length u) = length (u ++ [c])) by (rewrite length_app; simpl; lia).
  rewrite Es, E, firstn_app, firstn_all, Nat.sub_diag. cbn [firstn].
  rewrite <- length_app, skipn_all. now rewrite !app_nil_r.
Qed.

(** X24: a text with no opening bracket that holds an object, from its
    first opening brace to its last closing brace, with no closing
    bracket after it, is cleaned up to that object, whatever stands
    around it. *)
Theorem X24_sanitize_extracts_object (pre mid post : jstring) :
  ~ In open_bracket (pre ++ open_brace :: mid ++ close_brace :: post) ->
  ~ In open_brace pre ->
  ~ In close_brace post ->
  ~ In close_bracket post ->
  sanitize (pre ++ open_brace :: mid ++ close_brace :: post) =
  open_brace :: mid ++ [close_brace].
Proof.
  intros Hb Hpre Hpost Hpost'.
  set (t := pre ++ open_brace :: mid ++ close_brace :: post) in *.
  assert (H0 : within open_brace close_brace mid pre post (trim t)).
  { apply within_trim; [reflexivity | reflexivity |].
    exists pre, post. split; [reflexivity|]. split; apply incl_refl. }
  unfold sanitize. cbv zeta.
  set (t1 := trim (if startsWith (trim t) (lit "```json")
                   then replace (replace (trim t) re_fence_json []) re_fence_close []
                   else if startsWith (trim t) (lit "```")
                        then replace (replace (trim t) re_fence_open []) re_fence_close []
                        else trim t)).
  assert (Hsub : forall c, In c t1 -> In c t).
  { intros c Hin. unfold t1 in Hin. apply In_trim in Hin.
    destruct (startsWith (trim t) (lit "```json")).
    - apply In_replace, In_replace, In_trim in Hin. exact Hin.
    - destruct (startsWith (trim t) (lit "```")).
      + apply In_replace, In_replace, In_trim in Hin. exact Hin.
      + now apply In_trim in Hin. }
  assert (Hclose : forall s, within open_brace close_brace mid pre post s ->
                             within open_brace close_brace mid pre post
                               (replace s re_fence_close [])).
  { intros s Hs.
    change re_fence_close with (([Cls false Star is_space] ++ str "```") ++ [Eol]).
    now apply within_replace_suffix. }
  assert (H1 : within open_brace close_brace mid pre post t1).
  { unfold t1. apply within_trim; [reflexivity | reflexivity |].
    destruct (startsWith (trim t) (lit "```json")).
    - apply Hclose.
      change re_fence_json with (Bol :: str "```json" ++ [Cls false Star is_space]).
      now apply within_replace_prefix.
    - destruct (startsWith (trim t) (lit "```")); [|exact H0].
      apply Hclose.
      change re_fence_open with (Bol :: str "```" ++ [Cls false Star is_space]).
      now apply within_replace_prefix. }
  assert (Hnone : exec re_array t1 = None).
  { destruct (exec re_array t1) as [M|] eqn:E; [|reflexivity].
    exfalso. apply Hb, Hsub.
    change re_array
      with ([] ++ chr open_bracket :: [Cls false Star any; chr close_bracket]) in E.
    exact (exec_has_literal _ _ _ _ _ E). }
  rewrite Hnone.
  destruct H1 as (pre' & post' & E & Hi1 & Hi2).
  assert (Hbefore : forallb (none_of "{[") pre' = true).
  { apply forallb_forall. intros x Hx. unfold none_of.
    cbn [lit map list_ascii_of_string existsb].
    destruct (N.eqb x (N_of_ascii "{")) eqn:E1.
    { apply N.eqb_eq in E1. subst x. exfalso. apply Hpre, Hi1, Hx. }
    destruct (N.eqb x (N_of_ascii "[")) eqn:E2.
    { apply N.eqb_eq in E2. subst x. exfalso. apply Hb, Hsub. rewrite E.
      apply in_or_app. now left. }
    reflexivity. }
  assert (Hafter : forallb (none_of "}]") post' = true).
  { apply forallb_forall. intros x Hx. unfold none_of.
    cbn [lit map list_ascii_of_string existsb].
    destruct (N.eqb x (N_of_ascii "}")) eqn:E1.
    { apply N.eqb_eq in E1. subst x. exfalso. apply Hpost, Hi2, Hx. }
    destruct (N.eqb x (N_of_ascii "]")) eqn:E2.
    { apply N.eqb_eq in E2. subst x. exfalso. apply Hpost', Hi2, Hx. }
    reflexivity. }
  rewrite E.
  rewrite (replace_before_json_stops pre' open_brace _ Hbefore eq_refl).
  change (open_brace :: mid ++ close_brace :: post')
    with ((open_brace :: mid) ++ close_brace :: post').
  rewrite (replace_after_json_last (open_brace :: mid) close_brace post' eq_refl Hafter).
  exact (trim_enclosed open_brace close_brace mid eq_refl eq_refl).
Qed.

Lemma X24_witness :
  ~ In open_bracket (lit "Here you go: " ++ open_brace :: lit "a: 1" ++ close_brace :: lit " Hope it helps")
  /\ ~ In open_brace (lit "Here you go: ")
  /\ ~ In close_brace (lit " Hope it helps")
  /\ ~ In close_bracket (lit " Hope it helps")
  /\ sanitize (lit "Here you go: {a: 1} Hope it helps") = lit "{a: 1}".
Proof.
  assert (Ha : ~ In open_bracket (lit "Here you go: " ++ open_brace :: lit "a: 1"
                                    ++ close_brace :: lit " Hope it helps")).
  { intros H. vm_compute in H. repeat (destruct H as [H|H]; [discriminate|]). exact H. }
  assert (Hb : ~ In open_brace (lit "Here you go: ")).
  { intros H. vm_compute in H. repeat (destruct H as [H|H]; [discriminate|]). exact H. }
  assert (Hc : ~ In close_brace (lit " Hope it helps")).
  { intros H. vm_compute in H. repeat (destruct H as [H|H]; [discriminate|]). exact H. }
  assert (Hd : ~ In close_bracket (lit " Hope it helps")).
  { intros H. vm_compute in H. repeat (destruct H as [H|H]; [discriminate|]). exact H. }
  split; [exact Ha|]. split; [exact Hb|]. split; [exact Hc|]. split; [exact Hd|].
  exact (X24_sanitize_extracts_object (lit "Here you go: ") (lit "a: 1") (lit " Hope it helps")
           Ha Hb Hc Hd).
Defined.

(* ================================================================== *)
(** * More on the model loop *)
(* ================================================================== *)

Lemma attempt_loop_outcome (w : World) (fileContent : jstring) (candidates : list jstring) :
  forall responseText lastError,
    has_text responseText = false ->
    has_text (fst (fst (attempt_loop w fileContent candidates responseText lastError))) =
      existsb (fun model => gives_text (completions_create w model fileContent)) candidates
    /\ exists n,
         snd (attempt_loop w fileContent candidates responseText lastError) =
           map EAttempt (firstn n candidates)
         /\ (has_text (fst (fst (attempt_loop w fileContent candidates responseText lastError)))
             = false -> n = length candidates).
Proof.
  induction candidates as [|model rest IH]; intros rt le Hrt.
  - simpl. split; [exact Hrt|]. exists 0. auto.
  - simpl. destruct (completions_create w model fileContent) as [content|e]; simpl.
    + destruct (has_text content) eqn:Hc; simpl.
      * split; [exact Hc|]. exists 1. split; [reflexivity|]. rewrite Hc. discriminate.
      * destruct (IH content le Hc) as (Htext & n & Hev & Hn).
        destruct (attempt_loop w fileContent rest content le) as [[r e] tr].
        simpl in *. split; [exact Htext|]. exists (S n). simpl. rewrite Hev.
        split; [reflexivity|]. intros H. now rewrite (Hn H).
    + destruct (IH rt (Some e) Hrt) as (Htext & n & Hev & Hn).
      destruct (attempt_loop w fileContent rest rt (Some e)) as [[r e'] tr].
      simpl in *. split; [exact Htext|]. exists (S n). simpl. rewrite Hev.
      split; [reflexivity|]. intros H. now rewrite (Hn H).
Qed.

(** X8: the loop over the candidates ends with a text exactly when some
    candidate gives a non-empty text; it attempts the candidates in the
    order of the list, each at most once, stopping early only on a text:
    the attempts are the first [n] candidates, and all of them when the
    loop ends without a text, whatever the errors were. *)
Theorem X8_loop_takes_first_text (w : World) (fileContent : jstring)
    (candidates : list jstring) :
  let result := attempt_loop w fileContent candidates None None in
  has_text (fst (fst result)) =
    existsb (fun model => gives_text (completions_create w model fileContent)) candidates
  /\ exists n,
       snd result = map EAttempt (firstn n candidates)
       /\ (has_text (fst (fst result)) = false -> n = length candidates).
Proof. exact (attempt_loop_outcome w fileContent candidates None None eq_refl). Qed.

Lemma attempt_loop_earlier_stops (w : World) (fileContent : jstring) (before : list jstring) :
  forall model after e responseText lastError,
    forallb (passes_on w fileContent) before = true ->
    completions_create w model fileContent = Rejected e ->
    access_denied e = false ->
    exists responseText',
      attempt_loop_earlier w fileContent (before ++ model :: after) responseText lastError =
      (responseText', Some e, map EAttempt (before ++ [model]))
      /\ (has_text responseText = false -> has_text responseText' = false).
Proof.
  induction before as [|b rest IH]; intros model after e rt le Hb Hm He.
  - simpl. rewrite Hm, He. exists rt. auto.
  - simpl in Hb. apply andb_true_iff in Hb as [Hb Hrest]. unfold passes_on in Hb.
    simpl. destruct (completions_create w b fileContent) as [content|e'].
    + apply negb_true_iff in Hb. rewrite Hb.
      destruct (IH model after e content le Hrest Hm He) as (rt' & -> & Hrt).
      exists rt'. split; [reflexivity|]. intros _. now apply Hrt.
    + rewrite Hb.
      destruct (IH model after e rt (Some e') Hrest Hm He) as (rt' & -> & Hrt).
      exists rt'. auto.
Qed.

(** X9: in the earlier variant of the handler, an error that is not an
    access error ends the loop: after candidates that were refused access
    or answered without text, the first candidate that throws anything
    else is the last one attempted, the candidates after it are not
    tried, and the loop ends without a text and with that error. *)
Theorem X9_earlier_loop_stops_on_error (w : World) (fileContent : jstring)
    (before : list jstring) (model : jstring) (after : list jstring) (e : Thrown) :
  forallb (passes_on w fileContent) before = true ->
  completions_create w model fileContent = Rejected e ->
  access_denied e = false ->
  exists responseText,
    attempt_loop_earlier w fileContent (before ++ model :: after) None None =
    (responseText, Some e, map EAttempt (before ++ [model]))
    /\ has_text responseText = false.
Proof.
  intros Hb Hm He.
  destruct (attempt_loop_earlier_stops w fileContent before model after e None None Hb Hm He)
    as (rt & Heq & Hrt).
  exists rt. split; [exact Heq | exact (Hrt eq_refl)].
Qed.

Lemma X9_witness :
  forallb (passes_on access_then_rate_limit (text alice_file)) [lit "gpt-3.5-turbo"] = true
  /\ access_denied RateLimit = false
  /\ exists responseText,
       attempt_loop_earlier access_then_rate_limit (text alice_file) models None None =
       (responseText, Some RateLimit,
        [EAttempt (lit "gpt-3.5-turbo"); EAttempt (lit "gpt-4o-mini")])
       /\ has_text responseText = false.
Proof.
  split; [reflexivity|]. split; [reflexivity|].
  exact (X9_earlier_loop_stops_on_error access_then_rate_limit (text alice_file)
           [lit "gpt-3.5-turbo"] (lit "gpt-4o-mini") [lit "gpt-4"] RateLimit
           eq_refl eq_refl eq_refl).
Defined.

(* ================================================================== *)
(** * More on the handler *)
(* ================================================================== *)

Lemma consistent_events (w : World) (db : Store) r tr tr' db' :
  incl tr tr' -> consistent w db (r, tr, db') -> consistent w db (r, tr', db').
Proof.
  intros Hincl. unfold consistent. destruct (body r); try exact (fun H => H).
  intros (Hst & [H|(messages & e & Hin & H)]); (split; [exact Hst|]); [now left|].
  right. exists messages, e. split; [apply Hincl, Hin | exact H].
Qed.

Lemma consistent_caught (w : World) (db : Store) e tr : consistent w db (caught w e, tr, db).
Proof. unfold consistent, caught. simpl. auto. Qed.

Lemma consistent_fault (w : World) (db : Store) messages e e' tr :
  In (EInsert messages) tr ->
  insertMany_fault w messages = Some e ->
  consistent w db
    (caught w e', tr,
     db ++ firstn (documents_written w messages)
             (insertMany (fresh_id db) (stamp (Date_now w) 0 messages))).
Proof.
  intros Hin Hfault. unfold consistent, caught. cbn [body status].
  split; [now right|]. right. exists messages, e. auto.
Qed.

Lemma consistent_insert_and_reply (w : World) (db : Store) validated :
  consistent w db (insert_and_reply w db validated).
Proof.
  unfold insert_and_reply.
  destruct (insertMany_fault w validated) as [e|] eqn:E.
  - rewrite (insertChatMessages_fault w db validated E).
    apply (consistent_fault w db validated e e); [now left | exact E].
  - rewrite (insertChatMessages_ok w db validated E). unfold consistent. simpl. auto.
Qed.

Lemma consistent_with_text (w : World) (t : jstring) (db : Store) :
  consistent w db (with_text w t db).
Proof.
  unfold with_text.
  destruct (JSON_parse w (sanitize t)) as [v|].
  - destruct (validate v) as [e|validated]; [apply consistent_caught|].
    pose proof (consistent_insert_and_reply w db validated) as H.
    destruct (insert_and_reply w db validated) as [[r tr] db'].
    apply (consistent_events w db r tr); [apply incl_appr, incl_refl | exact H].
  - destruct (0 <? length (fallbackConstruct t)); [|apply consistent_caught].
    destruct (validate (VArr (map object_of (fallbackConstruct t)))) as [e|validated];
      [apply consistent_caught|].
    pose proof (consistent_insert_and_reply w db validated) as H.
    destruct (insert_and_reply w db validated) as [[r tr] db'].
    apply (consistent_events w db r tr); [apply incl_appr, incl_refl | exact H].
Qed.

Lemma consistent_without_text (w : World) (fileContent : jstring) lastError (db : Store) :
  consistent w db (without_text w fileContent lastError db).
Proof.
  unfold without_text.
  destruct (0 <? length _); [|apply consistent_caught].
  destruct (insertMany_fault w (map (msg_map VStr) (parseChatManually fileContent)))
    as [e|] eqn:E.
  - rewrite (insertChatMessages_fault w db _ E).
    apply (consistent_fault w db _ e); [right; now left | exact E].
  - rewrite (insertChatMessages_ok w db _ E). unfold consistent. simpl. auto.
Qed.

Lemma consistent_extract (w : World) (fileContent : jstring) (db : Store) :
  consistent w db (extract w fileContent db).
Proof.
  unfold extract.
  destruct (attempt_loop w fileContent models None None) as [[rt le] attempts].
  destruct rt as [[|c t]|].
  - pose proof (consistent_without_text w fileContent le db) as H.
    destruct (without_text w fileContent le db) as [[r tr] db'].
    apply (consistent_events w db r tr); [apply incl_appr, incl_refl | exact H].
  - pose proof (consistent_with_text w (c :: t) db) as H.
    destruct (with_text w (c :: t) db) as [[r tr] db'].
    apply (consistent_events w db r tr); [apply incl_appr, incl_refl | exact H].
  - pose proof (consistent_without_text w fileContent le db) as H.
    destruct (without_text w fileContent le db) as [[r tr] db'].
    apply (consistent_events w db r tr); [apply incl_appr, incl_refl | exact H].
Qed.

Lemma consistent_POST (w : World) (file : option File) (db : Store) :
  consistent w db (POST w file db).
Proof.
  unfold POST.
  assert (Hjson : forall st msg tr,
             st = 400 \/ st = 500 -> consistent w db (json st msg, tr, db)).
  { intros st msg tr H. unfold consistent, json. simpl. auto. }
  destruct (unset (OPENAI_API_KEY w)); [apply Hjson; auto|].
  destruct (unset (MONGODB_URI w)); [apply Hjson; auto|].
  destruct file as [f|]; [|apply Hjson; auto].
  destruct (maxSize <? size f)%N; [apply Hjson; auto|].
  destruct (negb (endsWith (name f) (lit ".txt"))); [apply Hjson; auto|].
  destruct (is_empty (trim (text f))); [apply Hjson; auto|].
  destruct (50000 <? N.of_nat (length (text f)))%N; [apply Hjson; auto|].
  destruct (createIndex_fault w); [apply consistent_caught|].
  pose proof (consistent_extract w (text f) db) as H.
  destruct (extract w (text f) db) as [[r tr] db'].
  apply (consistent_events w db r tr); [apply incl_appr, incl_refl | exact H].
Qed.

(** X10: whatever the request and the world, the answer of [POST] fits
    what was done to the collection.  A success body comes with status 200
    and its data are exactly the documents appended to the collection.  An
    error body comes with status 400 or 500, and the collection is as it
    was unless the store rejected during the insertion of a batch handed
    to it: then the status is 500 and the collection holds, after what it
    held, the documents the store had written when it rejected.  So an
    error answer does not mean that nothing was stored. *)
Theorem X10_answer_fits_store (w : World) (file : option File) (db : Store) :
  match body (fst (fst (POST w file db))) with
  | BSuccess _ data _ =>
      status (fst (fst (POST w file db))) = 200 /\ snd (POST w file db) = db ++ data
  | BError _ _ =>
      (status (fst (fst (POST w file db))) = 400 \/ status (fst (fst (POST w file db))) = 500)
      /\ (snd (POST w file db) = db
          \/ exists messages e,
               In (EInsert messages) (snd (fst (POST w file db)))
               /\ insertMany_fault w messages = Some e
               /\ status (fst (fst (POST w file db))) = 500
               /\ snd (POST w file db) = db ++ left_behind w db messages)
  end.
Proof.
  pose proof (consistent_POST w file db) as H.
  destruct (POST w file db) as [[r tr] db']. exact H.
Qed.

Lemma extract_events_accepted (w : World) (f : File) (db : Store) :
  (maxSize <? size f)%N = false ->
  negb (endsWith (name f) (lit ".txt")) = false ->
  is_empty (trim (text f)) = false ->
  (50000 <? N.of_nat (length (text f)))%N = false ->
  unset (OPENAI_API_KEY w) = false ->
  unset (MONGODB_URI w) = false ->
  createIndex_fault w = None ->
  accepted w f = true.
Proof.
  intros Hsize Hext Hne Hlen Hkey Huri Hcreate.
  unfold accepted, configured. cbn [forallb order_of_code passes].
  rewrite Hkey, Huri, Hne, Hcreate. apply negb_false_iff in Hext. rewrite Hext.
  apply N.ltb_ge, N.leb_le in Hsize. apply N.ltb_ge, N.leb_le in Hlen.
  now rewrite Hsize, Hlen.
Qed.

(** X11: [POST] calls the completion service, and hands records to the
    store, only for a request that passed the configuration checks and the
    five validations and for which the collection could be prepared. *)
Theorem X11_no_model_call_before_acceptance (w : World) (file : option File) (db : Store)
    (e : Event) :
  In e (snd (fst (POST w file db))) ->
  (exists model, e = EAttempt model) \/ (exists messages, e = EInsert messages) ->
  exists f, file = Some f /\ accepted w f = true.
Proof.
  intros Hin Hkind.
  assert (Hnot : forall l, incl l [EFormData; EText; ECreateCollection] -> ~ In e l).
  { intros l Hl Hel. apply Hl in Hel.
    destruct Hkind as [(model & ->)|(messages & ->)];
      repeat (destruct Hel as [Hel|Hel]; [discriminate|]); exact Hel. }
  unfold POST in Hin.
  destruct (unset (OPENAI_API_KEY w)) eqn:Hkey.
  { exfalso. apply (Hnot []); [intros x []|exact Hin]. }
  destruct (unset (MONGODB_URI w)) eqn:Huri.
  { exfalso. apply (Hnot []); [intros x []|exact Hin]. }
  assert (Hsmall : forall l, In e l -> incl l [EFormData; EText; ECreateCollection] -> False).
  { intros l Hl Hincl. exact (Hnot l Hincl Hl). }
  destruct file as [f|].
  2:{ exfalso. apply (Hsmall _ Hin). intros x [<-|[]]. now left. }
  destruct (maxSize <? size f)%N eqn:Hsize.
  { exfalso. apply (Hsmall _ Hin). intros x [<-|[]]. now left. }
  destruct (negb (endsWith (name f) (lit ".txt"))) eqn:Hext.
  { exfalso. apply (Hsmall _ Hin). intros x [<-|[]]. now left. }
  destruct (is_empty (trim (text f))) eqn:Hne.
  { exfalso. apply (Hsmall _ Hin). intros x [<-|[<-|[]]]; simpl; auto. }
  destruct (50000 <? N.of_nat (length (text f)))%N eqn:Hlen.
  { exfalso. apply (Hsmall _ Hin). intros x [<-|[<-|[]]]; simpl; auto. }
  destruct (createIndex_fault w) eqn:Hcreate.
  { exfalso. apply (Hsmall _ Hin). intros x Hx. exact Hx. }
  exists f. split; [reflexivity|].
  now apply extract_events_accepted.
Qed.

Lemma X11_witness :
  In (EAttempt (lit "gpt-4")) (snd (fst (POST all_time_out (Some alice_file) [])))
  /\ exists f, Some alice_file = Some f /\ accepted all_time_out f = true.
Proof.
  assert (H : In (EAttempt (lit "gpt-4"))
                 (snd (fst (POST all_time_out (Some alice_file) [])))).
  { vm_compute. do 5 right. now left. }
  split; [exact H|].
  exact (X11_no_model_call_before_acceptance all_time_out (Some alice_file) [] _ H
           (or_introl (ex_intro _ (lit "gpt-4") eq_refl))).
Defined.

(** X12: a failure of the store at the insertion is reported differently
    on the two paths.  When a model gave a text that parses and validates,
    the answer carries the error of the store.  When no model gave a text
    and the manual parser found records, the error of the store is dropped
    and the answer is the failure of the models (timeout or all models
    failed).  In both cases the collection keeps the documents the store
    had written when it rejected. *)
Theorem X12_store_failure_reporting (w : World) (file : File) (db : Store) (e : Thrown) :
  accepted w file = true ->
  (forall before model after t validated,
      models = before ++ model :: after ->
      no_text w (text file) before = true ->
      completions_create w model (text file) = Completed (Some t) ->
      t <> [] ->
      JSON_parse w (sanitize t) = Some (VArr validated) ->
      forallb object_like validated = true ->
      insertMany_fault w (map normalize validated) = Some e ->
      fst (POST w (Some file) db) =
      (caught w e,
       [EFormData; EText; ECreateCollection] ++ map EAttempt (before ++ [model])
       ++ [ERawResponse; EInsert (map normalize validated)])
      /\ snd (POST w (Some file) db) = db ++ left_behind w db (map normalize validated))
  /\ (no_text w (text file) models = true ->
      parseChatManually (text file) <> [] ->
      insertMany_fault w (map (msg_map VStr) (parseChatManually (text file))) = Some e ->
      fst (POST w (Some file) db) =
      (caught w (all_failed (last_error w (text file) models None)),
       [EFormData; EText; ECreateCollection] ++ map EAttempt models
       ++ [EFallbackParsing; EInsert (map (msg_map VStr) (parseChatManually (text file)))])
      /\ snd (POST w (Some file) db) =
         db ++ left_behind w db (map (msg_map VStr) (parseChatManually (text file)))).
Proof.
  intros Hacc. split.
  - intros before model after t validated Hm Hno Hc Ht Hparse Hobj Hins.
    rewrite (POST_accepted w file db Hacc).
    rewrite (extract_text w (text file) db before model after Hm Hno Hc Ht).
    unfold with_text, insert_and_reply. rewrite Hparse. unfold validate.
    rewrite (validate_from_ok validated 0 Hobj).
    rewrite (insertChatMessages_fault w db _ Hins). auto.
  - intros Hno Hsome Hins.
    rewrite (POST_accepted w file db Hacc), (extract_no_text w (text file) db Hno).
    unfold without_text.
    assert (Hlen : (0 <? length (map (msg_map VStr) (parseChatManually (text file)))) = true).
    { apply Nat.ltb_lt. rewrite length_map.
      destruct (parseChatManually (text file)); [congruence | simpl; lia]. }
    rewrite Hlen, (insertChatMessages_fault w db _ Hins). auto.
Qed.

Lemma X12_witness :
  accepted (read_back_fails (fun _ _ => Rejected RateLimit)) alice_file = true
  /\ no_text (read_back_fails (fun _ _ => Rejected RateLimit)) (text alice_file) models = true
  /\ parseChatManually (text alice_file) <> []
  /\ fst (fst (POST (read_back_fails (fun _ _ => Rejected RateLimit)) (Some alice_file) [])) =
     {| status := 500;
        body := BError (lit "All models failed. Last error: 429 rate limit reached") None |}
  /\ snd (POST (read_back_fails (fun _ _ => Rejected RateLimit)) (Some alice_file) []) =
     [{| _id := 1;
         fields := {| sender := VStr (lit "Alice"); timestamp := VStr (lit "Unknown");
                      message := VStr (lit "Hello there") |};
         created_at := 1700000000000 |}].
Proof.
  assert (Hne : parseChatManually (text alice_file) <> []) by (vm_compute; discriminate).
  split; [reflexivity|]. split; [reflexivity|]. split; [exact Hne|].
  destruct (proj2 (X12_store_failure_reporting
                     (read_back_fails (fun _ _ => Rejected RateLimit)) alice_file []
                     StoreDown eq_refl) eq_refl Hne eq_refl) as (Hr & Hdb).
  split; [rewrite Hr; reflexivity | rewrite Hdb; reflexivity].
Defined.

Lemma validate_from_inv (elems : list value) : forall index validated,
  validate_from index elems = inr validated ->
  forallb object_like elems = true /\ validated = map normalize elems.
Proof.
  induction elems as [|msg rest IH]; intros index validated H; simpl in H.
  - injection H as <-. auto.
  - rewrite guard_object_like in H.
    destruct (object_like msg) eqn:Hmsg; simpl in H; [|discriminate].
    destruct (validate_from (S index) rest) as [e|v] eqn:E; [discriminate|].
    injection H as <-. destruct (IH (S index) v E) as (Hall & ->).
    simpl. rewrite Hmsg. auto.
Qed.

Lemma validate_inv (v : value) (validated : list (Msg value)) :
  validate v = inr validated ->
  exists elems,
    v = VArr elems /\ forallb object_like elems = true /\ validated = map normalize elems.
Proof.
  intros H. destruct v; simpl in H; try discriminate.
  destruct (validate_from_inv elems 0 validated H) as (Hall & ->).
  exists elems. auto.
Qed.

(** X13: the validation succeeds exactly on an array whose elements are
    all truthy values of type object, and then gives one normalized record
    per element, in the order of the array. *)
Theorem X13_validation_succeeds_iff (v : value) (validated : list (Msg value)) :
  validate v = inr validated <->
  exists elems,
    v = VArr elems /\ forallb object_like elems = true /\ validated = map normalize elems.
Proof.
  split.
  - apply validate_inv.
  - intros (elems & -> & Hall & ->). exact (validate_from_ok elems 0 Hall).
Qed.

Lemma X13_witness :
  validate (VArr [VArr []; VObj []]) = inr [defaulted; defaulted]
  /\ exists elems,
       VArr [VArr []; VObj []] = VArr elems /\ forallb object_like elems = true
       /\ [defaulted; defaulted] = map normalize elems.
Proof.
  split; [reflexivity|].
  exact (proj1 (X13_validation_succeeds_iff (VArr [VArr []; VObj []]) [defaulted; defaulted])
           eq_refl).
Defined.

Lemma or_else_truthy (a b : value) : truthy b = true -> truthy (or_else a b) = true.
Proof. intros Hb. unfold or_else. destruct (truthy a) eqn:E; [exact E | exact Hb]. Qed.

Lemma normalize_truthy (msg : value) :
  truthy (sender (normalize msg)) = true
  /\ truthy (timestamp (normalize msg)) = true
  /\ (message (normalize msg) = VStr [] \/ truthy (message (normalize msg)) = true).
Proof.
  unfold normalize. cbn [sender timestamp message].
  split; [now apply or_else_truthy|]. split; [now apply or_else_truthy|].
  unfold or_else. destruct (truthy (get_prop msg (lit "message"))) eqn:E; auto.
Qed.

(** X14: on the path of a model text, through [JSON.parse] or through the
    key/value recovery, every record handed to the store has a truthy
    sender and a truthy timestamp (never an empty string, [null], zero or
    [false]), and a message that is truthy or the empty string. *)
Theorem X14_model_path_fields (w : World) (t : jstring) (db : Store)
    (messages : list (Msg value)) (m : Msg value) :
  In (EInsert messages) (snd (fst (with_text w t db))) ->
  In m messages ->
  truthy (sender m) = true /\ truthy (timestamp m) = true
  /\ (message m = VStr [] \/ truthy (message m) = true).
Proof.
  intros Hev Hm.
  assert (Hval : exists v, validate v = inr messages).
  { unfold with_text, insert_and_reply in Hev.
    destruct (JSON_parse w (sanitize t)) as [v|].
    - destruct (validate v) as [e|validated] eqn:E.
      + simpl in Hev. destruct Hev as [Hev|[]]. discriminate.
      + destruct (insertChatMessages w db validated) as [[e|docs] db']; simpl in Hev;
          destruct Hev as [Hev|[Hev|[]]]; try discriminate;
          injection Hev as <-; now exists v.
    - destruct (0 <? length (fallbackConstruct t)).
      + destruct (validate (VArr (map object_of (fallbackConstruct t)))) as [e|validated] eqn:E.
        * simpl in Hev. destruct Hev as [Hev|[Hev|[]]]; discriminate.
        * destruct (insertChatMessages w db validated) as [[e|docs] db']; simpl in Hev;
            destruct Hev as [Hev|[Hev|[Hev|[]]]]; try discriminate;
            injection Hev as <-; eexists; exact E.
      + simpl in Hev. destruct Hev as [Hev|[Hev|[]]]; discriminate. }
  destruct Hval as (v & Hv).
  apply validate_inv in Hv as (elems & _ & _ & ->).
  apply in_map_iff in Hm as (x & <- & _). apply normalize_truthy.
Qed.

Lemma X14_witness :
  In (EInsert [defaulted]) (snd (fst (with_text nested_array_world (lit "[[]]") [])))
  /\ truthy (sender defaulted) = true.
Proof.
  assert (H : In (EInsert [defaulted])
                 (snd (fst (with_text nested_array_world (lit "[[]]") []))))
    by (vm_compute; right; now left).
  split; [exact H|].
  exact (proj1 (X14_model_path_fields nested_array_world (lit "[[]]") [] [defaulted]
                  defaulted H (or_introl eq_refl))).
Defined.

Lemma includes_single (c : char) (t : jstring) : includes t [c] = true -> In c t.
Proof.
  induction t as [|d t IH]; intros H; [discriminate|].
  rewrite includes_unfold in H.
  change (startsWith (d :: t) [c]) with (N.eqb c d && true) in H.
  rewrite andb_true_r in H. apply orb_true_iff in H as [H|H].
  - apply N.eqb_eq in H. now left.
  - right. now apply IH.
Qed.

Lemma recover_line_needs_quote (line : jstring) : ~ In dq line -> recover_line line = None.
Proof.
  intros H.
  assert (Hkey : forall key, key_value key line = None).
  { intros key. unfold key_value.
    destruct (exec (re_key key) (trim line)) as [M|] eqn:E; [|reflexivity].
    exfalso. apply H. apply In_trim.
    change (re_key key)
      with ([] ++ chr dq :: str key ++ [chr dq] ++ str ":"
            ++ [Cls false Star is_space; chr dq; Cls true Star not_dq; chr dq]) in E.
    exact (exec_has_literal _ _ _ _ _ E). }
  unfold recover_line. now rewrite !Hkey.
Qed.

Lemma fallbackConstruct_needs_quote (t : jstring) : ~ In dq t -> fallbackConstruct t = [].
Proof.
  intros H. rewrite fallbackConstruct_lines. apply flat_map_nil.
  intros line Hl. rewrite recover_line_needs_quote; [reflexivity|].
  intros Hq. apply H. exact (In_split _ _ _ _ Hl Hq).
Qed.

(** X15: an answer of a model with no opening bracket, no opening brace,
    no double quote and no code fence is refused, when [JSON.parse]
    refuses the empty text as it does: the clean-up leaves nothing of it,
    the key/value recovery finds no line, and the request fails with the
    diagnostic that the response does not appear to contain a JSON array,
    followed by the first 300 characters of the answer; nothing is
    inserted. *)
Theorem X15_prose_only_answer (w : World) (t : jstring) (db : Store) :
  ~ In open_bracket t ->
  ~ In open_brace t ->
  ~ In dq t ->
  includes t (lit "```") = false ->
  JSON_parse w [] = None ->
  with_text w t db =
  (caught w (Error (lit "Invalid JSON response from OpenAI."
                    ++ lit " The response does not appear to contain a JSON array."
                    ++ lit " Raw response preview: " ++ firstn 300 t ++ lit "...")),
   [ERawResponse; EFallbackJSON], db).
Proof.
  intros Hb Hc Hq Hfence Hparse.
  unfold with_text.
  rewrite (sanitize_without_json t Hb Hc), Hparse, (fallbackConstruct_needs_quote t Hq).
  cbn [length Nat.ltb Nat.leb]. unfold errorMessage. rewrite Hfence.
  assert (Hno : includes t (lit "[") = false).
  { destruct (includes t (lit "[")) eqn:E; [|reflexivity].
    exfalso. apply Hb. exact (includes_single _ _ E). }
  rewrite Hno. reflexivity.
Qed.

Lemma X15_witness :
  ~ In open_bracket (lit "Sorry, I cannot help with that.")
  /\ ~ In open_brace (lit "Sorry, I cannot help with that.")
  /\ ~ In dq (lit "Sorry, I cannot help with that.")
  /\ with_text all_time_out (lit "Sorry, I cannot help with that.") [] =
     ({| status := 500;
         body := BError (lit "Invalid JSON response from OpenAI. The response does not appear to contain a JSON array. Raw response preview: Sorry, I cannot help with that....") None |},
      [ERawResponse; EFallbackJSON], []).
Proof.
  assert (Ha : ~ In open_bracket (lit "Sorry, I cannot help with that.")).
  { intros H. vm_compute in H. repeat (destruct H as [H|H]; [discriminate|]). exact H. }
  assert (Hb : ~ In open_brace (lit "Sorry, I cannot help with that.")).
  { intros H. vm_compute in H. repeat (destruct H as [H|H]; [discriminate|]). exact H. }
  assert (Hq : ~ In dq (lit "Sorry, I cannot help with that.")).
  { intros H. vm_compute in H. repeat (destruct H as [H|H]; [discriminate|]). exact H. }
  split; [exact Ha|]. split; [exact Hb|]. split; [exact Hq|].
  exact (X15_prose_only_answer all_time_out _ [] Ha Hb Hq eq_refl eq_refl).
Defined.

(** X22: the key/value recovery works line by line and gives at most one
    record per line: the records of two answers joined by a line feed are
    the records of the first followed by the records of the second, and
    there are no more records than one plus the number of line feeds, so
    an array written on one line is recovered as one record at most. *)
Theorem X22_recovery_line_by_line (a b : jstring) :
  fallbackConstruct (a ++ newline :: b) = fallbackConstruct a ++ fallbackConstruct b
  /\ length (fallbackConstruct a) <= S (count_occ N.eq_dec a newline).
Proof.
  rewrite !fallbackConstruct_lines. unfold split. split.
  - rewrite split_on_app. apply flat_map_app.
  - rewrite <- (split_on_length newline a []).
    apply flat_map_length_le. intros line. destruct (recover_line line); simpl; lia.
Qed.

Lemma POST_early_or_accepted (w : World) (file : option File) (db : Store) :
  incl (snd (fst (POST w file db))) [EFormData; EText; ECreateCollection]
  \/ exists f, file = Some f /\ accepted w f = true.
Proof.
  unfold POST.
  destruct (unset (OPENAI_API_KEY w)) eqn:Hkey; [left; intros x []|].
  destruct (unset (MONGODB_URI w)) eqn:Huri; [left; intros x []|].
  destruct file as [f|]; [|left; intros x [<-|[]]; now left].
  destruct (maxSize <? size f)%N eqn:Hsize; [left; intros x [<-|[]]; now left|].
  destruct (negb (endsWith (name f) (lit ".txt"))) eqn:Hext;
    [left; intros x [<-|[]]; now left|].
  destruct (is_empty (trim (text f))) eqn:Hne;
    [left; intros x [<-|[<-|[]]]; simpl; auto|].
  destruct (50000 <? N.of_nat (length (text f)))%N eqn:Hlen;
    [left; intros x [<-|[<-|[]]]; simpl; auto|].
  destruct (createIndex_fault w) eqn:Hcreate; [left; intros x Hx; exact Hx|].
  right. exists f. split; [reflexivity|]. now apply extract_events_accepted.
Qed.

Lemma no_text_existsb (w : World) (fileContent : jstring) (candidates : list jstring) :
  no_text w fileContent candidates =
  negb (existsb (fun model => gives_text (completions_create w model fileContent)) candidates).
Proof.
  unfold no_text. induction candidates as [|model rest IH]; [reflexivity|].
  cbn [forallb existsb]. rewrite IH. now rewrite negb_orb.
Qed.

Lemma with_text_events (w : World) (t : jstring) (db : Store) :
  exists tail, snd (fst (with_text w t db)) = ERawResponse :: tail
               /\ ~ In EFallbackParsing tail.
Proof.
  unfold with_text, insert_and_reply.
  destruct (JSON_parse w (sanitize t)) as [v|].
  - destruct (validate v) as [e|validated].
    + exists []. split; [reflexivity | intros []].
    + destruct (insertChatMessages w db validated) as [[e|ins] db']; cbn [fst snd app];
        (eexists; split; [reflexivity | intros [H|[]]; discriminate]).
  - destruct (0 <? length (fallbackConstruct t)).
    + destruct (validate (VArr (map object_of (fallbackConstruct t)))) as [e|validated].
      * eexists. split; [reflexivity | intros [H|[]]; discriminate].
      * destruct (insertChatMessages w db validated) as [[e|ins] db']; cbn [fst snd app];
          (eexists; split; [reflexivity | intros [H|[H|[]]]; discriminate]).
    + eexists. split; [reflexivity | intros [H|[]]; discriminate].
Qed.

Lemma without_text_events (w : World) (fileContent : jstring) (lastError : option Thrown)
    (db : Store) :
  exists tail, snd (fst (without_text w fileContent lastError db)) = EFallbackParsing :: tail
               /\ ~ In ERawResponse tail.
Proof.
  unfold without_text.
  destruct (0 <? length (map (msg_map VStr) (parseChatManually fileContent))).
  - destruct (insertChatMessages w db _) as [[e|ins] db']; cbn [fst snd];
      (eexists; split; [reflexivity | intros [H|[]]; discriminate]).
  - exists []. split; [reflexivity | intros []].
Qed.

Lemma extract_events (w : World) (fileContent : jstring) (db : Store) :
  (In EFallbackParsing (snd (fst (extract w fileContent db))) <->
   no_text w fileContent models = true)
  /\ (In ERawResponse (snd (fst (extract w fileContent db))) <->
      no_text w fileContent models = false).
Proof.
  rewrite no_text_existsb. unfold extract.
  destruct (attempt_loop_outcome w fileContent models None None eq_refl)
    as (Htext & n & Hev & _).
  destruct (attempt_loop w fileContent models None None) as [[rt le] attempts].
  cbn [fst snd] in Htext, Hev. rewrite <- Htext. subst attempts.
  assert (Hatt : forall e, In e (map EAttempt (firstn n models)) ->
                           e <> EFallbackParsing /\ e <> ERawResponse).
  { intros e He. apply in_map_iff in He as (model & <- & _). split; discriminate. }
  assert (Hwith : forall tail,
             ~ In EFallbackParsing tail ->
             (In EFallbackParsing (map EAttempt (firstn n models) ++ ERawResponse :: tail) <->
              false = true)
             /\ (In ERawResponse (map EAttempt (firstn n models) ++ ERawResponse :: tail) <->
                 false = false)).
  { intros tail Hno. split; split.
    - intros H. apply in_app_or in H as [H|[H|H]].
      + now apply Hatt in H.
      + discriminate.
      + contradiction.
    - discriminate.
    - reflexivity.
    - intros _. apply in_or_app. right. now left. }
  assert (Hwithout : forall tail,
             ~ In ERawResponse tail ->
             (In EFallbackParsing (map EAttempt (firstn n models) ++ EFallbackParsing :: tail)
              <-> true = true)
             /\ (In ERawResponse (map EAttempt (firstn n models) ++ EFallbackParsing :: tail)
                 <-> true = false)).
  { intros tail Hno. split; split.
    - reflexivity.
    - intros _. apply in_or_app. right. now left.
    - intros H. apply in_app_or in H as [H|[H|H]].
      + now apply Hatt in H.
      + discriminate.
      + contradiction.
    - discriminate. }
  destruct rt as [[|c t]|]; cbn [has_text negb].
  2:{ destruct (with_text_events w (c :: t) db) as (tail & Hw & Hno).
      destruct (with_text w (c :: t) db) as [[r tr] db']. cbn [fst snd] in Hw |- *.
      subst tr. exact (Hwith tail Hno). }
  all: destruct (without_text_events w fileContent le db) as (tail & Hw & Hno);
    destruct (without_text w fileContent le db) as [[r tr] db']; cbn [fst snd] in Hw |- *;
    subst tr; exact (Hwithout tail Hno).
Qed.

(** X23: the manual parser is the fallback for models that give no text,
    not for an answer that cannot be used: [POST] runs it exactly when the
    request is accepted and no candidate model gives a text, and reads an
    answer exactly when the request is accepted and some candidate gives
    a text; so a request whose answer is read never reaches the manual
    parser, whatever becomes of the answer. *)
Theorem X23_manual_parser_only_without_text (w : World) (file : option File) (db : Store) :
  (In EFallbackParsing (snd (fst (POST w file db))) <->
   exists f, file = Some f /\ accepted w f = true /\ no_text w (text f) models = true)
  /\ (In ERawResponse (snd (fst (POST w file db))) <->
      exists f, file = Some f /\ accepted w f = true /\ no_text w (text f) models = false)
  /\ ~ (In EFallbackParsing (snd (fst (POST w file db)))
        /\ In ERawResponse (snd (fst (POST w file db)))).
Proof.
  assert (Hacc : forall f, accepted w f = true ->
            (In EFallbackParsing (snd (fst (POST w (Some f) db))) <->
             no_text w (text f) models = true)
            /\ (In ERawResponse (snd (fst (POST w (Some f) db))) <->
                no_text w (text f) models = false)).
  { intros f Hf. rewrite (POST_accepted w f db Hf).
    destruct (extract_events w (text f) db) as (H1 & H2).
    destruct (extract w (text f) db) as [[r tr] db']. cbn [fst snd] in *.
    split; (split; [intros [H|[H|[H|H]]]; try discriminate; auto
                   | intros H; do 3 right; auto]);
      [now apply H1 | now apply H1 | now apply H2 | now apply H2]. }
  assert (H1 : In EFallbackParsing (snd (fst (POST w file db))) <->
               exists f, file = Some f /\ accepted w f = true
                         /\ no_text w (text f) models = true).
  { split.
    - intros H. destruct (POST_early_or_accepted w file db) as [Hsmall|(f & -> & Hf)].
      + apply Hsmall in H. repeat (destruct H as [H|H]; [discriminate|]). destruct H.
      + exists f. split; [reflexivity|]. split; [exact Hf|]. now apply (Hacc f Hf).
    - intros (f & -> & Hf & Hno). now apply (Hacc f Hf). }
  assert (H2 : In ERawResponse (snd (fst (POST w file db))) <->
               exists f, file = Some f /\ accepted w f = true
                         /\ no_text w (text f) models = false).
  { split.
    - intros H. destruct (POST_early_or_accepted w file db) as [Hsmall|(f & -> & Hf)].
      + apply Hsmall in H. repeat (destruct H as [H|H]; [discriminate|]). destruct H.
      + exists f. split; [reflexivity|]. split; [exact Hf|]. now apply (Hacc f Hf).
    - intros (f & -> & Hf & Hno). now apply (Hacc f Hf). }
  split; [exact H1|]. split; [exact H2|].
  intros (Ha & Hb). apply H1 in Ha as (f & -> & _ & Ha).
  apply H2 in Hb as (f' & E & _ & Hb). injection E as <-. congruence.
Qed.

Lemma X23_witness :
  In EFallbackParsing (snd (fst (POST all_time_out (Some alice_file) [])))
  /\ exists f, Some alice_file = Some f /\ accepted all_time_out f = true
               /\ no_text all_time_out (text f) models = true.
Proof.
  assert (H : In EFallbackParsing (snd (fst (POST all_time_out (Some alice_file) [])))).
  { vm_compute. do 6 right. now left. }
  split; [exact H|].
  exact (proj1 (proj1 (X23_manual_parser_only_without_text all_time_out (Some alice_file) []))
           H).
Defined.

(* ================================================================== *)
(** * The read side *)
(* ================================================================== *)

Lemma non_increasing_cons a l :
  non_increasing (a :: l) =
  match l with
  | b :: _ => (b <=? a)%Z && non_increasing l
  | [] => true
  end.
Proof. reflexivity. Qed.

Lemma insert_newest_perm d l : Permutation (insert_newest d l) (d :: l).
Proof.
  induction l as [|x l IH]; simpl; [apply Permutation_refl|].
  destruct (created_at x <=? created_at d)%Z; [apply Permutation_refl|].
  apply perm_trans with (x :: d :: l); [now apply perm_skip | apply perm_swap].
Qed.

Lemma non_increasing_tail a l : non_increasing (a :: l) = true -> non_increasing l = true.
Proof.
  rewrite non_increasing_cons. destruct l; [reflexivity|].
  intros H. now apply andb_true_iff in H as [_ H].
Qed.

Lemma non_increasing_head a b l : non_increasing (a :: b :: l) = true -> (b <= a)%Z.
Proof.
  rewrite non_increasing_cons. intros H. apply andb_true_iff in H as [H _].
  now apply Z.leb_le.
Qed.

Lemma non_increasing_intro a b l :
  (b <= a)%Z -> non_increasing (b :: l) = true -> non_increasing (a :: b :: l) = true.
Proof.
  intros Hle H. rewrite non_increasing_cons, H, andb_true_r. now apply Z.leb_le.
Qed.

Lemma insert_newest_sorted d l :
  non_increasing (map created_at l) = true ->
  non_increasing (map created_at (insert_newest d l)) = true.
Proof.
  induction l as [|x l IH]; intros H; [reflexivity|].
  cbn [insert_newest]. destruct (created_at x <=? created_at d)%Z eqn:E.
  - cbn [map] in *. apply non_increasing_intro; [now apply Z.leb_le | exact H].
  - cbn [map] in H. specialize (IH (non_increasing_tail _ _ H)).
    apply Z.leb_gt in E. cbn [map].
    destruct l as [|y l].
    + cbn [insert_newest map]. apply non_increasing_intro; [lia | reflexivity].
    + cbn [insert_newest] in *. pose proof (non_increasing_head _ _ _ H) as Hy.
      destruct (created_at y <=? created_at d)%Z;
        cbn [map] in *; apply non_increasing_intro; (lia || exact IH).
Qed.

Lemma sort_newest_orders : orders sort_newest.
Proof.
  intros l. unfold sort_newest. induction l as [|d l [IHp IHs]]; simpl.
  - split; [apply perm_nil | reflexivity].
  - split.
    + apply perm_trans with (d :: fold_right insert_newest [] l);
        [apply insert_newest_perm | now apply perm_skip].
    + now apply insert_newest_sorted.
Qed.

(** X16: a read with a sender of at most 100 characters, on a store that
    answers, returns status 200, exactly the documents of the collection
    whose sender is that string (or an array holding it), newest first, as
    many as there are in the collection, and their count.  A sender of
    more than 100 characters is refused with status 400 whatever the
    store holds or does. *)
Theorem X16_read_by_sender (w : World) (sort : list Doc -> list Doc) (s : jstring)
    (db : Store) :
  orders sort ->
  unset (MONGODB_URI w) = false ->
  s <> [] ->
  (length s <= 100 ->
   exists data,
     GET w sort None (Some s) db =
       {| read_status := 200; read_body := RSuccess data (length data) |}
     /\ (forall d, In d data <-> In d db /\ sender_is s d = true)
     /\ length data = length (filter (sender_is s) db)
     /\ non_increasing (map created_at data) = true)
  /\ (100 < length s ->
      forall fault,
        GET w sort fault (Some s) db =
        {| read_status := 400; read_body := RError (lit "Invalid sender parameter") None |}).
Proof.
  intros Hsort Huri Hs. destruct s as [|c s]; [congruence|]. split.
  - intros Hlen. exists (sort (filter (sender_is (c :: s)) db)).
    destruct (Hsort (filter (sender_is (c :: s)) db)) as (Hperm & Hsorted).
    split.
    + unfold GET. rewrite Huri.
      apply Nat.ltb_ge in Hlen. rewrite Hlen. reflexivity.
    + split; [|split; [now apply Permutation_length | exact Hsorted]].
      intros d. rewrite <- filter_In. split; intros H.
      * now apply (Permutation_in d Hperm).
      * now apply (Permutation_in d (Permutation_sym Hperm)).
  - intros Hlen fault. unfold GET. rewrite Huri.
    apply Nat.ltb_lt in Hlen. now rewrite Hlen.
Qed.

Lemma X16_witness :
  orders sort_newest
  /\ unset (MONGODB_URI all_time_out) = false
  /\ exists data,
       GET all_time_out sort_newest None (Some (lit "Alice"))
           (snd (POST all_time_out (Some two_lines_file) [])) =
       {| read_status := 200; read_body := RSuccess data (length data) |}
       /\ length data = 1.
Proof.
  split; [exact sort_newest_orders|]. split; [reflexivity|].
  assert (Hs : lit "Alice" <> []) by discriminate.
  destruct (proj1 (X16_read_by_sender all_time_out sort_newest (lit "Alice")
                     (snd (POST all_time_out (Some two_lines_file) []))
                     sort_newest_orders eq_refl Hs))
    as (data & Hget & _ & Hlen & _).
  { vm_compute. lia. }
  exists data. split; [exact Hget|]. rewrite Hlen. reflexivity.
Defined.

(** X17: a read without a sender, or with an empty one, on a store that
    answers, returns status 200 and all the documents of the collection,
    each once, newest first, with their count. *)
Theorem X17_read_all (w : World) (sort : list Doc -> list Doc) (sender : option jstring)
    (db : Store) :
  orders sort ->
  unset (MONGODB_URI w) = false ->
  sender = None \/ sender = Some [] ->
  exists data,
    GET w sort None sender db =
      {| read_status := 200; read_body := RSuccess data (length db) |}
    /\ Permutation data db
    /\ non_increasing (map created_at data) = true.
Proof.
  intros Hsort Huri Hsender. exists (sort db).
  destruct (Hsort db) as (Hperm & Hsorted).
  split; [|split; assumption].
  unfold GET. rewrite Huri.
  rewrite <- (Permutation_length Hperm).
  destruct Hsender as [->| ->]; reflexivity.
Qed.

Lemma X17_witness :
  orders sort_newest
  /\ unset (MONGODB_URI all_time_out) = false
  /\ exists data,
       GET all_time_out sort_newest None (Some [])
           (snd (POST all_time_out (Some two_lines_file) [])) =
       {| read_status := 200; read_body := RSuccess data 2 |}
       /\ Permutation data (snd (POST all_time_out (Some two_lines_file) [])).
Proof.
  split; [exact sort_newest_orders|]. split; [reflexivity|].
  destruct (X17_read_all all_time_out sort_newest (Some [])
              (snd (POST all_time_out (Some two_lines_file) []))
              sort_newest_orders eq_refl (or_intror eq_refl))
    as (data & Hget & Hperm & _).
  exists data. split; [exact Hget | exact Hperm].
Defined.

(** X18: what an upload stores, a read returns: after an upload answered
    with a success, every document of its data is among the documents a
    read without sender returns from the collection the upload left, and
    so is every document that was there before. *)
Theorem X18_upload_then_read (w : World) (sort : list Doc -> list Doc)
    (file : option File) (db : Store) (msg : jstring) (data : list Doc) (fb : bool) :
  orders sort ->
  unset (MONGODB_URI w) = false ->
  body (fst (fst (POST w file db))) = BSuccess msg data fb ->
  exists found,
    GET w sort None None (snd (POST w file db)) =
      {| read_status := 200; read_body := RSuccess found (length db + length data) |}
    /\ (forall d, In d found <-> In d db \/ In d data).
Proof.
  intros Hsort Huri Hbody.
  pose proof (consistent_POST w file db) as Hc.
  destruct (POST w file db) as [[r tr] db'] eqn:E. simpl in Hbody |- *.
  unfold consistent in Hc. rewrite Hbody in Hc. destruct Hc as (_ & ->).
  destruct (Hsort (db ++ data)) as (Hperm & _).
  exists (sort (db ++ data)). split.
  - unfold GET. rewrite Huri. cbn [getAllChatMessages].
    now rewrite (Permutation_length Hperm), length_app.
  - intros d. rewrite <- in_app_iff. split; intros H.
    + now apply (Permutation_in d Hperm).
    + now apply (Permutation_in d (Permutation_sym Hperm)).
Qed.

Lemma X18_witness :
  orders sort_newest
  /\ unset (MONGODB_URI all_time_out) = false
  /\ exists msg data fb,
       body (fst (fst (POST all_time_out (Some two_lines_file) []))) = BSuccess msg data fb
       /\ exists found,
            GET all_time_out sort_newest None None
                (snd (POST all_time_out (Some two_lines_file) [])) =
            {| read_status := 200; read_body := RSuccess found (0 + length data) |}
            /\ (forall d, In d found <-> In d [] \/ In d data).
Proof.
  split; [exact sort_newest_orders|]. split; [reflexivity|].
  eexists. eexists. eexists. split; [vm_compute; reflexivity|].
  exact (X18_upload_then_read all_time_out sort_newest (Some two_lines_file) [] _ _ _
           sort_newest_orders eq_refl eq_refl).
Defined.

(* ================================================================== *)
(** * The connection *)
(* ================================================================== *)

(** X19: once [connectToDatabase] has succeeded, the module never connects
    again: every later call, whatever the environment has become, returns
    the same client and database without a call of [connect]; and after
    [closeDatabaseConnection] a later call still makes no connection and
    returns that client, now closed. *)
Theorem X19_connection_is_kept (uri database : option jstring) (outcome : Connecting)
    (c : MongoClient) (d : jstring) (vars : Connection) (n : nat) :
  connectToDatabase uri database outcome not_connected = (inr (c, d), vars, n) ->
  forall uri' database' outcome',
    connectToDatabase uri' database' outcome' vars = (inr (c, d), vars, 0)
    /\ connectToDatabase uri' database' outcome' (closeDatabaseConnection vars) =
       (inr ({| client_uri := client_uri c; closed := true |}, d),
        closeDatabaseConnection vars, 0).
Proof.
  unfold connectToDatabase at 1. cbn [client db_name not_connected].
  destruct uri as [[|u uri]|]; try discriminate.
  destruct outcome; try discriminate.
  intros H. injection H as <- <- <- <-.
  intros uri' database' outcome'. split; reflexivity.
Qed.

Lemma X19_witness :
  exists c d vars,
    connectToDatabase (Some (lit "mongodb://localhost:27017")) None Connects not_connected =
      (inr (c, d), vars, 1)
    /\ d = lit "chat_parser"
    /\ connectToDatabase None None (ConnectThrows StoreDown) (closeDatabaseConnection vars) =
       (inr ({| client_uri := client_uri c; closed := true |}, d),
        closeDatabaseConnection vars, 0).
Proof.
  eexists. eexists. eexists. split; [reflexivity|]. split; [reflexivity|].
  exact (proj2 (X19_connection_is_kept (Some (lit "mongodb://localhost:27017")) None Connects
                  _ _ _ 1 eq_refl None None (ConnectThrows StoreDown))).
Defined.

(** X20: a call of [connectToDatabase] that fails leaves the module
    unconnected, so that the next call starts over: after a connection
    string that is not set, a constructor that throws or a [connect] that
    throws, a call in an environment where connecting works makes exactly
    one call of [connect] and succeeds with a fresh, open client for the
    connection string of that call. *)
Theorem X20_failed_connection_is_retried (uri database : option jstring)
    (outcome : Connecting) (e : Thrown) (vars : Connection) (n : nat)
    (uri' : jstring) (database' : option jstring) :
  connectToDatabase uri database outcome not_connected = (inl e, vars, n) ->
  uri' <> [] ->
  exists d,
    connectToDatabase (Some uri') database' Connects vars =
    (inr ({| client_uri := uri'; closed := false |}, d),
     {| client := Some {| client_uri := uri'; closed := false |}; db_name := Some d |}, 1).
Proof.
  unfold connectToDatabase at 1. cbn [client db_name not_connected].
  intros H Huri. destruct uri' as [|c' uri']; [congruence|].
  assert (Hvars : db_name vars = None).
  { destruct uri as [[|u uri]|]; try (injection H as _ <- _; reflexivity).
    destruct outcome; try discriminate; injection H as _ <- _; reflexivity. }
  unfold connectToDatabase. rewrite Hvars.
  destruct (client vars); eexists; reflexivity.
Qed.

Lemma X20_witness :
  connectToDatabase (Some (lit "mongodb://down:27017")) None (ConnectThrows StoreDown)
    not_connected =
  (inl StoreDown,
   {| client := Some {| client_uri := lit "mongodb://down:27017"; closed := false |};
      db_name := None |}, 1)
  /\ exists d,
       connectToDatabase (Some (lit "mongodb://up:27017")) (Some (lit "chats")) Connects
         {| client := Some {| client_uri := lit "mongodb://down:27017"; closed := false |};
            db_name := None |} =
       (inr ({| client_uri := lit "mongodb://up:27017"; closed := false |}, d),
        {| client := Some {| client_uri := lit "mongodb://up:27017"; closed := false |};
           db_name := Some d |}, 1).
Proof.
  split; [reflexivity|].
  assert (Huri : lit "mongodb://up:27017" <> []) by discriminate.
  exact (X20_failed_connection_is_retried (Some (lit "mongodb://down:27017")) None
           (ConnectThrows StoreDown) StoreDown _ 1 (lit "mongodb://up:27017")
           (Some (lit "chats")) eq_refl Huri).
Defined.

(* ================================================================== *)
(** * The list of senders *)
(* ================================================================== *)

Lemma existsb_eqs (v : jstring) (seen : list jstring) :
  existsb (eqs v) seen = true <-> In v seen.
Proof.
  rewrite existsb_exists. split.
  - intros (x & Hx & E). apply eqs_eq in E. now subst.
  - intros H. exists v. split; [exact H | apply eqs_refl].
Qed.

Lemma set_values_spec (values : list jstring) : forall seen,
  NoDup seen ->
  NoDup (set_values seen values)
  /\ forall v, In v (set_values seen values) <-> In v seen \/ In v values.
Proof.
  induction values as [|x values IH]; intros seen Hnd; simpl.
  - split; [now apply NoDup_rev|]. intros v. rewrite <- in_rev. tauto.
  - destruct (existsb (eqs x) seen) eqn:E.
    + apply existsb_eqs in E. destruct (IH seen Hnd) as (Hn & Hin).
      split; [exact Hn|]. intros v. rewrite Hin. split; [tauto|].
      intros [H|[<-|H]]; tauto.
    + assert (Hx : ~ In x seen).
      { intros Hx. apply existsb_eqs in Hx. congruence. }
      destruct (IH (x :: seen) (NoDup_cons x Hx Hnd)) as (Hn & Hin).
      split; [exact Hn|]. intros v. rewrite Hin. simpl. tauto.
Qed.

(** X21: the list of senders offered by the filter has no duplicate,
    never holds [Unknown], and holds every other sender of the messages.
    With no search term, choosing one of its senders shows at least one
    message; it shows exactly the messages of that sender, unless the
    sender is the empty string, which shows all messages. *)
Theorem X21_unique_senders (lower : jstring -> jstring)
    (sort : jstring -> list (Msg jstring) -> list (Msg jstring))
    (messages : list (Msg jstring)) (sortBy : jstring) :
  (forall key l, Permutation (sort key l) l) ->
  NoDup (uniqueSenders messages)
  /\ (forall s, In s (uniqueSenders messages) <->
                s <> lit "Unknown" /\ exists m, In m messages /\ sender m = s)
  /\ (forall s, In s (uniqueSenders messages) ->
                let shown := filteredMessages lower sort messages [] s sortBy in
                shown <> []
                /\ (s <> [] -> forall m, In m shown <-> In m messages /\ sender m = s)
                /\ (s = [] -> Permutation shown messages)).
Proof.
  intros Hsort.
  destruct (set_values_spec (map (@sender jstring) messages) [] (NoDup_nil _)) as (Hn & Hin).
  assert (Hmem : forall s, In s (uniqueSenders messages) <->
                           s <> lit "Unknown" /\ exists m, In m messages /\ sender m = s).
  { intros s. unfold uniqueSenders. rewrite filter_In, Hin, in_map_iff.
    rewrite negb_true_iff. split.
    - intros ([[]|(m & Hs & Hm)] & Hu). split.
      + intros ->. now rewrite eqs_refl in Hu.
      + now exists m.
    - intros (Hu & m & Hm & Hs). split.
      + right. now exists m.
      + destruct (eqs s (lit "Unknown")) eqn:E; [|reflexivity].
        apply eqs_eq in E. contradiction. }
  split; [|split; [exact Hmem|]].
  - unfold uniqueSenders. now apply NoDup_filter.
  - intros s Hs shown. apply Hmem in Hs as (Hu & m & Hm & Hsm).
    unfold filteredMessages in shown. cbn [is_empty negb] in shown.
    destruct s as [|c s]; cbn [is_empty negb] in shown.
    + split; [|split; [congruence | intros _; apply Hsort]].
      intros Hnil. pose proof (Hsort sortBy messages) as Hp. fold shown in Hp.
      rewrite Hnil in Hp. apply Permutation_nil in Hp. subst messages. destruct Hm.
    + pose proof (Hsort sortBy (filter (fun msg => eqs (sender msg) (c :: s)) messages)) as Hp.
      fold shown in Hp.
      assert (Hshown : forall m', In m' shown <-> In m' messages /\ sender m' = c :: s).
      { intros m'. split.
        - intros H. apply (Permutation_in m' Hp) in H.
          apply filter_In in H as (Hin' & E). apply eqs_eq in E. auto.
        - intros (Hin' & E). apply (Permutation_in m' (Permutation_sym Hp)).
          apply filter_In. split; [exact Hin'|]. rewrite E. apply eqs_refl. }
      split; [|split; [intros _; exact Hshown | discriminate]].
      intros Hnil. assert (Hm' : In m shown) by (apply Hshown; auto).
      rewrite Hnil in Hm'. destruct Hm'.
Qed.

Lemma X21_witness :
  (forall (key : jstring) (l : list (Msg jstring)), Permutation ((fun _ l => l) key l) l)
  /\ In (lit "Alice") (uniqueSenders three_messages)
  /\ (forall m,
        In m (filteredMessages (fun s => s) (fun _ l => l) three_messages [] (lit "Alice")
                (lit "newest")) <->
        In m three_messages /\ sender m = lit "Alice").
Proof.
  assert (Hsort : forall (key : jstring) (l : list (Msg jstring)),
             Permutation ((fun _ l => l) key l) l) by (intros; apply Permutation_refl).
  assert (Hin : In (lit "Alice") (uniqueSenders three_messages)) by (vm_compute; now left).
  split; [exact Hsort|]. split; [exact Hin|].
  assert (Hs : lit "Alice" <> []) by discriminate.
  exact (proj1 (proj2 (proj2 (proj2 (X21_unique_senders (fun s => s) (fun _ l => l)
                                       three_messages (lit "newest") Hsort))
                         (lit "Alice") Hin)) Hs).
Defined.
